(** * song-splitter: tracklist parser, timeline resolver and extraction jobs

    A shallow embedding of [main.go].  Go strings are byte strings and are
    modelled by [string] (one [ascii] per byte); [float64] is IEEE 754
    binary64, modelled by [spec_float] at precision 53; the [regexp]
    patterns of the parser are kept as syntax trees and run by a
    backtracking matcher with Go's leftmost-first preference order. *)

From Stdlib Require Import ZArith String Ascii List Bool Lia.
From Stdlib Require Import SpecFloat DecimalString DecimalNat.
Import ListNotations.

Local Open Scope list_scope.
Local Open Scope string_scope.

Set Implicit Arguments.

(** ** Outcomes of Go functions *)

(** The kinds of [error] values the program produces. *)
Inductive error : Type :=
| ErrSyntax (num : string)        (* strconv.Atoi: parsing num: invalid syntax *)
| ErrRange (num : string)         (* strconv.Atoi: parsing num: value out of range *)
| ErrArtistTitle (s : string)     (* invalid artist/title format: s *)
| ErrTimeRange (s e : string)     (* invalid time range: start(s) >= end(e) *)
| ErrFfmpeg (err output : string) (* ffmpeg error: err \n output *)
| ErrOpen (msg : string)          (* os.Open failed *)
| ErrScan (msg : string).         (* bufio.Scanner stopped with an error *)

(** A Go call returns its value, returns a non-nil [error], or panics. *)
Inductive outcome (A : Type) : Type :=
| Ret (a : A)
| Fail (e : error)
| Panic.

Arguments Ret {A} a.
Arguments Fail {A} e.
Arguments Panic {A}.

Definition bind {A B : Type} (m : outcome A) (f : A -> outcome B) : outcome B :=
  match m with
  | Ret a => f a
  | Fail e => Fail e
  | Panic => Panic
  end.

Notation "'do' x <- m ; f" := (bind m (fun x => f))
  (at level 10, x pattern, m at level 100, f at level 200).

(** ** The [strings] package, on byte strings *)

Module Strings.

Fixpoint take (n : nat) (s : string) : string :=
  match n, s with
  | S n', String c s' => String c (take n' s')
  | _, _ => ""
  end.

Fixpoint drop (n : nat) (s : string) : string :=
  match n, s with
  | S n', String _ s' => drop n' s'
  | _, _ => s
  end.

Fixpoint rev_append (s acc : string) : string :=
  match s with
  | "" => acc
  | String c s' => rev_append s' (String c acc)
  end.

Definition rev (s : string) : string := rev_append s "".

(** [strings.HasPrefix(s, prefix)] *)
Fixpoint HasPrefix (s prefix : string) {struct prefix} : bool :=
  match prefix, s with
  | "", _ => true
  | String p prefix', String c s' => Ascii.eqb c p && HasPrefix s' prefix'
  | String _ _, "" => false
  end.

(** [strings.HasSuffix(s, suffix)] *)
Definition HasSuffix (s suffix : string) : bool :=
  (String.length suffix <=? String.length s)%nat
  && String.eqb (drop (String.length s - String.length suffix) s) suffix.

(** [strings.Cut(s, sep)]: the text before and after the first occurrence
    of [sep]. *)
Fixpoint Cut (s sep : string) : option (string * string) :=
  if HasPrefix s sep then Some ("", drop (String.length sep) s)
  else match s with
       | "" => None
       | String c s' =>
           match Cut s' sep with
           | Some (before, after) => Some (String c before, after)
           | None => None
           end
       end.

(** The splitting loop of [genSplit], for a non-empty separator: at most
    [n] pieces, the last one holding the unsplit remainder. *)
Fixpoint genSplit (s sep : string) (n : nat) : list string :=
  match n with
  | 0 => []
  | 1 => [s]
  | S n' =>
      match Cut s sep with
      | Some (before, after) => before :: genSplit after sep n'
      | None => [s]
      end
  end.

(** [strings.SplitN(s, sep, n)] for a non-empty [sep]: [n = 0] gives nil,
    [n < 0] all pieces (one more than the occurrences of [sep], so at most
    one more than the length of [s]), [n > 0] at most [n] pieces. *)
Definition SplitN (s sep : string) (n : Z) : list string :=
  if (n =? 0)%Z then []
  else if (n <? 0)%Z then genSplit s sep (S (String.length s))
  else genSplit s sep (Z.to_nat n).

(** [strings.Split(s, sep)] *)
Definition Split (s sep : string) : list string := SplitN s sep (-1).

(** [strings.Join(elems, sep)] *)
Fixpoint Join (elems : list string) (sep : string) : string :=
  match elems with
  | [] => ""
  | [e] => e
  | e :: rest => e ++ sep ++ Join rest sep
  end.

(** [strings.IndexByte(s, c) >= 0] *)
Fixpoint ContainsByte (s : string) (c : ascii) : bool :=
  match s with
  | "" => false
  | String d s' => Ascii.eqb d c || ContainsByte s' c
  end.

(** The ASCII members of [unicode.IsSpace]: tab, LF, VT, FF, CR, space. *)
Definition asciiSpace (c : ascii) : bool :=
  let n := nat_of_ascii c in
  ((9 <=? n) && (n <=? 13) || (n =? 32))%nat.

(** The UTF-8 encodings of the other members of [unicode.IsSpace]:
    U+0085, U+00A0 (two bytes) and U+1680, U+2000..U+200A, U+2028, U+2029,
    U+202F, U+205F, U+3000 (three bytes). *)
Definition space2 (b1 b2 : ascii) : bool :=
  let n1 := nat_of_ascii b1 in
  let n2 := nat_of_ascii b2 in
  ((n1 =? 194) && ((n2 =? 133) || (n2 =? 160)))%nat.

Definition space3 (b1 b2 b3 : ascii) : bool :=
  let n1 := nat_of_ascii b1 in
  let n2 := nat_of_ascii b2 in
  let n3 := nat_of_ascii b3 in
  ((n1 =? 225) && (n2 =? 154) && (n3 =? 128)
   || (n1 =? 226) && (n2 =? 128)
      && ((128 <=? n3) && (n3 <=? 138) || (n3 =? 168) || (n3 =? 169) || (n3 =? 175))
   || (n1 =? 226) && (n2 =? 129) && (n3 =? 159)
   || (n1 =? 227) && (n2 =? 128) && (n3 =? 128))%nat.

(** [strings.TrimLeftFunc(s, unicode.IsSpace)]: leading white-space runes
    are removed one at a time. *)
Fixpoint TrimLeftSpace (s : string) : string :=
  match s with
  | "" => ""
  | String b1 s1 =>
      if asciiSpace b1 then TrimLeftSpace s1
      else match s1 with
           | "" => s
           | String b2 s2 =>
               if space2 b1 b2 then TrimLeftSpace s2
               else match s2 with
                    | "" => s
                    | String b3 s3 =>
                        if space3 b1 b2 b3 then TrimLeftSpace s3 else s
                    end
           end
  end.

(** The same scan on the reversed string, for
    [strings.TrimRightFunc(s, unicode.IsSpace)]: the last rune is a white
    space exactly when the string ends with one of the encodings. *)
Fixpoint TrimLeftSpaceRev (s : string) : string :=
  match s with
  | "" => ""
  | String b1 s1 =>
      if asciiSpace b1 then TrimLeftSpaceRev s1
      else match s1 with
           | "" => s
           | String b2 s2 =>
               if space2 b2 b1 then TrimLeftSpaceRev s2
               else match s2 with
                    | "" => s
                    | String b3 s3 =>
                        if space3 b3 b2 b1 then TrimLeftSpaceRev s3 else s
                    end
           end
  end.

Definition TrimRightSpace (s : string) : string :=
  rev (TrimLeftSpaceRev (rev s)).

(** [strings.TrimSpace(s)] *)
Definition TrimSpace (s : string) : string :=
  TrimRightSpace (TrimLeftSpace s).

(** *** Runes: [utf8.DecodeRuneInString], [utf8.AppendRune], [strings.Map] *)

Definition rune : Type := Z.

Definition RuneError : rune := 65533%Z.  (* U+FFFD *)
Definition MaxRune : rune := 1114111%Z.  (* U+10FFFF *)

Definition byteVal (b : ascii) : Z := Z.of_nat (nat_of_ascii b).
Definition byteOf (v : Z) : ascii := ascii_of_nat (Z.to_nat v).

Definition inRange (lo hi v : Z) : bool := ((lo <=? v) && (v <=? hi))%Z.

(** The accepted range of the second byte, by first byte. *)
Definition acceptLo (b0 : Z) : Z :=
  if (b0 =? 224)%Z then 160 else if (b0 =? 240)%Z then 144 else 128.
Definition acceptHi (b0 : Z) : Z :=
  if (b0 =? 237)%Z then 159 else if (b0 =? 244)%Z then 143 else 191.

(** [utf8.DecodeRuneInString(s)]: the first rune and its width in bytes;
    an ill-formed or truncated sequence is [RuneError] of width 1, the
    empty string [RuneError] of width 0. *)
Definition DecodeRuneInString (s : string) : rune * nat :=
  match s with
  | "" => (RuneError, 0)
  | String c0 s1 =>
      let b0 := byteVal c0 in
      if (b0 <? 128)%Z then (b0, 1)
      else if negb (inRange 194 244 b0) then (RuneError, 1)
      else
        match s1 with
        | "" => (RuneError, 1)
        | String c1 s2 =>
            let b1 := byteVal c1 in
            if negb (inRange (acceptLo b0) (acceptHi b0) b1) then (RuneError, 1)
            else if (b0 <=? 223)%Z then (((b0 mod 32) * 64 + b1 mod 64)%Z, 2)
            else
              match s2 with
              | "" => (RuneError, 1)
              | String c2 s3 =>
                  let b2 := byteVal c2 in
                  if negb (inRange 128 191 b2) then (RuneError, 1)
                  else if (b0 <=? 239)%Z
                  then (((b0 mod 16) * 4096 + (b1 mod 64) * 64 + b2 mod 64)%Z, 3)
                  else
                    match s3 with
                    | "" => (RuneError, 1)
                    | String c3 _ =>
                        let b3 := byteVal c3 in
                        if negb (inRange 128 191 b3) then (RuneError, 1)
                        else (((b0 mod 8) * 262144 + (b1 mod 64) * 4096
                               + (b2 mod 64) * 64 + b3 mod 64)%Z, 4)
                    end
              end
        end
  end.

(** The encoding of a rune known to be valid (not negative, no surrogate,
    at most [MaxRune]). *)
Definition encodeValid (r : rune) : string :=
  if (r <? 128)%Z then String (byteOf r) ""
  else if (r <? 2048)%Z then
    String (byteOf (192 + r / 64)) (String (byteOf (128 + r mod 64)) "")
  else if (r <? 65536)%Z then
    String (byteOf (224 + r / 4096))
      (String (byteOf (128 + (r / 64) mod 64))
         (String (byteOf (128 + r mod 64)) ""))
  else
    String (byteOf (240 + r / 262144))
      (String (byteOf (128 + (r / 4096) mod 64))
         (String (byteOf (128 + (r / 64) mod 64))
            (String (byteOf (128 + r mod 64)) ""))).

(** [utf8.AppendRune]: a rune out of range or a surrogate is written as
    [RuneError]. *)
Definition EncodeRune (r : rune) : string :=
  if (r <? 0)%Z || (MaxRune <? r)%Z || inRange 55296 57343 r
  then encodeValid RuneError
  else encodeValid r.

(** The rune loop of [strings.Map]: [skip] counts the bytes of the current
    rune still to pass over.  A negative result drops the rune; any other
    result is written in its UTF-8 encoding. *)
Fixpoint mapRunes (mapping : rune -> rune) (skip : nat) (s : string) : string :=
  match s with
  | "" => ""
  | String _ s' =>
      match skip with
      | S skip' => mapRunes mapping skip' s'
      | 0 =>
          let (c, width) := DecodeRuneInString s in
          let r := mapping c in
          (if (r <? 0)%Z then "" else EncodeRune r)
            ++ mapRunes mapping (width - 1) s'
      end
  end.

(** [strings.Map(mapping, s)] *)
Definition Map (mapping : rune -> rune) (s : string) : string :=
  mapRunes mapping 0 s.

(** [strings.ContainsRune(s, r)] for an ASCII-only [s]: only an ASCII rune
    can occur in it. *)
Definition ContainsRune (s : string) (r : rune) : bool :=
  inRange 0 127 r && ContainsByte s (byteOf r).

End Strings.

(** ** [strconv.Atoi], for the 64-bit [int] of the build target *)

Module Strconv.

Definition isDigit (c : ascii) : bool :=
  let n := nat_of_ascii c in ((48 <=? n) && (n <=? 57))%nat.

Definition digitVal (c : ascii) : Z := Z.of_nat (nat_of_ascii c) - 48.

Definition maxUint64 : Z := 2 ^ 64 - 1.

(** The digit loop of [ParseUint(s, 10, 64)]: a byte that is no digit is a
    syntax error, a value beyond 64 bits a range error, whichever is met
    first from the left. *)
Fixpoint parseUintLoop (s0 s : string) (n : Z) : Z + error :=
  match s with
  | "" => inl n
  | String c s' =>
      if negb (isDigit c) then inr (ErrSyntax s0)
      else if (maxUint64 / 10 + 1 <=? n)%Z then inr (ErrRange s0)
      else
        let n1 := (n * 10 + digitVal c)%Z in
        if (maxUint64 <? n1)%Z then inr (ErrRange s0)
        else parseUintLoop s0 s' n1
  end.

Definition isSign (c : ascii) : bool :=
  Ascii.eqb c "+" || Ascii.eqb c "-".

(** [strconv.Atoi(s)] *)
Definition Atoi (s : string) : Z + error :=
  match s with
  | "" => inr (ErrSyntax s)
  | String c rest =>
      let neg := Ascii.eqb c "-" in
      let digits := if isSign c then rest else s in
      match digits with
      | "" => inr (ErrSyntax s)
      | _ =>
          match parseUintLoop s digits 0 with
          | inr e => inr e
          | inl un =>
              if negb neg && (2 ^ 63 <=? un)%Z then inr (ErrRange s)
              else if neg && (2 ^ 63 <? un)%Z then inr (ErrRange s)
              else inl (if neg then (- un)%Z else un)
          end
      end
  end.

End Strconv.

(** ** [float64] *)

Module Float64.

Definition float64 : Type := spec_float.

Definition prec : Z := 53.
Definition emax : Z := 1024.

(** The conversion [float64(n)] of an integer, rounding to nearest even. *)
Definition of_int (n : Z) : float64 := binary_normalize prec emax n 0 false.

Definition add (x y : float64) : float64 := SFadd prec emax x y.
Definition mul (x y : float64) : float64 := SFmul prec emax x y.
Definition sub (x y : float64) : float64 := SFsub prec emax x y.

(** [x >= y]: false as soon as one side is NaN. *)
Definition geb (x y : float64) : bool :=
  match SFcompare x y with
  | Some Gt | Some Eq => true
  | _ => false
  end.

(** [x <= y] *)
Definition leb (x y : float64) : bool := SFleb x y.

Definition zero : float64 := S754_zero false.

End Float64.

(** ** The [regexp] package: syntax trees and a backtracking matcher *)

Module Regexp.

Import Strings.

(** The constructs the two patterns of the parser use.  [Star true r] is
    the greedy [r*], [Star false r] the lazy [r*?]; [Alt r1 r2] prefers
    [r1]; [Group i r] is the i-th capturing group; [Bol] and [Eol] are [^]
    and [$] without the multi-line flag. *)
Inductive regex : Type :=
| Eps
| Chr (p : ascii -> bool)
| Cat (r1 r2 : regex)
| Alt (r1 r2 : regex)
| Star (greedy : bool) (r : regex)
| Group (i : nat) (r : regex)
| Bol
| Eol.

Definition Lit (c : ascii) : regex := Chr (Ascii.eqb c).
Definition Plus (r : regex) : regex := Cat r (Star true r).      (* r+  *)
Definition LazyPlus (r : regex) : regex := Cat r (Star false r). (* r+? *)
Definition Opt (r : regex) : regex := Alt r Eps.                 (* r?  *)

(** [\d], [\s] and [.] (no [s] flag: every character but the line feed).
    All the literals of the patterns are ASCII and every ASCII byte is a
    rune of its own, so a run of [.] delimited by literals or by the ends
    of the text spans whole runes and can be read byte by byte. *)
Definition digit (c : ascii) : bool := Strconv.isDigit c.
Definition space (c : ascii) : bool :=
  let n := nat_of_ascii c in
  ((n =? 9) || (n =? 10) || (n =? 12) || (n =? 13) || (n =? 32))%nat.
Definition dot (c : ascii) : bool := negb (Ascii.eqb c "010").

(** Submatches: the text of each capturing group that took part. *)
Definition captures : Type := nat -> option string.

Definition no_captures : captures := fun _ => None.

Definition set_capture (i : nat) (v : string) (c : captures) : captures :=
  fun j => if Nat.eqb j i then Some v else c j.

(** The rest of a pattern: what it does with the text still to match and
    the submatches so far. *)
Definition cont : Type := string -> captures -> option captures.

(** The iteration of [r*] or [r*?], given the matcher [m] of [r].  An
    iteration must consume some text; [fuel] bounds the number of
    iterations by the length of the text.  The greedy form tries one more
    iteration before the rest of the pattern, the lazy form after. *)
Fixpoint star_loop (m : string -> captures -> cont -> option captures)
    (greedy : bool) (k : cont) (fuel : nat) (s : string) (c : captures)
  : option captures :=
  match fuel with
  | 0 => k s c
  | S fuel' =>
      let again :=
        m s c (fun s' c' =>
                 if (String.length s' <? String.length s)%nat
                 then star_loop m greedy k fuel' s' c' else None) in
      if greedy then
        match again with
        | Some res => Some res
        | None => k s c
        end
      else
        match k s c with
        | Some res => Some res
        | None => again
        end
  end.

(** [rmatch total r s c k]: match [r] at the front of the remaining text
    [s] (of a text of [total] bytes), then run the rest of the pattern [k]
    on what is left; alternatives are tried in preference order and the
    first success wins. *)
Fixpoint rmatch (total : nat) (r : regex) (s : string) (c : captures)
    (k : cont) {struct r} : option captures :=
  match r with
  | Eps => k s c
  | Chr p =>
      match s with
      | String a s' => if p a then k s' c else None
      | "" => None
      end
  | Cat r1 r2 => rmatch total r1 s c (fun s' c' => rmatch total r2 s' c' k)
  | Alt r1 r2 =>
      match rmatch total r1 s c k with
      | Some res => Some res
      | None => rmatch total r2 s c k
      end
  | Star greedy r1 =>
      star_loop (rmatch total r1) greedy k (String.length s) s c
  | Group i r1 =>
      rmatch total r1 s c
        (fun s' c' =>
           k s' (set_capture i (take (String.length s - String.length s') s) c'))
  | Bol => if (String.length s =? total)%nat then k s c else None
  | Eol => match s with "" => k s c | _ => None end
  end.

(** One attempt at each start offset, leftmost first. *)
Fixpoint search (total : nat) (r : regex) (s : string) : option (string * captures) :=
  match rmatch total r s no_captures
          (fun s' c' =>
             Some (set_capture 0 (take (String.length s - String.length s') s) c')) with
  | Some c => Some (s, c)
  | None =>
      match s with
      | "" => None
      | String _ s' => search total r s'
      end
  end.

(** [re.FindStringSubmatch(s)] for a pattern with [ngroups] capturing
    groups: nil without a match, else the match followed by the text of
    each group, empty for a group that took no part. *)
Definition FindStringSubmatch (r : regex) (ngroups : nat) (s : string)
  : option (list string) :=
  match search (String.length s) r s with
  | None => None
  | Some (_, c) =>
      Some (map (fun i => match c i with Some v => v | None => "" end)
                (seq 0 (S ngroups)))
  end.

(** The texts a pattern can consume, whatever the preference order; the
    anchors consume nothing. *)
Inductive lang : regex -> string -> Prop :=
| lang_Eps : lang Eps ""
| lang_Chr p a : p a = true -> lang (Chr p) (String a "")
| lang_Cat r1 r2 s1 s2 : lang r1 s1 -> lang r2 s2 -> lang (Cat r1 r2) (s1 ++ s2)
| lang_Alt_l r1 r2 s : lang r1 s -> lang (Alt r1 r2) s
| lang_Alt_r r1 r2 s : lang r2 s -> lang (Alt r1 r2) s
| lang_Star_nil g r : lang (Star g r) ""
| lang_Star_cons g r s1 s2 :
    s1 <> "" -> lang r s1 -> lang (Star g r) s2 -> lang (Star g r) (s1 ++ s2)
| lang_Group i r s : lang r s -> lang (Group i r) s
| lang_Bol : lang Bol ""
| lang_Eol : lang Eol "".

(** The capturing groups of a pattern. *)
Fixpoint groups (r : regex) : list nat :=
  match r with
  | Eps | Chr _ | Bol | Eol => []
  | Cat r1 r2 | Alt r1 r2 => (groups r1 ++ groups r2)%list
  | Star _ r1 => groups r1
  | Group i r1 => i :: groups r1
  end.

Fixpoint anchor_free (r : regex) : bool :=
  match r with
  | Eps | Chr _ => true
  | Bol | Eol => false
  | Cat r1 r2 | Alt r1 r2 => anchor_free r1 && anchor_free r2
  | Star _ r1 | Group _ r1 => anchor_free r1
  end.

End Regexp.

(** Slice indexing [xs[i]]: out of range panics. *)
Definition index {A : Type} (xs : list A) (i : nat) : outcome A :=
  match nth_error xs i with
  | Some x => Ret x
  | None => Panic
  end.

(** ** The program *)

Import Strings Strconv Float64 Regexp.

Record AdditionalTrack : Type := mkAdditionalTrack {
  Artist : string;
  Title : string;
  Label : string
}.

Record Track : Type := mkTrack {
  StartTime : float64;
  EndTime : float64;
  MainArtist : string;
  MainTitle : string;
  MainLabel : string;
  Additional : list AdditionalTrack;
  OutputFilename : string
}.

Definition maxWorkers : nat := 4.
Definition outputDir : string := "output".

Definition multipliers : list float64 := [of_int 1; of_int 60; of_int 3600].

(** The loop [for i := range parts] of [parseTimestamp], over the indices
    still to visit.  The product and the sum are rounded one after the
    other; a compiler that fuses them into one operation, as Go allows,
    gives the same float whenever the product is exact. *)
Fixpoint parseTimestamp_loop (parts : list string) (idxs : list nat) (total : float64)
  : outcome float64 :=
  match idxs with
  | [] => Ret total
  | i :: idxs' =>
      do part <- index parts (List.length parts - 1 - i);
      match Atoi part with
      | inr err => Fail err
      | inl val =>
          do m <- index multipliers i;
          parseTimestamp_loop parts idxs' (add total (mul (of_int val) m))
      end
  end.

Definition parseTimestamp (ts : string) : outcome float64 :=
  let parts := Split ts ":" in
  parseTimestamp_loop parts (seq 0 (List.length parts)) zero.

Definition parseArtistTitle (s : string) : outcome (string * string) :=
  let parts := SplitN s " - " 2 in
  if negb (List.length parts =? 2)%nat then Fail (ErrArtistTitle s)
  else
    do artist <- index parts 0;
    do title <- index parts 1;
    Ret (artist, title).

(** [\d+:?\d*:\d+], the timestamp between the brackets *)
Definition timeRe : regex :=
  Cat (Plus (Chr digit))
 (Cat (Opt (Lit ":"))
 (Cat (Star true (Chr digit))
 (Cat (Lit ":")
      (Plus (Chr digit))))).

(** [.+?], the artist and title *)
Definition restRe : regex := LazyPlus (Chr dot).

(** [(?:\s\[(.+)\])?], the optional label, captured as group [i] *)
Definition labelRe (i : nat) : regex :=
  Opt (Cat (Chr space)
      (Cat (Lit "[")
      (Cat (Group i (Plus (Chr dot)))
           (Lit "]")))).

(** [^\[(\d+:?\d*:\d+)\]\s(.+?)(?:\s\[(.+)\])?$] *)
Definition lineRe : regex :=
  Cat Bol
 (Cat (Lit "[")
 (Cat (Group 1 timeRe)
 (Cat (Lit "]")
 (Cat (Chr space)
 (Cat (Group 2 restRe)
 (Cat (labelRe 3)
      Eol)))))).

(** [^w/\s(.+?)(?:\s\[(.+)\])?$] *)
Definition wRe : regex :=
  Cat Bol
 (Cat (Lit "w")
 (Cat (Lit "/")
 (Cat (Chr space)
 (Cat (Group 1 restRe)
 (Cat (labelRe 2)
      Eol))))).

(** *** Tracklist parser *)

(** What [os.Open] and the [bufio.Scanner] deliver: the lines of the file
    in order (without their line ends) and the scanner's final [Err()]. *)
Record scanner : Type := mkScanner {
  tokens : list string;
  scanErr : option error
}.

(** The two variables of the parsing loop.  [currentTrack] points to a
    track of its own; [append(tracks, *currentTrack)] stores a copy, which
    later appends to [currentTrack.Additional] do not reach. *)
Record parser : Type := mkParser {
  tracks : list Track;
  currentTrack : option Track
}.

Definition flush (st : parser) : list Track :=
  match currentTrack st with
  | Some t => (tracks st ++ [t])%list
  | None => tracks st
  end.

(** The branch of the loop body for a line that [lineRe] matches. *)
Definition trackLine (st : parser) (matches : list string) : outcome parser :=
  let tracks' := flush st in
  do ts <- index matches 1;
  do start <- parseTimestamp ts;
  do rest <- index matches 2;
  (* Skip stage announcement lines *)
  if HasSuffix rest "On Stage"
  then Ret (mkParser tracks' (currentTrack st))
  else
    do (artist, title) <- parseArtistTitle rest;
    do label <-
      (if (3 <? List.length matches)%nat
       then do m3 <- index matches 3;
            Ret (if negb (String.eqb m3 "") then m3 else "")
       else Ret "");
    Ret (mkParser tracks'
           (Some (mkTrack start zero artist title label [] ""))).

(** The branch for a line that starts with [w/]. *)
Definition withLine (st : parser) (line : string) : outcome parser :=
  match currentTrack st with
  | None => Ret st
  | Some t =>
      match FindStringSubmatch wRe 2 line with
      | None => Ret st
      | Some matches =>
          do m1 <- index matches 1;
          do (artist, title) <- parseArtistTitle m1;
          do label <- index matches 2;
          Ret (mkParser (tracks st)
                 (Some (mkTrack (StartTime t) (EndTime t) (MainArtist t)
                          (MainTitle t) (MainLabel t)
                          (Additional t ++ [mkAdditionalTrack artist title label])%list
                          (OutputFilename t))))
      end
  end.

(** One iteration of [for scanner.Scan()]. *)
Definition parseLine (st : parser) (text : string) : outcome parser :=
  let line := TrimSpace text in
  if String.eqb line "" then Ret st
  else
    match FindStringSubmatch lineRe 3 line with
    | Some matches => trackLine st matches
    | None =>
        if HasPrefix line "w/" then withLine st line else Ret st
    end.

Fixpoint parseLines (st : parser) (lines : list string) : outcome parser :=
  match lines with
  | [] => Ret st
  | text :: lines' =>
      do st' <- parseLine st text;
      parseLines st' lines'
  end.

(** [parseTracklist]: the first line is the header, whatever it holds. *)
Definition parseTracklist (file : error + scanner)
  : outcome (list Track * string) :=
  match file with
  | inl err => Fail err
  | inr sc =>
      let header := hd "" (tokens sc) in
      do st <- parseLines (mkParser [] None) (tl (tokens sc));
      match scanErr sc with
      | Some err => Fail err
      | None => Ret (flush st, header)
      end
  end.

(** *** Timeline resolver *)

(** The assignment [xs[i] = x]: out of range panics. *)
Fixpoint store {A : Type} (xs : list A) (i : nat) (x : A) : outcome (list A) :=
  match xs, i with
  | [], _ => Panic
  | _ :: xs', 0 => Ret (x :: xs')
  | y :: xs', S i' => do r <- store xs' i' x; Ret (y :: r)
  end.

Definition setEndTime (t : Track) (e : float64) : Track :=
  mkTrack (StartTime t) e (MainArtist t) (MainTitle t) (MainLabel t)
    (Additional t) (OutputFilename t).

Definition setOutputFilename (t : Track) (f : string) : Track :=
  mkTrack (StartTime t) (EndTime t) (MainArtist t) (MainTitle t) (MainLabel t)
    (Additional t) f.

(** The loop of [calculateEndTimes] on the slice it updates in place, over
    the indices still to visit. *)
Fixpoint calculateEndTimes_loop (tracks : list Track) (duration : float64)
    (idxs : list nat) : outcome (list Track) :=
  match idxs with
  | [] => Ret tracks
  | i :: idxs' =>
      do tracks' <-
        (if (Z.of_nat i <? Z.of_nat (List.length tracks) - 1)%Z
         then
           do next <- index tracks (i + 1);
           do cur <- index tracks i;
           store tracks i (setEndTime cur (StartTime next))
         else
           do cur <- index tracks i;
           store tracks i (setEndTime cur duration));
      calculateEndTimes_loop tracks' duration idxs'
  end.

Definition calculateEndTimes (tracks : list Track) (duration : float64)
  : outcome (list Track) :=
  calculateEndTimes_loop tracks duration (seq 0 (List.length tracks)).

Definition getOutputExtension (audioFlag : bool) : string :=
  if audioFlag then ".mp3" else ".mp4".

(** The verb [%02d] on an index that is not negative: the decimal digits,
    padded with zeros on the left to two characters. *)
Definition format_02d (n : nat) : string :=
  let digits := NilEmpty.string_of_uint (Nat.to_uint n) in
  if (String.length digits <? 2)%nat then "0" ++ digits else digits.

(** The nine characters that [sanitizeFilename] looks for: less-than,
    greater-than, colon, double quote (byte 34), slash, backslash, bar,
    question mark and asterisk. *)
Definition forbidden : string := "<>:" ++ String "034" "/\|?*".

(** The function literal that [sanitizeFilename] maps over the runes. *)
Definition dropForbidden (r : rune) : rune :=
  if ContainsRune forbidden r then (-1)%Z else r.

Definition sanitizeFilename (name : string) : string :=
  Map dropForbidden name.

(** [fmt.Sprintf("output/%02d - %s - %s%s", n, artist, title, ext)] *)
Definition filename (n : nat) (artist title ext : string) : string :=
  "output/" ++ format_02d n ++ " - " ++ artist ++ " - " ++ title ++ ext.

Fixpoint createFilenames_loop (tracks : list Track) (ext : string)
    (idxs : list nat) : outcome (list Track) :=
  match idxs with
  | [] => Ret tracks
  | i :: idxs' =>
      do cur <- index tracks i;
      do tracks' <-
        store tracks i
          (setOutputFilename cur
             (filename (i + 1) (sanitizeFilename (MainArtist cur))
                (sanitizeFilename (MainTitle cur)) ext));
      createFilenames_loop tracks' ext idxs'
  end.

Definition createFilenames (tracks : list Track) (ext : string)
  : outcome (list Track) :=
  createFilenames_loop tracks ext (seq 0 (List.length tracks)).

(** *** Extraction job *)

Definition buildTitle (t : Track) : string :=
  fold_left (fun title add => title ++ " / " ++ Title add) (Additional t)
    (MainTitle t).

(** [fmt.Sprintf("%s - %s [%s]", add.Artist, add.Title, add.Label)] *)
Definition formatAdditional (add : AdditionalTrack) : string :=
  Artist add ++ " - " ++ Title add ++ " [" ++ Label add ++ "]".

Definition buildComment (t : Track) : string :=
  let comments :=
    fold_left (fun comments add => (comments ++ [formatAdditional add])%list)
      (Additional t) [] in
  "Additional tracks: " ++ Join comments "; ".

Definition buildMetadata (t : Track) (album : string) : list string :=
  let metadata :=
    ["-metadata"; "title=" ++ buildTitle t;
     "-metadata"; "artist=" ++ MainArtist t;
     "-metadata"; "album=" ++ album;
     "-metadata"; "date=" ++ "2025";
     "-metadata"; "comment=" ++ buildComment t] in
  if negb (String.eqb (MainLabel t) "")
  then List.app metadata ["-metadata"; "publisher=" ++ MainLabel t]
  else metadata.

Section Extraction.

(** The verb [%f] of [fmt] on a [float64]. *)
Variable format_f : float64 -> string.

(** The flag [--video] and the path [--input]. *)
Variable videoFlag : bool.
Variable inputPath : string.

(** The external tool: [exec.CommandContext(ctx, name, args...)
    .CombinedOutput()] returns nil, or an error and the tool's output. *)
Definition tool : Type := string -> list string -> option (string * string).

(** The result of a job and the external commands it launched. *)
Definition processTrack (run : tool) (t : Track) (album : string)
  : option error * list (list string) :=
  (* Validate time values *)
  if geb (StartTime t) (EndTime t)
  then (Some (ErrTimeRange (format_f (StartTime t)) (format_f (EndTime t))), [])
  else
    let args :=
      ["-v"; "warning";
       "-ss"; format_f (StartTime t);
       "-i"; inputPath;
       "-t"; format_f (sub (EndTime t) (StartTime t));
       "-max_muxing_queue_size"; "1024";
       "-threads"; "2"] in
    let args :=
      if videoFlag
      then (args ++ ["-c:v"; "libx264"; "-preset"; "veryfast"; "-crf"; "23";
                     "-vsync"; "cfr"; "-profile:v"; "baseline"; "-level"; "3.0";
                     "-tune"; "fastdecode"; "-c:a"; "aac"; "-b:a"; "192k";
                     "-ac"; "2"; "-ar"; "48000"; "-movflags"; "+faststart";
                     "-y"])%list
      else (args ++ ["-c:a"; "libmp3lame"; "-q:a"; "2"])%list in
    let args := (args ++ buildMetadata t album)%list in
    let args := (args ++ [OutputFilename t])%list in
    match run "ffmpeg" args with
    | Some (err, output) => (Some (ErrFfmpeg err output), ["ffmpeg" :: args])
    | None => (None, ["ffmpeg" :: args])
    end.

(** *** Concurrent pipeline *)

(** One goroutine per track: it waits in the [select], runs
    [processTrack] holding a slot of the semaphore, or leaves on
    cancellation without running. *)
Inductive job : Type :=
| Pending
| Running
| Succeeded
| Failed (err : error)
| Skipped.

(** [atomic.Int32.Add]: the counter wraps around at 32 bits. *)
Definition wrap32 (n : Z) : Z := ((n + 2 ^ 31) mod 2 ^ 32 - 2 ^ 31)%Z.

Record pipeline : Type := mkPipeline {
  jobs : list job;
  errCount : Z;
  bar : nat;
  launched : list (list string);
  cancelled : bool
}.

Definition isRunning (j : job) : bool :=
  match j with Running => true | _ => false end.

Definition slotsHeld (p : pipeline) : nat :=
  List.length (filter isRunning (jobs p)).

Definition setJob (p : pipeline) (i : nat) (j : job) : pipeline :=
  match store (jobs p) i j with
  | Ret js => mkPipeline js (errCount p) (bar p) (launched p) (cancelled p)
  | _ => p
  end.

Definition start (tracks : list Track) : pipeline :=
  mkPipeline (map (fun _ => Pending) tracks) 0 0 [] false.

(** The body of the first [select] case for track [t], job [i], once the
    slot is held: [processTrack], the error count, the progress bar. *)
Definition complete (run : tool) (album : string) (t : Track) (i : nat)
    (p : pipeline) : pipeline :=
  let (res, cmds) := processTrack run t album in
  match res with
  | Some err =>
      mkPipeline (jobs (setJob p i (Failed err))) (wrap32 (errCount p + 1))
        (bar p + 1) (launched p ++ cmds)%list (cancelled p)
  | None =>
      mkPipeline (jobs (setJob p i Succeeded)) (errCount p)
        (bar p + 1) (launched p ++ cmds)%list (cancelled p)
  end.

(** The interleavings of the goroutines of [processTracksConcurrently].
    A pending job may take a slot
    while fewer than [maxWorkers] are held, whether or not cancellation has
    been signalled (the [select] picks any ready case); it may leave once
    cancellation has been signalled; a running job completes with whatever
    the external tool answers; the interrupt handler cancels. *)
Inductive step (tracks : list Track) (album : string)
  : pipeline -> pipeline -> Prop :=
| step_acquire p i :
    nth_error (jobs p) i = Some Pending ->
    slotsHeld p < maxWorkers ->
    step tracks album p (setJob p i Running)
| step_skip p i :
    nth_error (jobs p) i = Some Pending ->
    cancelled p = true ->
    step tracks album p (setJob p i Skipped)
| step_complete p i t run :
    nth_error (jobs p) i = Some Running ->
    nth_error tracks i = Some t ->
    step tracks album p (complete run album t i p)
| step_cancel p :
    step tracks album p
      (mkPipeline (jobs p) (errCount p) (bar p) (launched p) true).

Inductive reachable (tracks : list Track) (album : string)
  : pipeline -> Prop :=
| reach_start : reachable tracks album (start tracks)
| reach_step p q :
    reachable tracks album p -> step tracks album p q ->
    reachable tracks album q.

Definition isFailed (j : job) : bool :=
  match j with Failed _ => true | _ => false end.

Definition isDone (j : job) : bool :=
  match j with Succeeded | Failed _ => true | _ => false end.

End Extraction.

(** Every byte of the string satisfies [p]. *)
Fixpoint forallb_string (p : ascii -> bool) (s : string) : bool :=
  match s with
  | "" => true
  | String c s' => p c && forallb_string p s'
  end.

(** The float the loop of [parseTimestamp] accumulates from the values of
    the fields, rightmost field first. *)
Fixpoint weighted (vals : list Z) (ms : list float64) (total : float64) : float64 :=
  match vals, ms with
  | v :: vals', m :: ms' => weighted vals' ms' (add total (mul (of_int v) m))
  | _, _ => total
  end.

(** The end time the resolver gives to the track at index [i], from the
    start times of the sequence. *)
Definition endOf (starts : list float64) (duration : float64) (i : nat) : float64 :=
  match nth_error starts (i + 1) with
  | Some s => s
  | None => duration
  end.

(** ** Vocabulary of the properties *)

(** [c'] differs from [c] at most on the groups [gs]. *)
Definition frame (gs : list nat) (c c' : captures) : Prop :=
  forall j, ~ In j gs -> c' j = c j.

(** What a successful run of a matcher [m] for the pattern [r] tells:
    the text splits into a part in the language of [r] and the part the
    rest of the pattern succeeded on. *)
Definition sound_for (r : regex)
    (m : string -> captures -> cont -> option captures) : Prop :=
  forall s c k res,
    m s c k = Some res ->
    exists pre s' c',
      s = pre ++ s' /\ lang r pre /\ frame (groups r) c c' /\ k s' c' = Some res.

(** What guarantees that a matcher [m] for the pattern [r] succeeds: a
    prefix in the language of [r], before a text on which the rest of the
    pattern succeeds whatever the submatches. *)
Definition complete_for (r : regex)
    (m : string -> captures -> cont -> option captures) : Prop :=
  forall pre s' c k,
    lang r pre -> (forall c', k s' c' <> None) -> m (pre ++ s') c k <> None.

(** The result list of [FindStringSubmatch] from the final submatches. *)
Definition submatches (ngroups : nat) (c : captures) : list string :=
  map (fun i => match c i with Some v => v | None => "" end) (seq 0 (S ngroups)).

(** A field that [Atoi] accepts. *)
Definition numeric (field : string) : Prop := exists v, Atoi field = inl v.

(** A line that opens a track: [lineRe] matches it and its rest does not
    end with "On Stage". *)
Definition opens_track (text : string) : bool :=
  match FindStringSubmatch lineRe 3 (TrimSpace text) with
  | Some matches => negb (HasSuffix (nth 2 matches "") "On Stage")
  | None => false
  end.

(** A track is open. *)
Definition is_open (st : parser) : bool :=
  match currentTrack st with Some _ => true | None => false end.

(** Tracks are stored only once a track has been opened. *)
Definition stored_after_open (st : parser) : Prop :=
  tracks st <> [] -> is_open st = true.

(** The file name of the track [t] at index [i]. *)
Definition fileNameOf (ext : string) (i : nat) (t : Track) : string :=
  filename (i + 1) (sanitizeFilename (MainArtist t))
    (sanitizeFilename (MainTitle t)) ext.

(** The bytes below 128, and the bytes of a text that satisfy [p]. *)
Definition isASCII (b : ascii) : bool := (byteVal b <? 128)%Z.

Fixpoint filter_string (p : ascii -> bool) (s : string) : string :=
  match s with
  | "" => ""
  | String b s' => if p b then String b (filter_string p s') else filter_string p s'
  end.

(** The first [n] bytes of [s] are not ASCII. *)
Fixpoint continuation (n : nat) (s : string) : bool :=
  match n, s with
  | S n', String b s' => negb (isASCII b) && continuation n' s'
  | _, _ => true
  end.

(** What holds of the shared state after any interleaving: one job per
    track, the error count is the number of failed jobs (modulo the
    counter's width), the progress bar the number of jobs that ran to
    their end, and every command launched writes to the file name of one
    of the tracks. *)
Definition pipeline_inv (tracks : list Track) (p : pipeline) : Prop :=
  List.length (jobs p) = List.length tracks
  /\ errCount p = wrap32 (Z.of_nat (List.length (filter isFailed (jobs p))))
  /\ bar p = List.length (filter isDone (jobs p))
  /\ Forall (fun cmd => exists t, In t tracks /\ last cmd "" = OutputFilename t)
       (launched p).

(** ** Flags, setup and [main] *)

(** The four flags, as [flag.Parse] leaves them. *)
Record flags : Type := mkFlags {
  tracklistPath : string;
  audioFlag : bool;
  videoFlag : bool;
  inputPath : string
}.

(** The errors of the setup phase of [main]. *)
Inductive setup_error : Type :=
| ErrorsNew (msg : string)      (* errors.New(msg) *)
| ErrTracklist (err : error)    (* returned by parseTracklist *)
| ErrFfprobe (err : string)     (* ffprobe error: err *)
| ErrParseFloat (num : string)  (* returned by strconv.ParseFloat *)
| ErrRemoveAll (err : string)   (* returned by os.RemoveAll *)
| ErrMkdir (err : string).      (* returned by os.Mkdir *)

Definition validateFlags (f : flags) : option setup_error :=
  if String.eqb (tracklistPath f) "" || String.eqb (inputPath f) ""
  then Some (ErrorsNew "both --tracklist and --input are required")
  else if negb (audioFlag f) && negb (videoFlag f)
  then Some (ErrorsNew "either --audio or --video must be specified")
  else if audioFlag f && videoFlag f
  then Some (ErrorsNew "cannot specify both --audio and --video")
  else None.

(** [strings.ToLower(s)]: an ASCII text is lowered byte by byte, any other
    text rune by rune with [unicode.ToLower], a table the model takes as
    the parameter [toLower]. *)
Definition isUpper (c : ascii) : bool :=
  let n := nat_of_ascii c in ((65 <=? n) && (n <=? 90))%nat.

Definition lowerByte (c : ascii) : ascii :=
  if isUpper c then ascii_of_nat (nat_of_ascii c + 32) else c.

Fixpoint existsb_string (p : ascii -> bool) (s : string) : bool :=
  match s with
  | "" => false
  | String c s' => p c || existsb_string p s'
  end.

Fixpoint mapBytes (f : ascii -> ascii) (s : string) : string :=
  match s with
  | "" => ""
  | String c s' => String (f c) (mapBytes f s')
  end.

Definition ToLower (toLower : rune -> rune) (s : string) : string :=
  if forallb_string isASCII s
  then if negb (existsb_string isUpper s) then s else mapBytes lowerByte s
  else Map toLower s.

(** What [prepareOutputDir] meets: whether [os.Stat] finds the directory,
    the word [fmt.Scanln] reads (empty when it reads none), and the errors
    of [os.RemoveAll] and [os.Mkdir], if any. *)
Record dir_world : Type := mkDirWorld {
  statOk : bool;
  response : string;
  removeAllErr : option string;
  mkdirErr : option string
}.

(** The calls [prepareOutputDir] makes, in order. *)
Inductive dir_action : Type :=
| Stat (path : string)
| Prompt (msg : string)
| Scanln
| RemoveAll (path : string)
| Mkdir (path : string) (perm : nat).

Definition prepareOutputDir (toLower : rune -> rune) (w : dir_world)
  : option setup_error * list dir_action :=
  if statOk w then
    let asked :=
      [Stat outputDir; Prompt "Output directory exists. Delete it? (y/n): ";
       Scanln] in
    if negb (String.eqb (ToLower toLower (response w)) "y")
    then (Some (ErrorsNew "user cancelled operation"), asked)
    else
      match removeAllErr w with
      | Some err => (Some (ErrRemoveAll err), (asked ++ [RemoveAll outputDir])%list)
      | None =>
          (option_map ErrMkdir (mkdirErr w),
           (asked ++ [RemoveAll outputDir; Mkdir outputDir 493])%list)
      end
  else (option_map ErrMkdir (mkdirErr w), [Stat outputDir; Mkdir outputDir 493]).

(** [getMediaDuration]: [ffprobe] is the external command, returning its
    output or an error; [parseFloat] is [strconv.ParseFloat(s, 64)]. *)
Definition getMediaDuration (ffprobe : list string -> string + string)
    (parseFloat : string -> option float64) (path : string)
  : setup_error + float64 :=
  match ffprobe ["ffprobe"; "-v"; "error"; "-show_entries"; "format=duration";
                 "-of"; "default=noprint_wrappers=1:nokey=1"; path] with
  | inr err => inl (ErrFfprobe err)
  | inl output =>
      match parseFloat (TrimSpace output) with
      | Some duration => inr duration
      | None => inl (ErrParseFloat (TrimSpace output))
      end
  end.

(** How [main] goes on after its setup: [os.Exit(1)] with the error it
    logs, a panic, or the call of [processTracksConcurrently] on the tracks,
    the extension and the album. *)
Inductive setup_result : Type :=
| Exit1 (err : setup_error)
| Crashed
| Started (tracks : list Track) (ext album : string).

(** [main] up to the call of [processTracksConcurrently], with the calls
    made on the output directory. *)
Definition main (toLower : rune -> rune)
    (parseFloat : string -> option float64)
    (openFile : string -> error + scanner)
    (ffprobe : list string -> string + string)
    (w : dir_world) (f : flags) : setup_result * list dir_action :=
  match validateFlags f with
  | Some err => (Exit1 err, [])
  | None =>
      match parseTracklist (openFile (tracklistPath f)) with
      | Fail err => (Exit1 (ErrTracklist err), [])
      | Panic => (Crashed, [])
      | Ret (tracks, album) =>
          match getMediaDuration ffprobe parseFloat (inputPath f) with
          | inl err => (Exit1 err, [])
          | inr duration =>
              match prepareOutputDir toLower w with
              | (Some err, actions) => (Exit1 err, actions)
              | (None, actions) =>
                  match calculateEndTimes tracks duration with
                  | Ret resolved =>
                      let outputExt := getOutputExtension (audioFlag f) in
                      match createFilenames resolved outputExt with
                      | Ret named => (Started named outputExt album, actions)
                      | _ => (Crashed, actions)
                      end
                  | _ => (Crashed, actions)
                  end
              end
          end
      end
  end.

(** A job that will not change any more. *)
Definition isTerminal (j : job) : bool :=
  match j with Succeeded | Failed _ | Skipped => true | _ => false end.

Definition isSkipped (j : job) : bool :=
  match j with Skipped => true | _ => false end.

Definition isPending (j : job) : bool :=
  match j with Pending => true | _ => false end.

(** [wg.Wait()] returns: every goroutine has left. *)
Definition finished (p : pipeline) : bool := forallb isTerminal (jobs p).

(** The steps the goroutines still have to take: two for a pending job
    (take a slot, then complete), one for a running job. *)
Definition weight (p : pipeline) : nat :=
  2 * List.length (filter isPending (jobs p)) + slotsHeld p.

(** A track that passes the validation of [processTrack]. *)
Definition valid_range (t : Track) : bool := negb (geb (StartTime t) (EndTime t)).

(** A job that launched the external command: it ran to its end on a
    track with a valid time range. *)
Definition has_launched (jt : job * Track) : bool :=
  isDone (fst jt) && valid_range (snd jt).

(** What holds of the pipeline at every moment: one job per track, at most
    [maxWorkers] slots held, no job skipped before cancellation, the
    progress bar at the number of jobs run to their end, one command
    launched for each of them that had a valid time range. *)
Definition scheduler_inv (tracks : list Track) (p : pipeline) : Prop :=
  List.length (jobs p) = List.length tracks
  /\ slotsHeld p <= maxWorkers
  /\ (cancelled p = false -> List.length (filter isSkipped (jobs p)) = 0)
  /\ bar p = List.length (filter isDone (jobs p))
  /\ List.length (launched p)
     = List.length (filter has_launched (combine (jobs p) tracks)).

(** A line that [lineRe] matches. *)
Definition is_track_line (text : string) : bool :=
  match FindStringSubmatch lineRe 3 (TrimSpace text) with
  | Some _ => true
  | None => false
  end.

(** The lines from the first one that opens a track on. *)
Fixpoint from_first_open (lines : list string) : list string :=
  match lines with
  | [] => []
  | text :: lines' => if opens_track text then lines else from_first_open lines'
  end.

(** A white-space character right before an opening bracket. *)
Fixpoint no_space_bracket (s : string) : bool :=
  match s with
  | String a ((String b _) as s') =>
      negb (space a && Ascii.eqb b "[") && no_space_bracket s'
  | _ => true
  end.

(** What the parser leaves in a track: the derived fields unset, an
    artist without the separator, artist and title that do not read as a
    stage announcement, additional tracks whose artists hold no separator. *)
Definition as_parsed (t : Track) : Prop :=
  EndTime t = zero
  /\ OutputFilename t = ""
  /\ Cut (MainArtist t) " - " = None
  /\ HasSuffix (MainArtist t ++ " - " ++ MainTitle t) "On Stage" = false
  /\ Forall (fun add => Cut (Artist add) " - " = None) (Additional t).

(** The stored tracks and the open track are as the parser leaves them. *)
Definition all_as_parsed (st : parser) : Prop :=
  Forall as_parsed (tracks st)
  /\ forall t, currentTrack st = Some t -> as_parsed t.

(** A timestamp as the tracklists write it: two or three fields of one
    to 18 digits each, with colons between them. *)
Definition timestamp_field (field : string) : Prop :=
  field <> "" /\ forallb_string digit field = true /\ String.length field <= 18.

Definition timestamp_text (ts : string) : Prop :=
  (exists m s, ts = m ++ ":" ++ s /\ timestamp_field m /\ timestamp_field s)
  \/ (exists h m s,
        ts = h ++ ":" ++ m ++ ":" ++ s
        /\ timestamp_field h /\ timestamp_field m /\ timestamp_field s).

(** The label as a line carries it: nothing for the empty label. *)
Definition label_suffix (label : string) : string :=
  match label with
  | "" => ""
  | _ => " [" ++ label ++ "]"
  end.

(** The last step of a match: the whole match becomes submatch 0. *)
Definition finish (whole : string) : cont :=
  fun s' c' =>
    Some (set_capture 0 (take (String.length whole - String.length s') whole) c').

(** An entry of a tracklist as the README writes it: a track-start line
    [[timestamp] Artist - Title [Label]] and the lines
    [w/ Artist - Title [Label]] of the tracks mixed with it. *)
Record entry : Type := mkEntry {
  stamp : string;
  entryMain : AdditionalTrack;
  entryWith : list AdditionalTrack
}.

Definition line_body (a : AdditionalTrack) : string :=
  Artist a ++ " - " ++ Title a ++ label_suffix (Label a).

Definition track_text (e : entry) : string :=
  "[" ++ stamp e ++ "] " ++ line_body (entryMain e).

Definition with_text (a : AdditionalTrack) : string := "w/ " ++ line_body a.

Definition entry_lines (e : entry) : list string :=
  track_text e :: map with_text (entryWith e).

(** Artist, title and label that a line gives back as written: no line
    feed, no white space right before an opening bracket in artist and
    title, no separator in the artist followed by a space and a dash. *)
Definition printable (a : AdditionalTrack) : Prop :=
  forallb_string dot (Artist a ++ " - " ++ Title a) = true
  /\ no_space_bracket (Artist a ++ " - " ++ Title a) = true
  /\ Cut (Artist a ++ " -") " - " = None
  /\ forallb_string dot (Label a) = true.

Definition well_formed (e : entry) : Prop :=
  timestamp_text (stamp e)
  /\ printable (entryMain e)
  /\ HasSuffix (Artist (entryMain e) ++ " - " ++ Title (entryMain e)) "On Stage"
     = false
  /\ Forall printable (entryWith e).

(** The track an entry stands for, given the start time of its timestamp. *)
Definition track_of (es : entry * float64) : Track :=
  mkTrack (snd es) zero (Artist (entryMain (fst es))) (Title (entryMain (fst es)))
    (Label (entryMain (fst es))) (entryWith (fst es)) "".

(** * Properties *)

Unset Implicit Arguments.

(** ** Slices *)

Section StoreFacts.

Context {A : Type}.

Lemma store_ok (xs : list A) (i : nat) (x : A) :
  i < List.length xs -> exists xs', store xs i x = Ret xs'.
Proof.
  revert i; induction xs as [|y xs IH]; intros i Hi; simpl in *; [lia|].
  destruct i as [|i]; [eauto|].
  destruct (IH i) as [xs' E]; [lia|]. rewrite E. simpl. eauto.
Qed.

Lemma store_length (xs xs' : list A) (i : nat) (x : A) :
  store xs i x = Ret xs' -> List.length xs' = List.length xs.
Proof.
  revert i xs'; induction xs as [|y xs IH]; intros i xs' E; simpl in *;
    [discriminate|].
  destruct i as [|i].
  - inversion E; reflexivity.
  - destruct (store xs i x) as [r| |] eqn:Er; simpl in E; try discriminate.
    inversion E; subst; simpl. f_equal. eapply IH; eauto.
Qed.

Lemma store_nth (xs xs' : list A) (i j : nat) (x : A) :
  store xs i x = Ret xs' ->
  nth_error xs' j = if Nat.eqb j i then Some x else nth_error xs j.
Proof.
  revert i j xs'; induction xs as [|y xs IH]; intros i j xs' E; simpl in *;
    [discriminate|].
  destruct i as [|i].
  - inversion E; subst. destruct j; reflexivity.
  - destruct (store xs i x) as [r| |] eqn:Er; simpl in E; try discriminate.
    inversion E; subst. destruct j as [|j]; simpl; [reflexivity|].
    apply IH; assumption.
Qed.

Lemma index_nth (xs : list A) (i : nat) (x : A) :
  nth_error xs i = Some x -> index xs i = Ret x.
Proof. unfold index; intros ->; reflexivity. Qed.

Lemma index_ok (xs : list A) (i : nat) :
  i < List.length xs -> exists x, nth_error xs i = Some x /\ index xs i = Ret x.
Proof.
  intros Hi. destruct (nth_error xs i) as [x|] eqn:E.
  - exists x; split; [reflexivity|apply index_nth; assumption].
  - apply nth_error_None in E; lia.
Qed.

End StoreFacts.

Lemma store_map {A B : Type} (f : A -> B) (xs xs' : list A) (i : nat) (x y : A) :
  nth_error xs i = Some y -> f x = f y ->
  store xs i x = Ret xs' -> map f xs' = map f xs.
Proof.
  revert i xs'; induction xs as [|z xs IH]; intros i xs' Hy Hf E; simpl in *;
    [discriminate|].
  destruct i as [|i]; simpl in *.
  - inversion Hy; inversion E; subst; simpl; congruence.
  - destruct (store xs i x) as [r| |] eqn:Er; simpl in E; try discriminate.
    inversion E; subst; simpl. f_equal. eapply IH; eauto.
Qed.

(** ** Timeline resolver *)

Lemma calculateEndTimes_loop_spec (duration : float64) (idxs : list nat) :
  forall cur : list Track,
    Forall (fun i => i < List.length cur) idxs ->
    exists res,
      calculateEndTimes_loop cur duration idxs = Ret res
      /\ List.length res = List.length cur
      /\ forall j t, nth_error cur j = Some t ->
           nth_error res j
           = Some (if existsb (Nat.eqb j) idxs
                   then setEndTime t (endOf (map StartTime cur) duration j)
                   else t).
Proof.
  induction idxs as [|i idxs IH]; intros cur Hall.
  - exists cur; simpl; auto.
  - inversion Hall as [|? ? Hi Hrest]; subst.
    destruct (index_ok cur i Hi) as [ti [Eti Iti]].
    set (t1 := setEndTime ti (endOf (map StartTime cur) duration i)).
    assert (Estep :
      (if (Z.of_nat i <? Z.of_nat (List.length cur) - 1)%Z
       then do next <- index cur (i + 1);
            do c <- index cur i;
            store cur i (setEndTime c (StartTime next))
       else do c <- index cur i; store cur i (setEndTime c duration))
      = store cur i t1).
    { unfold t1, endOf. rewrite nth_error_map.
      destruct (Z.of_nat i <? Z.of_nat (List.length cur) - 1)%Z eqn:Elt.
      - apply Z.ltb_lt in Elt.
        destruct (index_ok cur (i + 1)) as [tn [Etn Itn]]; [lia|].
        rewrite Itn, Iti, Etn; reflexivity.
      - apply Z.ltb_ge in Elt.
        assert (Enone : nth_error cur (i + 1) = None)
          by (apply nth_error_None; lia).
        rewrite Iti, Enone; reflexivity. }
    destruct (store_ok cur i t1 Hi) as [cur1 Ecur1].
    assert (Hlen1 : List.length cur1 = List.length cur)
      by (apply (store_length cur cur1 i t1 Ecur1)).
    assert (Hstarts : map StartTime cur1 = map StartTime cur)
      by (apply (store_map StartTime cur cur1 i t1 ti Eti eq_refl Ecur1)).
    destruct (IH cur1) as [res [Eres [Hlen Hnth]]].
    { rewrite Hlen1; assumption. }
    exists res. split; [|split].
    + cbn [calculateEndTimes_loop]. rewrite Estep, Ecur1. exact Eres.
    + congruence.
    + intros j t Ej.
      pose proof (store_nth _ _ _ j _ Ecur1) as E1.
      cbn [existsb]. destruct (Nat.eqb j i) eqn:Eji.
      * apply Nat.eqb_eq in Eji; subst j.
        rewrite (Hnth i t1 E1), Hstarts.
        assert (t = ti) by congruence; subst t.
        destruct (existsb (Nat.eqb i) idxs); reflexivity.
      * rewrite Ej in E1. rewrite (Hnth j t E1), Hstarts. reflexivity.
Qed.

Lemma existsb_seq (j n : nat) : j < n -> existsb (Nat.eqb j) (seq 0 n) = true.
Proof.
  intros Hj. apply existsb_exists. exists j; split.
  - apply in_seq; lia.
  - apply Nat.eqb_refl.
Qed.

Lemma calculateEndTimes_spec (tracks : list Track) (duration : float64) :
  exists res,
    calculateEndTimes tracks duration = Ret res
    /\ List.length res = List.length tracks
    /\ forall j t, nth_error tracks j = Some t ->
         nth_error res j
         = Some (setEndTime t (endOf (map StartTime tracks) duration j)).
Proof.
  destruct (calculateEndTimes_loop_spec duration
              (seq 0 (List.length tracks)) tracks) as [res [E [Hlen Hnth]]].
  { apply Forall_forall; intros i Hi; apply in_seq in Hi; lia. }
  exists res; split; [exact E|split; [exact Hlen|]].
  intros j t Ej. rewrite (Hnth j t Ej), existsb_seq; [reflexivity|].
  apply nth_error_Some; congruence.
Qed.

(** C5: end-time resolution of a non-empty track sequence returns the
    sequence with only the end times changed: every track but the last
    ends where the next one starts, and the last one ends at the total
    duration; start times 0, 30, 90 with duration 120 give the end times
    30, 90, 120. *)
Theorem calculateEndTimes_resolves (tracks : list Track) (duration : float64) :
  tracks <> [] ->
  exists res,
    calculateEndTimes tracks duration = Ret res
    /\ List.length res = List.length tracks
    /\ (forall i t, nth_error tracks i = Some t ->
          exists t', nth_error res i = Some t' /\ t' = setEndTime t (EndTime t'))
    /\ (forall i t next,
          i + 1 < List.length res ->
          nth_error res i = Some t -> nth_error res (i + 1) = Some next ->
          EndTime t = StartTime next)
    /\ (forall t,
          nth_error res (List.length res - 1) = Some t -> EndTime t = duration)
    /\ (do res3 <- calculateEndTimes
                      [mkTrack (of_int 0) zero "a" "b" "" [] "";
                       mkTrack (of_int 30) zero "c" "d" "" [] "";
                       mkTrack (of_int 90) zero "e" "f" "" [] ""] (of_int 120);
        Ret (map EndTime res3))
       = Ret [of_int 30; of_int 90; of_int 120].
Proof.
  intros Hne.
  destruct (calculateEndTimes_spec tracks duration) as [res [E [Hlen Hnth]]].
  exists res. split; [exact E|]. split; [exact Hlen|].
  assert (Hget : forall i t, nth_error res i = Some t ->
            exists t0, nth_error tracks i = Some t0
                       /\ t = setEndTime t0 (endOf (map StartTime tracks) duration i)).
  { intros i t Ei.
    destruct (nth_error tracks i) as [t0|] eqn:E0.
    - exists t0; split; [reflexivity|]. rewrite (Hnth i t0 E0) in Ei. congruence.
    - apply nth_error_None in E0.
      assert (nth_error res i <> None) by congruence.
      apply nth_error_Some in H. lia. }
  split; [|split; [|split]].
  - intros i t Ei. eexists; split; [apply Hnth; exact Ei|reflexivity].
  - intros i t next Hi Ei En.
    destruct (Hget i t Ei) as [t0 [E0 ->]].
    destruct (Hget (i + 1) next En) as [n0 [En0 ->]].
    simpl. unfold endOf. rewrite nth_error_map, En0. reflexivity.
  - intros t Et.
    destruct (Hget _ t Et) as [t0 [E0 ->]].
    simpl. unfold endOf. rewrite nth_error_map.
    assert (Enone : nth_error tracks (List.length res - 1 + 1) = None).
    { apply nth_error_None. destruct tracks; [congruence|]. simpl in *. lia. }
    rewrite Enone. reflexivity.
  - vm_compute. reflexivity.
Qed.

Lemma calculateEndTimes_resolves_witness :
  exists res,
    calculateEndTimes [mkTrack (of_int 0) zero "a" "b" "" [] "";
                       mkTrack (of_int 30) zero "c" "d" "" [] ""] (of_int 60)
    = Ret res
    /\ map EndTime res = [of_int 30; of_int 60].
Proof.
  destruct (calculateEndTimes_resolves
              [mkTrack (of_int 0) zero "a" "b" "" [] "";
               mkTrack (of_int 30) zero "c" "d" "" [] ""] (of_int 60))
    as [res [E _]]; [discriminate|].
  exists res; split; [exact E|].
  vm_compute in E. inversion E. vm_compute. reflexivity.
Defined.

(** ** Timestamps *)

Lemma parseTimestamp_loop_fields (parts : list string) (vals : list Z) :
  List.length vals <= 3 ->
  Forall2 (fun p v => Atoi p = inl v) parts vals ->
  parseTimestamp_loop parts (seq 0 (List.length parts)) zero
  = Ret (weighted (List.rev vals) multipliers zero).
Proof.
  intros Hlen Hall.
  destruct Hall as [|p1 v1 ps1 vs1 H1 Hall]; [reflexivity|].
  destruct Hall as [|p2 v2 ps2 vs2 H2 Hall];
    [cbn; rewrite H1; reflexivity|].
  destruct Hall as [|p3 v3 ps3 vs3 H3 Hall];
    [cbn; rewrite H2; cbn; rewrite H1; reflexivity|].
  destruct Hall as [|p4 v4 ps4 vs4 H4 Hall];
    [cbn; rewrite H3; cbn; rewrite H2; cbn; rewrite H1; reflexivity|].
  simpl in Hlen; lia.
Qed.

Lemma parseTimestamp_fields_sum (ts : string) (vals : list Z) :
  List.length vals <= 3 ->
  Forall2 (fun field v => Atoi field = inl v) (Split ts ":") vals ->
  parseTimestamp ts = Ret (weighted (List.rev vals) multipliers zero).
Proof.
  intros Hlen Hall. unfold parseTimestamp.
  apply parseTimestamp_loop_fields; assumption.
Qed.

(** C6: the conversion is the weighted sum of the colon-separated fields,
    the rightmost field times 1, the next times 60, the next times 3600, in
    [float64] arithmetic; 1:02:03 gives 3723, 02:03 gives 123 and x:03
    gives an error. *)
Theorem parseTimestamp_weighted_sum :
  parseTimestamp "1:02:03" = Ret (of_int 3723)
  /\ parseTimestamp "02:03" = Ret (of_int 123)
  /\ parseTimestamp "x:03" = Fail (ErrSyntax "x")
  /\ multipliers = [of_int 1; of_int 60; of_int 3600]
  /\ forall (ts : string) (vals : list Z),
       List.length vals <= 3 ->
       Forall2 (fun field v => Atoi field = inl v) (Split ts ":") vals ->
       parseTimestamp ts = Ret (weighted (List.rev vals) multipliers zero).
Proof.
  split; [vm_compute; reflexivity|].
  split; [vm_compute; reflexivity|].
  split; [vm_compute; reflexivity|].
  split; [reflexivity|].
  exact parseTimestamp_fields_sum.
Qed.

Lemma parseTimestamp_weighted_sum_witness :
  parseTimestamp "0:01:30"
  = Ret (add (add (add zero (mul (of_int 30) (of_int 1)))
                  (mul (of_int 1) (of_int 60)))
             (mul (of_int 0) (of_int 3600))).
Proof.
  apply (proj2 (proj2 (proj2 (proj2 parseTimestamp_weighted_sum)))
           "0:01:30" [0; 1; 30]%Z).
  - simpl; lia.
  - vm_compute. repeat constructor.
Defined.

(** ** Byte strings *)

Lemma append_nil_r (s : string) : s ++ "" = s.
Proof. induction s; simpl; congruence. Qed.

Lemma append_assoc (s1 s2 s3 : string) : (s1 ++ s2) ++ s3 = s1 ++ s2 ++ s3.
Proof. induction s1; simpl; congruence. Qed.

Lemma length_append (s1 s2 : string) :
  String.length (s1 ++ s2) = String.length s1 + String.length s2.
Proof. induction s1; simpl; congruence. Qed.


(** ** Extraction job: metadata *)




(** ** [float64] comparisons *)

Lemma SFcompare_antisym (x y : float64) :
  SFcompare y x = option_map CompOpp (SFcompare x y).
Proof.
  destruct x as [sx|sx| |sx mx ex], y as [sy|sy| |sy my ey];
    try reflexivity;
    try (destruct sx; reflexivity); try (destruct sy; reflexivity);
    try (destruct sx, sy; reflexivity).
  destruct sx, sy; simpl; try reflexivity.
  - rewrite (Z.compare_antisym ey ex).
    destruct (Z.compare ey ex); simpl; try reflexivity.
    f_equal.
    exact (f_equal CompOpp (eq_sym (Pos.compare_cont_antisym mx my Eq))).
  - rewrite (Z.compare_antisym ey ex).
    destruct (Z.compare ey ex); simpl; try reflexivity.
    f_equal. exact (eq_sym (Pos.compare_cont_antisym mx my Eq)).
Qed.

Lemma geb_leb (x y : float64) : geb x y = leb y x.
Proof.
  unfold geb, leb, SFleb. rewrite (SFcompare_antisym x y).
  destruct (SFcompare x y) as [[ | | ]|]; reflexivity.
Qed.

(** ** Extraction job and pipeline *)

Section ExtractionFacts.

Variable format_f : float64 -> string.
Variable videoFlag : bool.
Variable inputPath : string.

Let processTrack' := processTrack format_f videoFlag inputPath.
Let complete' := complete format_f videoFlag inputPath.

Lemma processTrack_bad_range (run : tool) (t : Track) (album : string) :
  leb (EndTime t) (StartTime t) = true ->
  processTrack' run t album
  = (Some (ErrTimeRange (format_f (StartTime t)) (format_f (EndTime t))), []).
Proof.
  intros H. unfold processTrack', processTrack.
  rewrite geb_leb, H. reflexivity.
Qed.

Lemma complete_counts (run : tool) (album : string) (t : Track) (i : nat)
    (p : pipeline) :
  errCount (complete' run album t i p)
  = match fst (processTrack' run t album) with
    | Some _ => wrap32 (errCount p + 1)
    | None => errCount p
    end
  /\ bar (complete' run album t i p) = bar p + 1
  /\ launched (complete' run album t i p)
     = (launched p ++ snd (processTrack' run t album))%list
  /\ cancelled (complete' run album t i p) = cancelled p
  /\ jobs (complete' run album t i p)
     = jobs (setJob p i (match fst (processTrack' run t album) with
                         | Some err => Failed err
                         | None => Succeeded
                         end)).
Proof.
  unfold complete', complete, processTrack'.
  destruct (processTrack format_f videoFlag inputPath run t album)
    as [[err|] cmds]; simpl; auto.
Qed.

(** A command is launched only for a valid time range, and it writes to
    the file name the track carries. *)
Lemma processTrack_launches (run : tool) (t : Track) (album : string) :
  geb (StartTime t) (EndTime t) = false ->
  exists args,
    snd (processTrack' run t album) = ["ffmpeg" :: args]
    /\ last ("ffmpeg" :: args) "" = OutputFilename t.
Proof.
  intros H. unfold processTrack', processTrack. rewrite H.
  match goal with
  | |- context [run "ffmpeg" ?a] => exists a; destruct (run "ffmpeg" a) as [[e o]|]
  end; (split; [reflexivity|rewrite app_comm_cons; apply last_last]).
Qed.

End ExtractionFacts.

(** C8: a track whose end time is not after its start time is rejected by
    [processTrack] with a time-range error and without any external
    command; completing its job adds one to the error count and one to the
    progress bar and launches nothing, and any job that ends with an error,
    such as a failed invocation, adds the same one to the error count. *)
Theorem time_range_rejected (format_f : float64 -> string) (videoFlag : bool)
    (inputPath : string) (run : tool) (album : string) (t : Track) :
  leb (EndTime t) (StartTime t) = true ->
  processTrack format_f videoFlag inputPath run t album
  = (Some (ErrTimeRange (format_f (StartTime t)) (format_f (EndTime t))), [])
  /\ (forall (i : nat) (p : pipeline),
        let q := complete format_f videoFlag inputPath run album t i p in
        errCount q = wrap32 (errCount p + 1)
        /\ bar q = bar p + 1
        /\ launched q = launched p
        /\ jobs q
           = jobs (setJob p i
                     (Failed (ErrTimeRange (format_f (StartTime t))
                                (format_f (EndTime t))))))
  /\ (forall (run' : tool) (t' : Track) (err : error) (cmds : list (list string))
             (i : nat) (p : pipeline),
        processTrack format_f videoFlag inputPath run' t' album = (Some err, cmds) ->
        errCount (complete format_f videoFlag inputPath run' album t' i p)
        = wrap32 (errCount p + 1)).
Proof.
  intros H.
  pose proof (processTrack_bad_range format_f videoFlag inputPath run t album H)
    as E.
  split; [exact E|]. split.
  - intros i p q.
    destruct (complete_counts format_f videoFlag inputPath run album t i p)
      as [Hc [Hb [Hl [_ Hj]]]].
    fold q in Hc, Hb, Hl, Hj. rewrite E in Hc, Hl, Hj. simpl in Hc, Hl, Hj.
    rewrite app_nil_r in Hl. auto.
  - intros run' t' err cmds i p E'.
    destruct (complete_counts format_f videoFlag inputPath run' album t' i p)
      as [Hc _].
    rewrite E' in Hc. exact Hc.
Qed.

Lemma time_range_rejected_witness :
  processTrack (fun _ => "30.000000") false "in.mp4" (fun _ _ => None)
    (mkTrack (of_int 30) (of_int 30) "A" "B" "" [] "output/02 - A - B.mp3")
    "Album"
  = (Some (ErrTimeRange "30.000000" "30.000000"), []).
Proof.
  apply (time_range_rejected (fun _ => "30.000000") false "in.mp4"
           (fun _ _ => None) "Album"
           (mkTrack (of_int 30) (of_int 30) "A" "B" "" [] "output/02 - A - B.mp3")).
  vm_compute. reflexivity.
Defined.

Lemma filter_store {A : Type} (f : A -> bool) (xs xs' : list A) (i : nat) (x y : A) :
  store xs i x = Ret xs' -> nth_error xs i = Some y ->
  List.length (filter f xs') + Nat.b2n (f y)
  = List.length (filter f xs) + Nat.b2n (f x).
Proof.
  revert i xs'; induction xs as [|z xs IH]; intros i xs' E Hy; simpl in *;
    [discriminate|].
  destruct i as [|i]; simpl in *.
  - inversion E; inversion Hy; subst; simpl.
    destruct (f x), (f y); simpl; lia.
  - destruct (store xs i x) as [r| |] eqn:Er; simpl in E; try discriminate.
    inversion E; subst; simpl.
    specialize (IH i r Er Hy).
    destruct (f z); simpl; lia.
Qed.

Lemma wrap32_succ (a : Z) : wrap32 (wrap32 a + 1) = wrap32 (a + 1).
Proof.
  unfold wrap32.
  replace ((a + 2 ^ 31) mod 2 ^ 32 - 2 ^ 31 + 1 + 2 ^ 31)%Z
    with ((a + 2 ^ 31) mod 2 ^ 32 + 1)%Z by lia.
  rewrite Zplus_mod_idemp_l.
  replace (a + 2 ^ 31 + 1)%Z with (a + 1 + 2 ^ 31)%Z by lia.
  reflexivity.
Qed.

Lemma setJob_jobs (p : pipeline) (i : nat) (j old : job) :
  nth_error (jobs p) i = Some old ->
  exists js, store (jobs p) i j = Ret js /\ jobs (setJob p i j) = js
             /\ errCount (setJob p i j) = errCount p
             /\ bar (setJob p i j) = bar p
             /\ launched (setJob p i j) = launched p.
Proof.
  intros H.
  destruct (store_ok (jobs p) i j) as [js E].
  { apply nth_error_Some; congruence. }
  exists js. unfold setJob. rewrite E. simpl. auto.
Qed.

Section PipelineFacts.

Variable format_f : float64 -> string.
Variable videoFlag : bool.
Variable inputPath : string.
Variable tracks : list Track.
Variable album : string.

Lemma pipeline_inv_start : pipeline_inv tracks (start tracks).
Proof.
  unfold pipeline_inv, start; simpl. split; [apply length_map|].
  assert (F : forall (f : job -> bool), f Pending = false ->
            filter f (map (fun _ : Track => Pending) tracks) = []).
  { intros f Hf. induction tracks as [|t ts IH]; simpl; [reflexivity|].
    rewrite Hf. exact IH. }
  rewrite !F by reflexivity. simpl. auto.
Qed.

Lemma pipeline_inv_setJob (p : pipeline) (i : nat) (old new : job) :
  pipeline_inv tracks p ->
  nth_error (jobs p) i = Some old ->
  List.length (jobs (setJob p i new)) = List.length tracks
  /\ List.length (filter isFailed (jobs (setJob p i new))) + Nat.b2n (isFailed old)
     = List.length (filter isFailed (jobs p)) + Nat.b2n (isFailed new)
  /\ List.length (filter isDone (jobs (setJob p i new))) + Nat.b2n (isDone old)
     = List.length (filter isDone (jobs p)) + Nat.b2n (isDone new).
Proof.
  intros [Hlen _] Hi.
  destruct (setJob_jobs p i new old Hi) as [js [E [Ej _]]].
  rewrite Ej, (store_length _ _ _ _ E).
  split; [assumption|].
  split; apply (filter_store _ _ _ _ _ _ E Hi).
Qed.

Lemma pipeline_inv_step (p q : pipeline) :
  pipeline_inv tracks p ->
  step format_f videoFlag inputPath tracks album p q ->
  pipeline_inv tracks q.
Proof.
  intros Hinv Hstep.
  pose proof Hinv as [Hlen [Herr [Hbar Hcmd]]].
  destruct Hstep as [p i Hi Hslots|p i Hi Hc|p i t run Hi Ht|p].
  - destruct (pipeline_inv_setJob p i Pending Running Hinv Hi) as [L [F1 F2]].
    destruct (setJob_jobs p i Running Pending Hi) as [js [_ [_ [Ee [Eb El]]]]].
    unfold pipeline_inv. rewrite Ee, Eb, El. simpl in F1, F2.
    split; [assumption|]. split; [rewrite Herr; f_equal; lia|].
    split; [lia|assumption].
  - destruct (pipeline_inv_setJob p i Pending Skipped Hinv Hi) as [L [F1 F2]].
    destruct (setJob_jobs p i Skipped Pending Hi) as [js [_ [_ [Ee [Eb El]]]]].
    unfold pipeline_inv. rewrite Ee, Eb, El. simpl in F1, F2.
    split; [assumption|]. split; [rewrite Herr; f_equal; lia|].
    split; [lia|assumption].
  - destruct (complete_counts format_f videoFlag inputPath run album t i p)
      as [Hc [Hb [Hl [_ Hj]]]].
    unfold pipeline_inv. rewrite Hc, Hb, Hl, Hj. clear Hc Hb Hl Hj.
    assert (Hcmds : Forall (fun cmd => exists t0, In t0 tracks
                                        /\ last cmd "" = OutputFilename t0)
                      (snd (processTrack format_f videoFlag inputPath run t album))).
    { destruct (geb (StartTime t) (EndTime t)) eqn:G.
      - unfold processTrack. rewrite G. constructor.
      - destruct (processTrack_launches format_f videoFlag inputPath run t album G)
          as [args [-> Hlast]].
        repeat constructor. exists t. split.
        + eapply nth_error_In; eauto.
        + exact Hlast. }
    destruct (fst (processTrack format_f videoFlag inputPath run t album))
      as [err|].
    + destruct (pipeline_inv_setJob p i Running (Failed err) Hinv Hi)
        as [L [F1 F2]].
      simpl in F1, F2.
      split; [assumption|]. split.
      * rewrite Herr, wrap32_succ. f_equal. lia.
      * split; [lia|]. apply Forall_app; auto.
    + destruct (pipeline_inv_setJob p i Running Succeeded Hinv Hi)
        as [L [F1 F2]].
      simpl in F1, F2.
      split; [assumption|]. split; [rewrite Herr; f_equal; lia|].
      split; [lia|]. apply Forall_app; auto.
  - unfold pipeline_inv; simpl; auto.
Qed.

Lemma reachable_inv (p : pipeline) :
  reachable format_f videoFlag inputPath tracks album p -> pipeline_inv tracks p.
Proof.
  induction 1 as [|p q _ IH Hstep].
  - apply pipeline_inv_start.
  - eapply pipeline_inv_step; eauto.
Qed.

End PipelineFacts.

(** ** The matcher *)

Lemma take_append (pre s : string) :
  take (String.length (pre ++ s) - String.length s) (pre ++ s) = pre.
Proof.
  rewrite length_append.
  replace (String.length pre + String.length s - String.length s)
    with (String.length pre) by lia.
  induction pre as [|a pre IH]; simpl.
  - destruct s; reflexivity.
  - rewrite IH; reflexivity.
Qed.

Lemma frame_refl (gs : list nat) (c : captures) : frame gs c c.
Proof. intros j _; reflexivity. Qed.

Lemma frame_trans (gs : list nat) (c1 c2 c3 : captures) :
  frame gs c1 c2 -> frame gs c2 c3 -> frame gs c1 c3.
Proof. intros H12 H23 j Hj. rewrite (H23 j Hj). apply H12; assumption. Qed.

Lemma frame_weaken (gs gs' : list nat) (c c' : captures) :
  incl gs gs' -> frame gs c c' -> frame gs' c c'.
Proof. intros Hincl H j Hj. apply H. intros Hin. apply Hj, Hincl, Hin. Qed.

Lemma star_loop_sound (r : regex) (g : bool)
    (m : string -> captures -> cont -> option captures) :
  sound_for r m ->
  forall fuel, sound_for (Star g r) (fun s c k => star_loop m g k fuel s c).
Proof.
  intros Hm fuel. unfold sound_for.
  induction fuel as [|fuel IH]; intros s c k res H; simpl in H.
  - exists "", s, c. repeat split; auto using lang_Star_nil, frame_refl.
  - assert (Hagain :
      m s c (fun s' c' =>
               if (String.length s' <? String.length s)%nat
               then star_loop m g k fuel s' c' else None) = Some res ->
      exists pre s' c',
        s = pre ++ s' /\ lang (Star g r) pre /\ frame (groups (Star g r)) c c'
        /\ k s' c' = Some res).
    { intros Ha. apply Hm in Ha.
      destruct Ha as [pre1 [s1 [c1 [Es [L1 [F1 K1]]]]]].
      destruct (String.length s1 <? String.length s)%nat eqn:Hlt;
        [|discriminate].
      apply Nat.ltb_lt in Hlt.
      apply IH in K1. destruct K1 as [pre2 [s2 [c2 [Es1 [L2 [F2 K2]]]]]].
      exists (pre1 ++ pre2), s2, c2. split; [|split; [|split]].
      - rewrite append_assoc. congruence.
      - apply lang_Star_cons; auto.
        intros ->. subst s. simpl in Hlt. lia.
      - eapply frame_trans; eauto.
      - exact K2. }
    assert (Hstop : k s c = Some res ->
      exists pre s' c',
        s = pre ++ s' /\ lang (Star g r) pre /\ frame (groups (Star g r)) c c'
        /\ k s' c' = Some res).
    { intros Hk. exists "", s, c.
      repeat split; auto using lang_Star_nil, frame_refl. }
    destruct g.
    + match type of H with
      | match ?again with _ => _ end = _ => destruct again as [res'|] eqn:Ea
      end.
      * apply Hagain. congruence.
      * apply Hstop. exact H.
    + destruct (k s c) as [res'|] eqn:Ek.
      * apply Hstop. congruence.
      * apply Hagain. exact H.
Qed.

Lemma rmatch_sound (total : nat) (r : regex) : sound_for r (rmatch total r).
Proof.
  induction r as [|p|r1 IH1 r2 IH2|r1 IH1 r2 IH2|g r1 IH1|i r1 IH1| |];
    intros s c k res H; simpl in H.
  - exists "", s, c. repeat split; auto using lang_Eps, frame_refl.
  - destruct s as [|a s']; [discriminate|].
    destruct (p a) eqn:Hp; [|discriminate].
    exists (String a ""), s', c.
    repeat split; auto using lang_Chr, frame_refl.
  - apply IH1 in H. destruct H as [pre1 [s1 [c1 [Es [L1 [F1 K1]]]]]].
    apply IH2 in K1. destruct K1 as [pre2 [s2 [c2 [Es1 [L2 [F2 K2]]]]]].
    exists (pre1 ++ pre2), s2, c2. split; [|split; [|split]].
    + rewrite append_assoc. congruence.
    + apply lang_Cat; assumption.
    + simpl. eapply frame_trans.
      * eapply frame_weaken; [|exact F1]. apply incl_appl, incl_refl.
      * eapply frame_weaken; [|exact F2]. apply incl_appr, incl_refl.
    + exact K2.
  - destruct (rmatch total r1 s c k) as [res'|] eqn:E1.
    + inversion H; subst res'. apply IH1 in E1.
      destruct E1 as [pre [s' [c' [Es [L [F K]]]]]].
      exists pre, s', c'. repeat split; auto using lang_Alt_l.
      eapply frame_weaken; [|exact F]. simpl. apply incl_appl, incl_refl.
    + apply IH2 in H. destruct H as [pre [s' [c' [Es [L [F K]]]]]].
      exists pre, s', c'. repeat split; auto using lang_Alt_r.
      eapply frame_weaken; [|exact F]. simpl. apply incl_appr, incl_refl.
  - exact (star_loop_sound r1 g (rmatch total r1) IH1 _ s c k res H).
  - apply IH1 in H. destruct H as [pre [s' [c' [Es [L [F K]]]]]].
    subst s. rewrite take_append in K.
    exists pre, s', (set_capture i pre c'). repeat split; auto using lang_Group.
    intros j Hj. unfold set_capture.
    destruct (Nat.eqb j i) eqn:Eji.
    + apply Nat.eqb_eq in Eji. subst j. exfalso. apply Hj. simpl; auto.
    + apply F. intros Hin. apply Hj. simpl; auto.
  - destruct (String.length s =? total)%nat; [|discriminate].
    exists "", s, c. repeat split; auto using lang_Bol, frame_refl.
  - destruct s; [|discriminate].
    exists "", "", c. repeat split; auto using lang_Eol, frame_refl.
Qed.

(** A capturing group records the text its body consumed. *)
Lemma rmatch_Group (total i : nat) (r : regex) (s : string) (c : captures)
    (k : cont) (res : captures) :
  rmatch total (Group i r) s c k = Some res ->
  exists pre s' c',
    s = pre ++ s' /\ lang r pre /\ frame (groups r) c c'
    /\ k s' (set_capture i pre c') = Some res.
Proof.
  simpl. intros H. apply rmatch_sound in H.
  destruct H as [pre [s' [c' [Es [L [F K]]]]]].
  subst s. rewrite take_append in K. exists pre, s', c'. auto.
Qed.

Lemma star_loop_complete (r : regex) (g : bool)
    (m : string -> captures -> cont -> option captures) :
  complete_for r m ->
  forall pre, lang (Star g r) pre ->
  forall fuel s' c k,
    String.length (pre ++ s') <= fuel ->
    (forall c', k s' c' <> None) ->
    star_loop m g k fuel (pre ++ s') c <> None.
Proof.
  intros Hm pre Hlang.
  remember (Star g r) as R eqn:ER.
  induction Hlang as [ | | | | |g0 r0|g0 r0 s1 s2 Hne H1 _ H2 IH2| | | ];
    try discriminate; inversion ER; subst g0 r0; clear ER;
    intros fuel s' c k Hfuel Hk.
  - simpl. destruct fuel as [|fuel]; simpl; [apply Hk|].
    destruct g.
    + match goal with |- match ?again with _ => _ end <> _ => destruct again end;
        [discriminate|apply Hk].
    + destruct (k s' c) eqn:Ek; [discriminate|]. exfalso. apply (Hk c Ek).
  - specialize (IH2 eq_refl).
    destruct fuel as [|fuel].
    { rewrite !length_append in Hfuel. destruct s1; [congruence|simpl in Hfuel; lia]. }
    assert (Hagain :
      m ((s1 ++ s2) ++ s') c
        (fun s'' c'' =>
           if (String.length s'' <? String.length ((s1 ++ s2) ++ s'))%nat
           then star_loop m g k fuel s'' c'' else None) <> None).
    { rewrite append_assoc. apply Hm; [assumption|].
      intros c'.
      assert (Hlt : (String.length (s2 ++ s') <? String.length (s1 ++ s2 ++ s'))%nat
                    = true).
      { apply Nat.ltb_lt. rewrite (length_append s1).
        destruct s1; [congruence|simpl; lia]. }
      rewrite Hlt. apply IH2; [|assumption].
      rewrite append_assoc, (length_append s1) in Hfuel.
      destruct s1; [congruence|simpl in Hfuel; lia]. }
    simpl. destruct g.
    + match goal with |- match ?again with _ => _ end <> _ =>
        destruct again end; [discriminate|]. exfalso. apply Hagain. reflexivity.
    + destruct (k ((s1 ++ s2) ++ s') c); [discriminate|]. exact Hagain.
Qed.

Lemma rmatch_complete (total : nat) (r : regex) :
  anchor_free r = true -> complete_for r (rmatch total r).
Proof.
  induction r as [|p|r1 IH1 r2 IH2|r1 IH1 r2 IH2|g r1 IH1|i r1 IH1| |];
    simpl; intros Haf pre s' c k Hlang Hk; try discriminate.
  - inversion Hlang; subst. simpl. apply Hk.
  - inversion Hlang as [|p0 a Hp| | | | | | | | ]; subst. simpl. rewrite Hp. apply Hk.
  - apply andb_prop in Haf. destruct Haf as [Haf1 Haf2].
    inversion Hlang as [| |r1' r2' s1 s2 L1 L2| | | | | | | ]; subst.
    simpl. rewrite append_assoc. apply (IH1 Haf1); [assumption|].
    intros c'. apply (IH2 Haf2); assumption.
  - apply andb_prop in Haf. destruct Haf as [Haf1 Haf2]. simpl.
    inversion Hlang as [| | |r1' r2' s0 L1|r1' r2' s0 L2| | | | | ]; subst.
    + pose proof (IH1 Haf1 pre s' c k L1 Hk) as H1.
      destruct (rmatch total r1 (pre ++ s') c k); [discriminate|congruence].
    + destruct (rmatch total r1 (pre ++ s') c k); [discriminate|].
      apply (IH2 Haf2); assumption.
  - simpl. apply (star_loop_complete r1 g (rmatch total r1) (IH1 Haf) pre Hlang);
      [apply Nat.le_refl|assumption].
  - inversion Hlang as [| | | | | | |i' r' s0 L| | ]; subst. simpl.
    apply (IH1 Haf); [assumption|]. intros c'. apply Hk.
Qed.

(** ** The two patterns of the parser *)

Lemma rmatch_Cat (total : nat) (r1 r2 : regex) (s : string) (c : captures)
    (k : cont) :
  rmatch total (Cat r1 r2) s c k
  = rmatch total r1 s c (fun s' c' => rmatch total r2 s' c' k).
Proof. reflexivity. Qed.

Lemma rmatch_Chr (total : nat) (p : ascii -> bool) (s : string) (c : captures)
    (k : cont) (res : captures) :
  rmatch total (Chr p) s c k = Some res ->
  exists a s', s = String a s' /\ p a = true /\ k s' c = Some res.
Proof.
  simpl. destruct s as [|a s']; [discriminate|].
  destruct (p a) eqn:Hp; [|discriminate]. eauto.
Qed.

Lemma rmatch_Lit (total : nat) (a : ascii) (s : string) (c : captures)
    (k : cont) (res : captures) :
  rmatch total (Lit a) s c k = Some res ->
  exists s', s = String a s' /\ k s' c = Some res.
Proof.
  intros H. apply rmatch_Chr in H. destruct H as [b [s' [-> [Hb K]]]].
  apply Ascii.eqb_eq in Hb. subst b. eauto.
Qed.

Lemma search_Bol_short (total : nat) (r : regex) (s : string) :
  String.length s < total -> search total (Cat Bol r) s = None.
Proof.
  induction s as [|a s IH]; intros Hlt; cbn [search]; rewrite rmatch_Cat;
    cbn [rmatch].
  - assert (E : (String.length "" =? total)%nat = false)
      by (apply Nat.eqb_neq; simpl in *; lia).
    rewrite E. reflexivity.
  - assert (E : (String.length (String a s) =? total)%nat = false)
      by (apply Nat.eqb_neq; lia).
    rewrite E. apply IH. simpl in Hlt. lia.
Qed.

(** An anchored pattern is tried at the start of the text only. *)
Lemma FindStringSubmatch_Bol (r : regex) (ngroups : nat) (s : string) :
  FindStringSubmatch (Cat Bol r) ngroups s
  = option_map (submatches ngroups)
      (rmatch (String.length s) r s no_captures
         (fun s' c' =>
            Some (set_capture 0 (take (String.length s - String.length s') s) c'))).
Proof.
  unfold FindStringSubmatch.
  assert (E : search (String.length s) (Cat Bol r) s
              = option_map (fun c => (s, c))
                  (rmatch (String.length s) r s no_captures
                     (fun s' c' =>
                        Some (set_capture 0
                                (take (String.length s - String.length s') s) c')))).
  { destruct s as [|a s]; cbn [search]; rewrite rmatch_Cat; cbn [rmatch];
      rewrite Nat.eqb_refl.
    - match goal with |- context [rmatch ?t r ?s ?c ?k] =>
        destruct (rmatch t r s c k) end; reflexivity.
    - match goal with |- context [rmatch ?t r ?s ?c ?k] =>
        destruct (rmatch t r s c k) end; [reflexivity|].
      apply search_Bol_short. simpl. lia. }
  rewrite E.
  match goal with |- context [rmatch ?t r ?s ?c ?k] =>
    destruct (rmatch t r s c k) end; reflexivity.
Qed.

(** What a match of [lineRe] tells about the line and the submatches. *)
Lemma lineRe_inv (line : string) (matches : list string) :
  FindStringSubmatch lineRe 3 line = Some matches ->
  exists m0 ts rest label w tail,
    matches = [m0; ts; rest; label]
    /\ line = "[" ++ ts ++ "]" ++ String w (rest ++ tail)
    /\ lang timeRe ts /\ lang restRe rest.
Proof.
  unfold lineRe. rewrite FindStringSubmatch_Bol.
  destruct (rmatch _ _ _ _ _) as [res|] eqn:H; [|discriminate].
  intros E. inversion E; subst matches; clear E.
  rewrite rmatch_Cat in H. apply rmatch_Lit in H. destruct H as [s1 [E1 H]].
  rewrite rmatch_Cat in H. apply rmatch_Group in H.
  destruct H as [ts [s2 [c1 [E2 [Lts [_ H]]]]]].
  rewrite rmatch_Cat in H. apply rmatch_Lit in H. destruct H as [s3 [E3 H]].
  rewrite rmatch_Cat in H. apply rmatch_Chr in H.
  destruct H as [w [s4 [E4 [_ H]]]].
  rewrite rmatch_Cat in H. apply rmatch_Group in H.
  destruct H as [rest [s5 [c2 [E5 [Lrest [F2 H]]]]]].
  apply rmatch_sound in H. destruct H as [pre [s6 [c3 [_ [_ [F3 H]]]]]].
  inversion H; subst res; clear H.
  assert (G1 : c3 1 = Some ts).
  { rewrite (F3 1) by (simpl; lia). unfold set_capture at 1. simpl.
    rewrite (F2 1) by (simpl; tauto). reflexivity. }
  assert (G2 : c3 2 = Some rest).
  { rewrite (F3 2) by (simpl; lia). reflexivity. }
  unfold submatches. cbn [seq map]. unfold set_capture at 2 3 4. cbn [Nat.eqb].
  rewrite G1, G2.
  eexists _, ts, rest, _, w, s5. split; [reflexivity|].
  split; [|split; assumption].
  rewrite E1, E2, E3, E4, E5. reflexivity.
Qed.

Lemma lang_Chr_inv (p : ascii -> bool) (s : string) :
  lang (Chr p) s -> exists a, s = String a "" /\ p a = true.
Proof. intros H. inversion H; subst. eauto. Qed.

Lemma lang_Star_Chr (g : bool) (p : ascii -> bool) (s : string) :
  lang (Star g (Chr p)) s -> forallb_string p s = true.
Proof.
  intros H. remember (Star g (Chr p)) as R eqn:ER.
  induction H as [ | | | | |g0 r0|g0 r0 s1 s2 Hne H1 _ H2 IH2| | | ];
    try discriminate; inversion ER; subst.
  - reflexivity.
  - apply lang_Chr_inv in H1. destruct H1 as [a [-> Ha]].
    simpl. rewrite Ha. apply IH2. reflexivity.
Qed.

Lemma lang_Cat_inv (r1 r2 : regex) (s : string) :
  lang (Cat r1 r2) s -> exists s1 s2, s = s1 ++ s2 /\ lang r1 s1 /\ lang r2 s2.
Proof. intros H. inversion H; subst. eauto. Qed.

Lemma lang_Plus_Chr (g : bool) (p : ascii -> bool) (s : string) :
  lang (Cat (Chr p) (Star g (Chr p))) s ->
  forallb_string p s = true /\ s <> "".
Proof.
  intros H. apply lang_Cat_inv in H. destruct H as [s1 [s2 [-> [H1 H2]]]].
  apply lang_Chr_inv in H1. destruct H1 as [a [-> Ha]].
  apply lang_Star_Chr in H2. simpl. rewrite Ha, H2. split; [reflexivity|discriminate].
Qed.

Lemma lang_Plus_Chr_intro (g : bool) (p : ascii -> bool) (s : string) :
  forallb_string p s = true -> s <> "" ->
  lang (Cat (Chr p) (Star g (Chr p))) s.
Proof.
  intros Hall Hne. destruct s as [|a s]; [congruence|]. clear Hne.
  simpl in Hall. apply andb_prop in Hall. destruct Hall as [Ha Hs].
  change (String a s) with (String a "" ++ s).
  apply lang_Cat; [apply lang_Chr; assumption|].
  induction s as [|b s IH]; [apply lang_Star_nil|].
  simpl in Hs. apply andb_prop in Hs. destruct Hs as [Hb Hs].
  change (String b s) with (String b "" ++ s).
  apply lang_Star_cons; [discriminate|apply lang_Chr; assumption|auto].
Qed.

(** The texts [timeRe] accepts: digits, a colon, digits, with one more
    colon allowed inside the first run of digits or right after it. *)
Lemma lang_timeRe (ts : string) :
  lang timeRe ts ->
  exists d1 d2 d3 (colon : bool),
    ts = d1 ++ (if colon then ":" else "") ++ d2 ++ ":" ++ d3
    /\ forallb_string digit d1 = true /\ d1 <> ""
    /\ forallb_string digit d2 = true
    /\ forallb_string digit d3 = true /\ d3 <> "".
Proof.
  unfold timeRe, Plus, Opt, Lit. intros H.
  apply lang_Cat_inv in H. destruct H as [d1 [r1 [-> [H1 H]]]].
  apply lang_Cat_inv in H. destruct H as [oc [r2 [-> [Hc H]]]].
  apply lang_Cat_inv in H. destruct H as [d2 [r3 [-> [H2 H]]]].
  apply lang_Cat_inv in H. destruct H as [cl [d3 [-> [Hl H3]]]].
  apply lang_Plus_Chr in H1. destruct H1 as [D1 N1].
  apply lang_Star_Chr in H2.
  apply lang_Plus_Chr in H3. destruct H3 as [D3 N3].
  apply lang_Chr_inv in Hl. destruct Hl as [a [-> Ha]].
  apply Ascii.eqb_eq in Ha. subst a.
  inversion Hc as [| | |ra rb s0 La|ra rb s0 Lb| | | | | ]; subst.
  - apply lang_Chr_inv in La. destruct La as [a [-> Ha]].
    apply Ascii.eqb_eq in Ha. subst a.
    exists d1, d2, d3, true. auto 10.
  - inversion Lb; subst. exists d1, d2, d3, false. auto 10.
Qed.

(** ** Splitting a timestamp at its colons *)

Lemma digit_not_colon (a : ascii) : digit a = true -> Ascii.eqb a ":" = false.
Proof.
  intros H. destruct (Ascii.eqb_spec a ":") as [->|]; [discriminate|reflexivity].
Qed.

Lemma forallb_string_append (p : ascii -> bool) (s1 s2 : string) :
  forallb_string p (s1 ++ s2) = forallb_string p s1 && forallb_string p s2.
Proof.
  induction s1 as [|a s1 IH]; simpl; [reflexivity|].
  rewrite IH. apply andb_assoc.
Qed.

Lemma Cut_colon_none (s : string) :
  forallb_string digit s = true -> Cut s ":" = None.
Proof.
  induction s as [|a s IH]; intros H; [reflexivity|].
  simpl in H. apply andb_prop in H. destruct H as [Ha Hs].
  cbn [Cut HasPrefix]. rewrite (digit_not_colon a Ha). cbn [andb].
  rewrite (IH Hs). reflexivity.
Qed.

Lemma Cut_colon_found (a b : string) :
  forallb_string digit a = true -> Cut (a ++ ":" ++ b) ":" = Some (a, b).
Proof.
  induction a as [|x a IH]; intros H.
  - reflexivity.
  - simpl in H. apply andb_prop in H. destruct H as [Hx Ha].
    change (String x a ++ ":" ++ b) with (String x (a ++ ":" ++ b)).
    cbn [Cut HasPrefix]. rewrite (digit_not_colon x Hx). cbn [andb].
    rewrite (IH Ha). reflexivity.
Qed.

Lemma genSplit_colon_last (n : nat) (s : string) :
  forallb_string digit s = true -> genSplit s ":" (S n) = [s].
Proof.
  intros H. destruct n as [|n]; [reflexivity|].
  cbn [genSplit]. rewrite (Cut_colon_none s H). reflexivity.
Qed.

Lemma genSplit_colon_cons (n : nat) (a b : string) :
  forallb_string digit a = true ->
  genSplit (a ++ ":" ++ b) ":" (S (S n)) = a :: genSplit b ":" (S n).
Proof.
  intros H. cbn [genSplit]. rewrite (Cut_colon_found a b H). reflexivity.
Qed.

Lemma Split_two (a b : string) :
  forallb_string digit a = true -> forallb_string digit b = true ->
  Split (a ++ ":" ++ b) ":" = [a; b].
Proof.
  intros Ha Hb. unfold Split, SplitN. cbn [Z.eqb Z.ltb Z.compare].
  rewrite length_append. cbn [String.length append].
  rewrite Nat.add_succ_r.
  rewrite (genSplit_colon_cons _ a b Ha), (genSplit_colon_last _ b Hb).
  reflexivity.
Qed.

Lemma Split_three (a b c : string) :
  forallb_string digit a = true -> forallb_string digit b = true ->
  forallb_string digit c = true ->
  Split (a ++ ":" ++ b ++ ":" ++ c) ":" = [a; b; c].
Proof.
  intros Ha Hb Hc. unfold Split, SplitN. cbn [Z.eqb Z.ltb Z.compare].
  rewrite length_append. cbn [String.length append].
  rewrite length_append. cbn [String.length append].
  rewrite !Nat.add_succ_r.
  rewrite (genSplit_colon_cons _ a (b ++ ":" ++ c) Ha).
  rewrite (genSplit_colon_cons _ b c Hb), (genSplit_colon_last _ c Hc).
  reflexivity.
Qed.

(** The timestamps [lineRe] lets through have two or three fields. *)
Lemma timeRe_fields (ts : string) :
  lang timeRe ts ->
  (exists a b, Split ts ":" = [a; b]) \/ (exists a b c, Split ts ":" = [a; b; c]).
Proof.
  intros H. apply lang_timeRe in H.
  destruct H as [d1 [d2 [d3 [colon [-> [D1 [_ [D2 [D3 _]]]]]]]]].
  destruct colon.
  - right. exists d1, d2, d3. apply Split_three; assumption.
  - left. exists (d1 ++ d2), d3. cbn [append].
    rewrite <- append_assoc. apply Split_two; [|assumption].
    rewrite forallb_string_append, D1, D2. reflexivity.
Qed.

(** ** [parseTimestamp] and the bounds of [multipliers] *)

Lemma parseTimestamp_loop_no_panic (parts : list string) (idxs : list nat) :
  Forall (fun i => i < List.length parts /\ i < 3) idxs ->
  forall total, parseTimestamp_loop parts idxs total <> Panic.
Proof.
  induction idxs as [|i idxs IH]; intros Hall total; [discriminate|].
  inversion Hall as [|? ? [Hi H3] Hrest]; subst.
  cbn [parseTimestamp_loop].
  destruct (index_ok parts (List.length parts - 1 - i)) as [part [_ ->]]; [lia|].
  cbn [bind]. destruct (Atoi part) as [val|err]; [|discriminate].
  destruct (index_ok multipliers i) as [m [_ ->]]; [simpl; lia|].
  cbn [bind]. apply IH. assumption.
Qed.

Lemma parseTimestamp_no_panic (ts : string) :
  List.length (Split ts ":") <= 3 -> parseTimestamp ts <> Panic.
Proof.
  intros H. unfold parseTimestamp. apply parseTimestamp_loop_no_panic.
  apply Forall_forall. intros i Hi. apply in_seq in Hi. lia.
Qed.

(** With four fields or more the loop reaches [multipliers[3]] unless one
    of the four rightmost fields stops it with an error first. *)
Lemma parseTimestamp_four_fields (ts : string) :
  4 <= List.length (Split ts ":") ->
  (forall v, parseTimestamp ts <> Ret v)
  /\ (parseTimestamp ts = Panic
      <-> Forall (fun field => exists v, Atoi field = inl v)
            (firstn 4 (List.rev (Split ts ":")))).
Proof.
  unfold parseTimestamp. generalize (Split ts ":") as parts. intros parts Hlen.
  assert (Hrev : exists a b c d front, parts = (front ++ [d; c; b; a])%list).
  { destruct (List.rev parts) as [|a [|b [|c [|d back]]]] eqn:E;
      try (apply (f_equal (@List.length string)) in E;
           rewrite length_rev in E; simpl in E; lia).
    exists a, b, c, d, (List.rev back).
    apply (f_equal (@List.rev string)) in E. rewrite rev_involutive in E.
    rewrite E. simpl. repeat rewrite <- app_assoc. reflexivity. }
  destruct Hrev as [a [b [c [d [front ->]]]]].
  assert (Hn : List.length (front ++ [d; c; b; a])%list = List.length front + 4)
    by (rewrite length_app; reflexivity).
  assert (Ia : index (front ++ [d; c; b; a])%list
                 (List.length (front ++ [d; c; b; a])%list - 1 - 0) = Ret a).
  { apply index_nth. rewrite Hn, nth_error_app2 by lia.
    replace (List.length front + 4 - 1 - 0 - List.length front) with 3 by lia.
    reflexivity. }
  assert (Ib : index (front ++ [d; c; b; a])%list
                 (List.length (front ++ [d; c; b; a])%list - 1 - 1) = Ret b).
  { apply index_nth. rewrite Hn, nth_error_app2 by lia.
    replace (List.length front + 4 - 1 - 1 - List.length front) with 2 by lia.
    reflexivity. }
  assert (Ic : index (front ++ [d; c; b; a])%list
                 (List.length (front ++ [d; c; b; a])%list - 1 - 2) = Ret c).
  { apply index_nth. rewrite Hn, nth_error_app2 by lia.
    replace (List.length front + 4 - 1 - 2 - List.length front) with 1 by lia.
    reflexivity. }
  assert (Id : index (front ++ [d; c; b; a])%list
                 (List.length (front ++ [d; c; b; a])%list - 1 - 3) = Ret d).
  { apply index_nth. rewrite Hn, nth_error_app2 by lia.
    replace (List.length front + 4 - 1 - 3 - List.length front) with 0 by lia.
    reflexivity. }
  assert (Hfirst : firstn 4 (List.rev (front ++ [d; c; b; a])%list) = [a; b; c; d]).
  { rewrite rev_app_distr. reflexivity. }
  assert (Hseq : seq 0 (List.length (front ++ [d; c; b; a])%list)
                 = 0 :: 1 :: 2 :: 3 :: seq 4 (List.length front)).
  { rewrite Hn, Nat.add_comm. reflexivity. }
  rewrite Hfirst, Hseq. clear Hn Hfirst Hseq Hlen.
  cbn [parseTimestamp_loop]. rewrite Ia. cbn [bind].
  destruct (Atoi a) as [va|ea] eqn:Ea.
  2:{ split; [discriminate|]. split; [discriminate|].
      intros F. inversion F as [|? ? [v Hv] _]; subst. congruence. }
  cbn [index multipliers nth_error bind]. rewrite Ib. cbn [bind].
  destruct (Atoi b) as [vb|eb] eqn:Eb.
  2:{ split; [discriminate|]. split; [discriminate|].
      intros F. inversion F as [|? ? _ F1]; subst.
      inversion F1 as [|? ? [v Hv] _]; subst. congruence. }
  cbn [index multipliers nth_error bind]. rewrite Ic. cbn [bind].
  destruct (Atoi c) as [vc|ec] eqn:Ec.
  2:{ split; [discriminate|]. split; [discriminate|].
      intros F. inversion F as [|? ? _ F1]; subst.
      inversion F1 as [|? ? _ F2]; subst.
      inversion F2 as [|? ? [v Hv] _]; subst. congruence. }
  cbn [index multipliers nth_error bind]. rewrite Id. cbn [bind].
  destruct (Atoi d) as [vd|ed] eqn:Ed.
  2:{ split; [discriminate|]. split; [discriminate|].
      intros F. inversion F as [|? ? _ F1]; subst.
      inversion F1 as [|? ? _ F2]; subst.
      inversion F2 as [|? ? _ F3]; subst.
      inversion F3 as [|? ? [v Hv] _]; subst. congruence. }
  cbn [index multipliers nth_error bind].
  split; [discriminate|]. split; [|reflexivity].
  intros _. repeat constructor; eauto.
Qed.

(** ** Artist and title *)

Lemma parseArtistTitle_Cut (s : string) :
  parseArtistTitle s
  = match Cut s " - " with
    | Some (artist, title) => Ret (artist, title)
    | None => Fail (ErrArtistTitle s)
    end.
Proof.
  unfold parseArtistTitle.
  change (SplitN s " - " 2) with (genSplit s " - " 2). cbn [genSplit].
  destruct (Cut s " - ") as [[a b]|]; reflexivity.
Qed.

Lemma HasPrefix_append (s s' sep : string) :
  HasPrefix s sep = true -> HasPrefix (s ++ s') sep = true.
Proof.
  revert s; induction sep as [|p sep IH]; intros s H; [reflexivity|].
  destruct s as [|a s]; [discriminate|].
  simpl in *. apply andb_prop in H. destruct H as [Ha Hs].
  rewrite Ha, (IH s Hs). reflexivity.
Qed.

(** A text without the separator has no prefix with it. *)
Lemma Cut_prefix_none (pre s' sep : string) :
  Cut (pre ++ s') sep = None -> Cut pre sep = None.
Proof.
  induction pre as [|a pre IH]; intros H.
  - cbn [append] in H. destruct sep as [|p sep]; [|reflexivity].
    destruct s'; discriminate.
  - change (String a pre ++ s') with (String a (pre ++ s')) in H.
    cbn [Cut] in *.
    destruct (HasPrefix (String a pre) sep) eqn:Hp.
    + apply (HasPrefix_append _ s') in Hp.
      change (String a pre ++ s') with (String a (pre ++ s')) in Hp.
      rewrite Hp in H. discriminate.
    + destruct (HasPrefix (String a (pre ++ s')) sep); [discriminate|].
      destruct (Cut (pre ++ s') sep) as [[x y]|]; [discriminate|].
      rewrite IH; reflexivity.
Qed.

(** ** The parsing loop *)

Lemma parseLines_app (st : parser) (l1 l2 : list string) :
  parseLines st (l1 ++ l2)%list
  = do st' <- parseLines st l1; parseLines st' l2.
Proof.
  revert st; induction l1 as [|x l1 IH]; intros st; simpl; [reflexivity|].
  destruct (parseLine st x) as [st1| |]; simpl; auto.
Qed.

(** A line on which the loop body returns an error makes the whole of
    [parseTracklist] return that error, whatever follows. *)
Lemma parseTracklist_fails_at (header : string) (before after : list string)
    (text : string) (st : parser) (e : error) (serr : option error) :
  parseLines (mkParser [] None) before = Ret st ->
  parseLine st text = Fail e ->
  parseTracklist (inr (mkScanner (header :: before ++ text :: after)%list serr))
  = Fail e.
Proof.
  intros Hb Hl. unfold parseTracklist. cbn [tokens hd tl].
  rewrite parseLines_app, Hb. cbn [bind parseLines]. rewrite Hl. reflexivity.
Qed.

Lemma rmatch_Chr_hit (total : nat) (p : ascii -> bool) (a : ascii) (s : string)
    (c : captures) (k : cont) :
  p a = true -> rmatch total (Chr p) (String a s) c k = k s c.
Proof. intros H. simpl. rewrite H. reflexivity. Qed.

(** A line that does not start with a bracket is no track-start line. *)
Lemma lineRe_needs_bracket (a : ascii) (s : string) :
  Ascii.eqb "[" a = false -> FindStringSubmatch lineRe 3 (String a s) = None.
Proof.
  intros H. unfold lineRe. rewrite FindStringSubmatch_Bol, rmatch_Cat.
  unfold Lit. cbn [rmatch]. rewrite H. reflexivity.
Qed.

(** [wRe] accepts every line made of [w/], a space and a non-empty
    remainder without line feed, and its first group is a prefix of the
    remainder. *)
Lemma wRe_matches (rem : string) :
  rem <> "" -> forallb_string dot rem = true ->
  exists m0 m1 m2 tail,
    FindStringSubmatch wRe 2 ("w/ " ++ rem) = Some [m0; m1; m2]
    /\ rem = m1 ++ tail.
Proof.
  intros Hne Hdot. unfold wRe. rewrite FindStringSubmatch_Bol.
  cbn [append].
  rewrite rmatch_Cat. unfold Lit at 1. rewrite rmatch_Chr_hit by reflexivity.
  rewrite rmatch_Cat. unfold Lit at 1. rewrite rmatch_Chr_hit by reflexivity.
  rewrite rmatch_Cat. rewrite rmatch_Chr_hit by reflexivity.
  rewrite rmatch_Cat.
  match goal with |- context [rmatch ?t (Group 1 restRe) rem ?c ?k] =>
    destruct (rmatch t (Group 1 restRe) rem c k) as [res|] eqn:E
  end.
  - apply rmatch_Group in E. destruct E as [m1 [tail [c1 [Erem [_ [F1 E]]]]]].
    apply rmatch_sound in E. destruct E as [pre [s' [c2 [_ [_ [F2 E]]]]]].
    inversion E; subst res; clear E.
    assert (G1 : c2 1 = Some m1) by (rewrite (F2 1) by (simpl; lia); reflexivity).
    unfold submatches. cbn [seq map option_map]. unfold set_capture at 2 3.
    cbn [Nat.eqb]. rewrite G1.
    eexists _, m1, _, tail. split; [reflexivity|assumption].
  - exfalso. revert E. rewrite <- (append_nil_r rem) at 2.
    apply rmatch_complete; [reflexivity| |intros c'; discriminate].
    apply lang_Group. apply lang_Plus_Chr_intro; assumption.
Qed.

Lemma label_or_empty (label : string) :
  (if negb (String.eqb label "") then label else "") = label.
Proof. destruct (String.eqb_spec label ""); simpl; congruence. Qed.

(** The loop body on a track-start line, once the submatches are named. *)
Lemma trackLine_eq (st : parser) (m0 ts rest label : string) :
  trackLine st [m0; ts; rest; label]
  = do start <- parseTimestamp ts;
    if HasSuffix rest "On Stage"
    then Ret (mkParser (flush st) (currentTrack st))
    else
      do (artist, title) <- parseArtistTitle rest;
      Ret (mkParser (flush st)
             (Some (mkTrack start zero artist title label [] ""))).
Proof.
  unfold trackLine. cbn [index nth_error bind List.length Nat.ltb Nat.leb].
  destruct (parseTimestamp ts) as [start| |]; cbn [bind]; try reflexivity.
  destruct (HasSuffix rest "On Stage"); [reflexivity|].
  destruct (parseArtistTitle rest) as [[artist title]| |]; cbn [bind];
    try reflexivity.
  rewrite label_or_empty. reflexivity.
Qed.

(** The loop body on a line that [lineRe] matches. *)
Lemma parseLine_track (st : parser) (text : string) (matches : list string) :
  FindStringSubmatch lineRe 3 (TrimSpace text) = Some matches ->
  parseLine st text = trackLine st matches.
Proof.
  intros H. unfold parseLine. rewrite H.
  destruct (String.eqb_spec (TrimSpace text) "") as [E|_]; [|reflexivity].
  rewrite E in H. vm_compute in H. discriminate.
Qed.

(** The loop body on a line that starts with [w/]. *)
Lemma parseLine_with (st : parser) (text : string) :
  HasPrefix (TrimSpace text) "w/" = true ->
  parseLine st text = withLine st (TrimSpace text).
Proof.
  intros H. unfold parseLine.
  destruct (TrimSpace text) as [|a line] eqn:E; [discriminate|].
  cbn [String.eqb].
  assert (Ha : a = "w"%char).
  { simpl in H. destruct line; [rewrite andb_false_r in H; discriminate|].
    apply andb_prop in H. destruct H as [H _]. apply Ascii.eqb_eq in H. exact H. }
  subst a. rewrite lineRe_needs_bracket by reflexivity. rewrite H. reflexivity.
Qed.

Lemma FindStringSubmatch_length (r : regex) (ngroups : nat) (s : string)
    (matches : list string) :
  FindStringSubmatch r ngroups s = Some matches ->
  List.length matches = S ngroups.
Proof.
  unfold FindStringSubmatch.
  destruct (search (String.length s) r s) as [[s0 c]|]; [|discriminate].
  intros E. injection E as <-. simpl. rewrite length_map, length_seq. reflexivity.
Qed.

(** The loop body on a continuation line, with a track open. *)
Lemma withLine_eq (st : parser) (t : Track) (line : string) :
  currentTrack st = Some t ->
  withLine st line
  = match FindStringSubmatch wRe 2 line with
    | None => Ret st
    | Some matches =>
        do (artist, title) <- parseArtistTitle (nth 1 matches "");
        Ret (mkParser (tracks st)
               (Some (mkTrack (StartTime t) (EndTime t) (MainArtist t)
                        (MainTitle t) (MainLabel t)
                        (Additional t
                           ++ [mkAdditionalTrack artist title (nth 2 matches "")])%list
                        (OutputFilename t))))
    end.
Proof.
  intros Ht. unfold withLine. rewrite Ht.
  destruct (FindStringSubmatch wRe 2 line) as [matches|] eqn:E; [|reflexivity].
  apply FindStringSubmatch_length in E.
  destruct matches as [|m0 [|m1 [|m2 [|m3 ms]]]]; try discriminate.
  cbn [index nth_error bind nth].
  destruct (parseArtistTitle m1) as [[artist title]| |]; reflexivity.
Qed.

(** ** Timestamps of track-start lines *)

Lemma numeric_dec (field : string) : numeric field \/ exists e, Atoi field = inr e.
Proof.
  unfold numeric. destruct (Atoi field) as [v|e]; [left|right]; eauto.
Qed.

Lemma parseTimestamp_numeric (ts : string) :
  List.length (Split ts ":") <= 3 ->
  Forall numeric (Split ts ":") ->
  exists v, parseTimestamp ts = Ret v.
Proof.
  intros Hlen Hall.
  assert (Hvals : exists vals,
            Forall2 (fun field v => Atoi field = inl v) (Split ts ":") vals).
  { clear Hlen. induction Hall as [|f fs [v Hv] _ [vals IH]].
    - exists []. constructor.
    - exists (v :: vals). constructor; assumption. }
  destruct Hvals as [vals Hvals].
  eexists. apply parseTimestamp_fields_sum; [|exact Hvals].
  rewrite <- (Forall2_length Hvals). exact Hlen.
Qed.

Lemma parseTimestamp_bad_field (ts : string) :
  List.length (Split ts ":") <= 3 ->
  Exists (fun field => exists e, Atoi field = inr e) (Split ts ":") ->
  exists e, parseTimestamp ts = Fail e.
Proof.
  unfold parseTimestamp. generalize (Split ts ":") as parts.
  intros parts Hlen Hbad.
  destruct parts as [|a [|b [|c [|d parts]]]]; try (simpl in Hlen; lia).
  - inversion Hbad.
  - cbn. inversion Hbad as [? ? [e He]|? ? Hx]; subst; [|inversion Hx].
    rewrite He. eauto.
  - cbn. destruct (Atoi b) as [vb|eb] eqn:Eb; [|eauto]. cbn.
    destruct (Atoi a) as [va|ea] eqn:Ea; [|eauto]. exfalso.
    inversion Hbad as [? ? [e He]|? ? Hx]; subst; [congruence|].
    inversion Hx as [? ? [e He]|? ? Hy]; subst; [congruence|inversion Hy].
  - cbn. destruct (Atoi c) as [vc|ec] eqn:Ec; [|eauto]. cbn.
    destruct (Atoi b) as [vb|eb] eqn:Eb; [|eauto]. cbn.
    destruct (Atoi a) as [va|ea] eqn:Ea; [|eauto]. exfalso.
    inversion Hbad as [? ? [e He]|? ? Hx]; subst; [congruence|].
    inversion Hx as [? ? [e He]|? ? Hy]; subst; [congruence|].
    inversion Hy as [? ? [e He]|? ? Hz]; subst; [congruence|inversion Hz].
Qed.

Lemma lineRe_timestamp (line : string) (matches : list string) :
  FindStringSubmatch lineRe 3 line = Some matches ->
  exists m0 ts rest label,
    matches = [m0; ts; rest; label]
    /\ (List.length (Split ts ":") = 2 \/ List.length (Split ts ":") = 3).
Proof.
  intros H. apply lineRe_inv in H.
  destruct H as [m0 [ts [rest [label [w [tail [-> [_ [Lts _]]]]]]]]].
  exists m0, ts, rest, label. split; [reflexivity|].
  destruct (timeRe_fields ts Lts) as [[a [b ->]]|[a [b [c ->]]]]; auto.
Qed.

(** ** The parser never panics *)

Lemma parseArtistTitle_no_panic (s : string) : parseArtistTitle s <> Panic.
Proof.
  rewrite parseArtistTitle_Cut. destruct (Cut s " - ") as [[a b]|]; discriminate.
Qed.

Lemma parseLine_no_panic (st : parser) (text : string) :
  parseLine st text <> Panic.
Proof.
  unfold parseLine.
  destruct (String.eqb (TrimSpace text) ""); [discriminate|].
  destruct (FindStringSubmatch lineRe 3 (TrimSpace text)) as [matches|] eqn:E.
  - destruct (lineRe_timestamp _ _ E) as [m0 [ts [rest [label [-> Hlen]]]]].
    rewrite trackLine_eq.
    pose proof (parseTimestamp_no_panic ts) as Hts.
    destruct (parseTimestamp ts) as [start| |] eqn:Ets; cbn [bind];
      [|discriminate|exfalso; apply Hts; [lia|reflexivity]].
    destruct (HasSuffix rest "On Stage"); [discriminate|].
    rewrite parseArtistTitle_Cut.
    destruct (Cut rest " - ") as [[artist title]|]; discriminate.
  - destruct (HasPrefix (TrimSpace text) "w/"); [|discriminate].
    destruct (currentTrack st) as [t|] eqn:Ht.
    + rewrite (withLine_eq st t _ Ht).
      destruct (FindStringSubmatch wRe 2 (TrimSpace text)) as [matches|];
        [|discriminate].
      rewrite parseArtistTitle_Cut.
      destruct (Cut (nth 1 matches "") " - ") as [[artist title]|]; discriminate.
    + unfold withLine. rewrite Ht. discriminate.
Qed.

Lemma parseLines_no_panic (lines : list string) :
  forall st, parseLines st lines <> Panic.
Proof.
  induction lines as [|text lines IH]; intros st; [discriminate|].
  cbn [parseLines]. pose proof (parseLine_no_panic st text) as H.
  destruct (parseLine st text) as [st'| |] eqn:E; cbn [bind];
    [apply IH|discriminate|congruence].
Qed.

Lemma parseTracklist_no_panic (file : error + scanner) :
  parseTracklist file <> Panic.
Proof.
  destruct file as [err|sc]; [discriminate|]. unfold parseTracklist.
  pose proof (parseLines_no_panic (tl (tokens sc)) (mkParser [] None)) as H.
  destruct (parseLines (mkParser [] None) (tl (tokens sc))) as [st| |] eqn:E;
    cbn [bind]; [|discriminate|congruence].
  destruct (scanErr sc); discriminate.
Qed.

(** C10, as the code has it: with at most three fields [parseTimestamp]
    stays within [multipliers] and returns a value or an error; with four
    fields or more it never returns a value, and it indexes out of bounds
    exactly when the four rightmost fields are all numeric, an error in one
    of them being returned first otherwise; [lineRe] passes only timestamps
    of two or three fields, so [parseTracklist] never panics. *)
Theorem parseTimestamp_bounds :
  (forall ts, List.length (Split ts ":") <= 3 -> parseTimestamp ts <> Panic)
  /\ (forall ts, 4 <= List.length (Split ts ":") ->
        (forall v, parseTimestamp ts <> Ret v)
        /\ (parseTimestamp ts = Panic
            <-> Forall numeric (firstn 4 (List.rev (Split ts ":")))))
  /\ (forall line matches,
        FindStringSubmatch lineRe 3 line = Some matches ->
        exists ts,
          index matches 1 = Ret ts
          /\ (List.length (Split ts ":") = 2 \/ List.length (Split ts ":") = 3)
          /\ parseTimestamp ts <> Panic)
  /\ (forall file, parseTracklist file <> Panic).
Proof.
  split; [exact parseTimestamp_no_panic|].
  split; [exact parseTimestamp_four_fields|].
  split; [|exact parseTracklist_no_panic].
  intros line matches H.
  destruct (lineRe_timestamp _ _ H) as [m0 [ts [rest [label [-> Hlen]]]]].
  exists ts. split; [reflexivity|]. split; [assumption|].
  apply parseTimestamp_no_panic. lia.
Qed.

Lemma parseTimestamp_bounds_witness :
  parseTimestamp "1:02:03" <> Panic
  /\ parseTimestamp "1:2:3:4" = Panic
  /\ exists ts,
       index ["[0:00:30] A - B"; "0:00:30"; "A - B"; ""] 1 = Ret ts
       /\ parseTimestamp ts <> Panic.
Proof.
  split; [|split].
  - apply (proj1 parseTimestamp_bounds "1:02:03"). vm_compute. lia.
  - apply (proj2 (proj1 (proj2 parseTimestamp_bounds) "1:2:3:4"
                    ltac:(vm_compute; lia))).
    vm_compute. repeat constructor; eexists; reflexivity.
  - destruct (proj1 (proj2 (proj2 parseTimestamp_bounds)) "[0:00:30] A - B"
                ["[0:00:30] A - B"; "0:00:30"; "A - B"; ""] eq_refl)
      as [ts [H1 [_ H2]]].
    exists ts. split; assumption.
Defined.

(** C10, as stated, fails: a timestamp of four fields whose leftmost field
    is not numeric returns the error of [Atoi] and never indexes
    [multipliers] out of bounds. *)
Lemma four_fields_error_before_bounds :
  List.length (Split "x:1:2:3" ":") = 4
  /\ parseTimestamp "x:1:2:3" = Fail (ErrSyntax "x")
  /\ parseTimestamp "x:1:2:3" <> Panic.
Proof.
  split; [reflexivity|]. split; [vm_compute; reflexivity|].
  vm_compute. discriminate.
Qed.

(** ** Malformed lines *)

(** The loop body on a line that is neither a track-start line nor a
    continuation line. *)
Lemma parseLine_other (st : parser) (text : string) :
  FindStringSubmatch lineRe 3 (TrimSpace text) = None ->
  HasPrefix (TrimSpace text) "w/" = false ->
  parseLine st text = Ret st.
Proof.
  intros Hline Hw. unfold parseLine. rewrite Hline, Hw.
  destruct (String.eqb (TrimSpace text) ""); reflexivity.
Qed.

(** C4, as the code has it: on a line that [lineRe] matches, a timestamp
    field that [Atoi] rejects makes the parse fail; with a numeric
    timestamp, a rest without " - " makes it fail with the artist/title
    error unless the rest ends with "On Stage", in which case the line is
    passed over without error; a failure of the loop body is the result of
    the whole of [parseTracklist].  A line that [lineRe] does not match and
    that does not start with [w/] is passed over, the parser state
    unchanged. *)
Theorem track_start_line_failures :
  (forall st text matches,
      FindStringSubmatch lineRe 3 (TrimSpace text) = Some matches ->
      exists m0 ts rest label,
        matches = [m0; ts; rest; label]
        /\ (Exists (fun field => exists e, Atoi field = inr e) (Split ts ":") ->
            exists e, parseLine st text = Fail e)
        /\ (Forall numeric (Split ts ":") ->
            HasSuffix rest "On Stage" = false ->
            Cut rest " - " = None ->
            parseLine st text = Fail (ErrArtistTitle rest))
        /\ (Forall numeric (Split ts ":") ->
            HasSuffix rest "On Stage" = true ->
            exists st', parseLine st text = Ret st')
        /\ (forall e header before after serr,
              parseLine st text = Fail e ->
              parseLines (mkParser [] None) before = Ret st ->
              parseTracklist
                (inr (mkScanner (header :: before ++ text :: after)%list serr))
              = Fail e))
  /\ (forall st text,
        FindStringSubmatch lineRe 3 (TrimSpace text) = None ->
        HasPrefix (TrimSpace text) "w/" = false ->
        parseLine st text = Ret st).
Proof.
  split; [|exact parseLine_other].
  intros st text matches H. rewrite (parseLine_track st text matches H).
  destruct (lineRe_timestamp _ _ H) as [m0 [ts [rest [label [-> Hlen]]]]].
  exists m0, ts, rest, label. split; [reflexivity|].
  rewrite trackLine_eq.
  assert (Hlen3 : List.length (Split ts ":") <= 3) by lia.
  split; [|split; [|split]].
  - intros Hbad. destruct (parseTimestamp_bad_field ts Hlen3 Hbad) as [e ->].
    exists e. reflexivity.
  - intros Hnum Hstage Hcut.
    destruct (parseTimestamp_numeric ts Hlen3 Hnum) as [v ->]. cbn [bind].
    rewrite Hstage, parseArtistTitle_Cut, Hcut. reflexivity.
  - intros Hnum Hstage.
    destruct (parseTimestamp_numeric ts Hlen3 Hnum) as [v ->]. cbn [bind].
    rewrite Hstage. eauto.
  - intros e header before after serr Hfail Hbefore.
    apply parseTracklist_fails_at with (st := st); [assumption|].
    rewrite (parseLine_track st text _ H), trackLine_eq. exact Hfail.
Qed.

Lemma track_start_line_failures_witness :
  parseLine (mkParser [] None) "[0:00] Hello" = Fail (ErrArtistTitle "Hello")
  /\ (exists e, parseLine (mkParser [] None) "[1::03] A - B" = Fail e)
  /\ parseLine (mkParser [] None) "[x:03] A - B" = Ret (mkParser [] None).
Proof.
  split; [|split].
  - destruct (proj1 track_start_line_failures (mkParser [] None) "[0:00] Hello"
                ["[0:00] Hello"; "0:00"; "Hello"; ""] eq_refl)
      as [m0 [ts [rest [label [E [_ [H _]]]]]]].
    injection E as <- <- <- <-. apply H.
    + vm_compute. repeat constructor; eexists; reflexivity.
    + reflexivity.
    + reflexivity.
  - destruct (proj1 track_start_line_failures (mkParser [] None) "[1::03] A - B"
                ["[1::03] A - B"; "1::03"; "A - B"; ""] eq_refl)
      as [m0 [ts [rest [label [E [H _]]]]]].
    injection E as <- <- <- <-. apply H.
    vm_compute. apply Exists_cons_tl, Exists_cons_hd. eexists; reflexivity.
  - apply (proj2 track_start_line_failures); reflexivity.
Defined.

(** C4, as stated, fails: a track-start line whose rest has no " - " but
    ends with "On Stage" does not abort the parse, and a line whose bracket
    holds a field that is no number, which [parseTimestamp] would reject,
    does not match [lineRe] and is passed over without error. *)
Lemma malformed_lines_parse_without_error :
  (FindStringSubmatch lineRe 3 "[0:00] DJ On Stage"
   = Some ["[0:00] DJ On Stage"; "0:00"; "DJ On Stage"; ""]
   /\ Cut "DJ On Stage" " - " = None
   /\ parseTracklist (inr (mkScanner ["Album"; "[0:00] DJ On Stage"] None))
      = Ret ([], "Album"))
  /\ (parseTimestamp "x:03" = Fail (ErrSyntax "x")
      /\ FindStringSubmatch lineRe 3 "[x:03] A - B" = None
      /\ parseTracklist (inr (mkScanner ["Album"; "[x:03] A - B"] None))
         = Ret ([], "Album")).
Proof. repeat split; vm_compute; reflexivity. Qed.

(** C3, as the code has it: a continuation line [w/ rem] read while a
    track is open, with a non-empty [rem] that has no " - ", makes the
    parse fail with the artist/title error; a line that starts with [w/] is
    passed over without error, the parser state unchanged, when no track is
    open or when [wRe] does not match it; with a track open and a match of
    [wRe], the line fails when its first submatch has no " - " and adds one
    additional track to the open track otherwise. *)
Theorem continuation_line_outcomes :
  (forall st t text rem,
      TrimSpace text = "w/ " ++ rem ->
      rem <> "" -> forallb_string dot rem = true ->
      Cut rem " - " = None ->
      currentTrack st = Some t ->
      exists m1 tail,
        rem = m1 ++ tail
        /\ parseLine st text = Fail (ErrArtistTitle m1)
        /\ forall header before after serr,
             parseLines (mkParser [] None) before = Ret st ->
             parseTracklist
               (inr (mkScanner (header :: before ++ text :: after)%list serr))
             = Fail (ErrArtistTitle m1))
  /\ (forall st text,
        HasPrefix (TrimSpace text) "w/" = true ->
        currentTrack st = None ->
        parseLine st text = Ret st)
  /\ (forall st text,
        HasPrefix (TrimSpace text) "w/" = true ->
        FindStringSubmatch wRe 2 (TrimSpace text) = None ->
        parseLine st text = Ret st)
  /\ (forall st t text matches,
        HasPrefix (TrimSpace text) "w/" = true ->
        currentTrack st = Some t ->
        FindStringSubmatch wRe 2 (TrimSpace text) = Some matches ->
        match Cut (nth 1 matches "") " - " with
        | None => parseLine st text = Fail (ErrArtistTitle (nth 1 matches ""))
        | Some (artist, title) =>
            parseLine st text
            = Ret (mkParser (tracks st)
                     (Some (mkTrack (StartTime t) (EndTime t) (MainArtist t)
                              (MainTitle t) (MainLabel t)
                              (Additional t
                                 ++ [mkAdditionalTrack artist title
                                       (nth 2 matches "")])%list
                              (OutputFilename t))))
        end).
Proof.
  split; [|split; [|split]].
  - intros st t text rem Htrim Hne Hdot Hcut Ht.
    destruct (wRe_matches rem Hne Hdot) as [m0 [m1 [m2 [tail [Hm Hrem]]]]].
    exists m1, tail. split; [assumption|].
    assert (Hline : parseLine st text = Fail (ErrArtistTitle m1)).
    { rewrite parseLine_with by (rewrite Htrim; reflexivity).
      rewrite (withLine_eq st t _ Ht), Htrim, Hm. cbn [nth].
      rewrite parseArtistTitle_Cut.
      rewrite (Cut_prefix_none m1 tail " - ") by (rewrite <- Hrem; exact Hcut).
      reflexivity. }
    split; [exact Hline|].
    intros header before after serr Hbefore.
    apply parseTracklist_fails_at with (st := st); assumption.
  - intros st text Hpre Ht. rewrite (parseLine_with st text Hpre).
    unfold withLine. rewrite Ht. reflexivity.
  - intros st text Hpre Hnone. rewrite (parseLine_with st text Hpre).
    unfold withLine. rewrite Hnone. destruct (currentTrack st); reflexivity.
  - intros st t text matches Hpre Ht Hm.
    rewrite (parseLine_with st text Hpre), (withLine_eq st t _ Ht), Hm.
    rewrite parseArtistTitle_Cut.
    destruct (Cut (nth 1 matches "") " - ") as [[artist title]|]; reflexivity.
Qed.

Lemma continuation_line_outcomes_witness :
  exists m1 tail,
    "C" = m1 ++ tail
    /\ parseLine (mkParser [] (Some (mkTrack zero zero "A" "B" "" [] ""))) "w/ C"
       = Fail (ErrArtistTitle m1).
Proof.
  destruct (proj1 continuation_line_outcomes
              (mkParser [] (Some (mkTrack zero zero "A" "B" "" [] "")))
              (mkTrack zero zero "A" "B" "" [] "") "w/ C" "C"
              eq_refl ltac:(discriminate) eq_refl eq_refl eq_refl)
    as [m1 [tail [H1 [H2 _]]]].
  exists m1, tail. split; assumption.
Defined.

(** C3, as stated, fails: a continuation line without " - " after an open
    track aborts the parse. *)
Lemma continuation_without_separator_fails :
  parseTracklist (inr (mkScanner ["Album"; "[0:00:00] A - B"; "w/ C"] None))
  = Fail (ErrArtistTitle "C").
Proof. vm_compute. reflexivity. Qed.

(** ** The result sequence *)

Lemma flush_nonempty (st : parser) :
  stored_after_open st -> (flush st <> [] <-> is_open st = true).
Proof.
  unfold stored_after_open, flush, is_open. intros Hinv.
  destruct (currentTrack st) as [t|].
  - split; [reflexivity|]. intros _ E. destruct (tracks st); discriminate.
  - split; [assumption|discriminate].
Qed.

Lemma parseLine_open (st st' : parser) (text : string) :
  parseLine st text = Ret st' ->
  stored_after_open st ->
  stored_after_open st' /\ is_open st' = is_open st || opens_track text.
Proof.
  intros H Hinv. unfold opens_track.
  destruct (FindStringSubmatch lineRe 3 (TrimSpace text)) as [matches|] eqn:E.
  - rewrite (parseLine_track st text matches E) in H.
    destruct (lineRe_timestamp _ _ E) as [m0 [ts [rest [label [-> _]]]]].
    rewrite trackLine_eq in H. cbn [nth].
    destruct (parseTimestamp ts) as [start| |]; cbn [bind] in H;
      try discriminate.
    destruct (HasSuffix rest "On Stage").
    + injection H as <-. cbn [negb]. rewrite orb_false_r.
      split; [|reflexivity].
      unfold stored_after_open. cbn [tracks]. intros Hne.
      apply (flush_nonempty st Hinv) in Hne. exact Hne.
    + destruct (parseArtistTitle rest) as [[artist title]| |]; cbn [bind] in H;
        try discriminate.
      injection H as <-. cbn [negb]. rewrite orb_true_r.
      split; [intros _|]; reflexivity.
  - rewrite orb_false_r. unfold parseLine in H. rewrite E in H.
    destruct (String.eqb (TrimSpace text) "");
      [injection H as <-; auto|].
    destruct (HasPrefix (TrimSpace text) "w/"); [|injection H as <-; auto].
    destruct (currentTrack st) as [t|] eqn:Ht.
    + rewrite (withLine_eq st t _ Ht) in H.
      destruct (FindStringSubmatch wRe 2 (TrimSpace text)) as [ms|];
        [|injection H as <-; auto].
      destruct (parseArtistTitle (nth 1 ms "")) as [[artist title]| |];
        cbn [bind] in H; try discriminate.
      injection H as <-. unfold is_open. rewrite Ht.
      split; [intros _|]; reflexivity.
    + unfold withLine in H. rewrite Ht in H. injection H as <-. auto.
Qed.

Lemma parseLines_open (lines : list string) :
  forall st st',
    parseLines st lines = Ret st' ->
    stored_after_open st ->
    stored_after_open st'
    /\ is_open st' = is_open st || existsb opens_track lines.
Proof.
  induction lines as [|text lines IH]; intros st st' H Hinv.
  - injection H as <-. rewrite orb_false_r. auto.
  - cbn [parseLines] in H.
    destruct (parseLine st text) as [st1| |] eqn:E1; cbn [bind] in H;
      try discriminate.
    destruct (parseLine_open st st1 text E1 Hinv) as [Hinv1 Hopen1].
    destruct (IH st1 st' H Hinv1) as [Hinv' Hopen'].
    split; [assumption|].
    rewrite Hopen', Hopen1. cbn [existsb]. symmetry. apply orb_assoc.
Qed.




(** ** Stage announcements *)

(** What the loop body does on a stage-announcement line while a track is
    open: the open track is stored and stays open, so it is stored again by
    the next track-start line or at the end of the file. *)
Lemma stage_announcement_stores_open_track (st : parser) (t : Track)
    (text m0 ts rest label : string) :
  FindStringSubmatch lineRe 3 (TrimSpace text) = Some [m0; ts; rest; label] ->
  Forall numeric (Split ts ":") ->
  HasSuffix rest "On Stage" = true ->
  currentTrack st = Some t ->
  parseLine st text = Ret (mkParser (tracks st ++ [t])%list (Some t)).
Proof.
  intros H Hnum Hstage Ht.
  rewrite (parseLine_track st text _ H), trackLine_eq.
  destruct (lineRe_timestamp _ _ H) as [m0' [ts' [rest' [label' [E Hlen]]]]].
  injection E as <- <- <- <-.
  destruct (parseTimestamp_numeric ts) as [v ->]; [lia|assumption|].
  cbn [bind]. rewrite Hstage. unfold flush. rewrite Ht. reflexivity.
Qed.

(** C1 at the failing input: the track opened before a stage announcement
    is returned twice. *)
Theorem stage_announcement_duplicates_open_track :
  parseTracklist
    (inr (mkScanner ["Album"; "[0:00:00] A - B"; "[0:00:30] DJ On Stage"] None))
  = Ret ([mkTrack zero zero "A" "B" "" [] ""; mkTrack zero zero "A" "B" "" [] ""],
         "Album").
Proof. vm_compute. reflexivity. Qed.

(** ** File names *)

Lemma createFilenames_loop_spec (ext : string) (idxs : list nat) :
  forall cur : list Track,
    Forall (fun i => i < List.length cur) idxs ->
    exists res,
      createFilenames_loop cur ext idxs = Ret res
      /\ List.length res = List.length cur
      /\ forall j t, nth_error cur j = Some t ->
           nth_error res j
           = Some (if existsb (Nat.eqb j) idxs
                   then setOutputFilename t (fileNameOf ext j t)
                   else t).
Proof.
  induction idxs as [|i idxs IH]; intros cur Hall.
  - exists cur; simpl; auto.
  - inversion Hall as [|? ? Hi Hrest]; subst.
    destruct (index_ok cur i Hi) as [ti [Eti Iti]].
    set (t1 := setOutputFilename ti (fileNameOf ext i ti)).
    destruct (store_ok cur i t1 Hi) as [cur1 Ecur1].
    assert (Hlen1 : List.length cur1 = List.length cur)
      by (apply (store_length cur cur1 i t1 Ecur1)).
    destruct (IH cur1) as [res [Eres [Hlen Hnth]]].
    { rewrite Hlen1; assumption. }
    exists res. split; [|split].
    + cbn [createFilenames_loop]. rewrite Iti. cbn [bind].
      fold (fileNameOf ext i ti). fold t1. rewrite Ecur1. exact Eres.
    + congruence.
    + intros j t Ej.
      pose proof (store_nth _ _ _ j _ Ecur1) as E1.
      cbn [existsb]. destruct (Nat.eqb j i) eqn:Eji.
      * apply Nat.eqb_eq in Eji; subst j.
        rewrite (Hnth i t1 E1).
        assert (t = ti) by congruence; subst t.
        destruct (existsb (Nat.eqb i) idxs); [|reflexivity].
        destruct ti; reflexivity.
      * rewrite Ej in E1. rewrite (Hnth j t E1). reflexivity.
Qed.

Lemma createFilenames_spec (tracks : list Track) (ext : string) :
  exists res,
    createFilenames tracks ext = Ret res
    /\ List.length res = List.length tracks
    /\ forall j t, nth_error tracks j = Some t ->
         nth_error res j = Some (setOutputFilename t (fileNameOf ext j t)).
Proof.
  destruct (createFilenames_loop_spec ext (seq 0 (List.length tracks)) tracks)
    as [res [E [Hlen Hnth]]].
  { apply Forall_forall; intros i Hi; apply in_seq in Hi; lia. }
  exists res; split; [exact E|split; [exact Hlen|]].
  intros j t Ej. rewrite (Hnth j t Ej), existsb_seq; [reflexivity|].
  apply nth_error_Some; congruence.
Qed.

(** *** The position prefix *)

Lemma string_of_uint_digits (u : Decimal.uint) :
  forallb_string isDigit (NilEmpty.string_of_uint u) = true.
Proof. induction u; simpl; auto. Qed.

Lemma format_02d_digits (n : nat) : forallb_string isDigit (format_02d n) = true.
Proof.
  unfold format_02d.
  destruct (String.length (NilEmpty.string_of_uint (Nat.to_uint n)) <? 2)%nat;
    [cbn [append forallb_string]|]; rewrite string_of_uint_digits; reflexivity.
Qed.

(** Reading the prefix back as a decimal number gives the position. *)
Lemma format_02d_read (n : nat) :
  option_map Nat.of_uint (NilEmpty.uint_of_string (format_02d n)) = Some n.
Proof.
  unfold format_02d.
  destruct (String.length (NilEmpty.string_of_uint (Nat.to_uint n)) <? 2)%nat.
  - cbn [append NilEmpty.uint_of_string]. rewrite NilEmpty.usu.
    cbn. f_equal. apply DecimalNat.Unsigned.of_to.
  - rewrite NilEmpty.usu. cbn. f_equal. apply DecimalNat.Unsigned.of_to.
Qed.

Lemma format_02d_inj (p q : nat) : format_02d p = format_02d q -> p = q.
Proof.
  intros H. pose proof (format_02d_read p) as Hp.
  rewrite H, format_02d_read in Hp. congruence.
Qed.

Lemma format_02d_small (n : nat) :
  n < 10 -> format_02d n = String "0" (String (ascii_of_nat (48 + n)) "").
Proof.
  intros H. do 10 (destruct n as [|n]; [reflexivity|]). lia.
Qed.

Lemma format_02d_large (n : nat) :
  10 <= n -> format_02d n = NilEmpty.string_of_uint (Nat.to_uint n).
Proof.
  intros H. unfold format_02d.
  pose proof (DecimalNat.Unsigned.of_to n) as Hn.
  destruct (Nat.to_uint n) as [|u|u|u|u|u|u|u|u|u|u];
    try (cbn in Hn; lia);
    (destruct u; [cbn in Hn; lia|reflexivity..]).
Qed.

(** Two runs of digits, each followed by a space, that start equal texts
    are equal. *)
Lemma digits_then_space (d1 d2 x y : string) :
  forallb_string isDigit d1 = true -> forallb_string isDigit d2 = true ->
  d1 ++ String " " x = d2 ++ String " " y -> d1 = d2.
Proof.
  revert d2; induction d1 as [|a d1 IH]; intros d2 H1 H2 E.
  - destruct d2 as [|b d2]; [reflexivity|].
    simpl in E, H2. injection E as <- _. discriminate.
  - destruct d2 as [|b d2].
    + simpl in E, H1. injection E as -> _. discriminate.
    + simpl in E, H1, H2. injection E as -> E.
      apply andb_prop in H1, H2. f_equal. apply (IH d2); tauto.
Qed.

Lemma filename_position (p q : nat) (a t e a' t' e' : string) :
  filename p a t e = filename q a' t' e' -> p = q.
Proof.
  unfold filename. intros H. cbn [append] in H.
  repeat (injection H as H).
  apply format_02d_inj.
  exact (digits_then_space _ _ _ _ (format_02d_digits p) (format_02d_digits q) H).
Qed.

(** *** Sanitized names *)

Lemma byteVal_range (b : ascii) : (0 <= byteVal b < 256)%Z.
Proof.
  unfold byteVal. pose proof (nat_ascii_bounded b). lia.
Qed.

Lemma byteOf_byteVal (b : ascii) : byteOf (byteVal b) = b.
Proof.
  unfold byteOf, byteVal. rewrite Nat2Z.id. apply ascii_nat_embedding.
Qed.

Lemma byteVal_byteOf (v : Z) : (0 <= v < 256)%Z -> byteVal (byteOf v) = v.
Proof.
  intros H. unfold byteOf, byteVal.
  rewrite nat_ascii_embedding by lia. lia.
Qed.

Lemma isASCII_byteOf (v : Z) : (128 <= v < 256)%Z -> isASCII (byteOf v) = false.
Proof.
  intros H. unfold isASCII. rewrite byteVal_byteOf by lia. apply Z.ltb_ge. lia.
Qed.

Lemma filter_string_append (p : ascii -> bool) (s1 s2 : string) :
  filter_string p (s1 ++ s2) = filter_string p s1 ++ filter_string p s2.
Proof.
  induction s1 as [|b s1 IH]; simpl; [reflexivity|].
  destruct (p b); simpl; rewrite IH; reflexivity.
Qed.

Lemma encodeValid_not_ASCII (r : rune) :
  (128 <= r <= MaxRune)%Z -> filter_string isASCII (encodeValid r) = "".
Proof.
  unfold MaxRune, encodeValid. intros H.
  destruct (r <? 128)%Z eqn:E1; [apply Z.ltb_lt in E1; lia|].
  destruct (r <? 2048)%Z eqn:E2; [apply Z.ltb_lt in E2|apply Z.ltb_ge in E2].
  { cbn [filter_string].
    rewrite !isASCII_byteOf; [reflexivity| |];
      Z.div_mod_to_equations; lia. }
  destruct (r <? 65536)%Z eqn:E3; [apply Z.ltb_lt in E3|apply Z.ltb_ge in E3].
  { cbn [filter_string].
    rewrite !isASCII_byteOf; [reflexivity| | |];
      Z.div_mod_to_equations; lia. }
  cbn [filter_string].
  rewrite !isASCII_byteOf; [reflexivity| | | |];
    Z.div_mod_to_equations; lia.
Qed.

Lemma EncodeRune_not_ASCII (r : rune) :
  (128 <= r)%Z -> filter_string isASCII (EncodeRune r) = "".
Proof.
  intros H. unfold EncodeRune.
  destruct ((r <? 0)%Z || (MaxRune <? r)%Z || inRange 55296 57343 r) eqn:E.
  - vm_compute. reflexivity.
  - apply orb_false_elim in E. destruct E as [E _].
    apply orb_false_elim in E. destruct E as [_ E]. apply Z.ltb_ge in E.
    apply encodeValid_not_ASCII. lia.
Qed.

(** The first rune of a text is its first byte when that byte is ASCII;
    otherwise it is a rune beyond ASCII and the bytes after the first that
    belong to it are not ASCII either. *)
Lemma DecodeRuneInString_cases (c0 : ascii) (s1 : string) (c : rune) (w : nat) :
  DecodeRuneInString (String c0 s1) = (c, w) ->
  (isASCII c0 = true /\ c = byteVal c0 /\ w = 1)
  \/ (isASCII c0 = false /\ (128 <= c)%Z /\ continuation (w - 1) s1 = true).
Proof.
  unfold DecodeRuneInString, isASCII, inRange, acceptLo, acceptHi, RuneError.
  pose proof (byteVal_range c0) as R0.
  destruct (byteVal c0 <? 128)%Z eqn:E0.
  { intros H. injection H as <- <-. left. auto. }
  apply Z.ltb_ge in E0. intros H. right. split; [reflexivity|].
  repeat match type of H with
  | (if ?b then _ else _) = _ => destruct b eqn:?
  | (match ?s with "" => _ | String _ _ => _ end) = _ => destruct s
  end;
  injection H as <- <-;
  cbn [continuation Nat.sub]; unfold isASCII;
  repeat match goal with
  | E : negb _ = false |- _ => apply negb_false_iff in E
  | E : andb _ _ = true |- _ => apply andb_prop in E; destruct E
  | E : (_ <=? _)%Z = true |- _ => apply Z.leb_le in E
  | E : (_ <=? _)%Z = false |- _ => apply Z.leb_gt in E
  | E : (_ =? _)%Z = true |- _ => apply Z.eqb_eq in E
  | E : (_ =? _)%Z = false |- _ => apply Z.eqb_neq in E
  end;
  repeat match goal with
  | |- context [(byteVal ?b <? 128)%Z] =>
      let E := fresh in
      destruct (byteVal b <? 128)%Z eqn:E;
      [apply Z.ltb_lt in E|apply Z.ltb_ge in E]
  end;
  cbn [negb andb];
  repeat match goal with
  | H : context [(?x =? ?k)%Z] |- _ => destruct (Z.eqb_spec x k)
  end;
  try (exfalso; lia);
  try (split; [|reflexivity]);
  try (Z.div_mod_to_equations; lia).
Qed.

Lemma dropForbidden_ASCII (b : ascii) :
  isASCII b = true ->
  (if (dropForbidden (byteVal b) <? 0)%Z then ""
   else EncodeRune (dropForbidden (byteVal b)))
  = if ContainsByte forbidden b then "" else String b "".
Proof.
  unfold isASCII. intros H. apply Z.ltb_lt in H.
  pose proof (byteVal_range b) as R.
  unfold dropForbidden, ContainsRune, inRange.
  rewrite byteOf_byteVal.
  replace (0 <=? byteVal b)%Z with true by (symmetry; apply Z.leb_le; lia).
  replace (byteVal b <=? 127)%Z with true by (symmetry; apply Z.leb_le; lia).
  cbn [andb]. destruct (ContainsByte forbidden b); [reflexivity|].
  replace (byteVal b <? 0)%Z with false by (symmetry; apply Z.ltb_ge; lia).
  unfold EncodeRune, inRange, MaxRune.
  replace (byteVal b <? 0)%Z with false by (symmetry; apply Z.ltb_ge; lia).
  replace (1114111 <? byteVal b)%Z with false by (symmetry; apply Z.ltb_ge; lia).
  replace (55296 <=? byteVal b)%Z with false by (symmetry; apply Z.leb_gt; lia).
  cbn [orb andb]. unfold encodeValid.
  replace (byteVal b <? 128)%Z with true by (symmetry; apply Z.ltb_lt; lia).
  rewrite byteOf_byteVal. reflexivity.
Qed.

Lemma dropForbidden_beyond (c : rune) :
  (128 <= c)%Z ->
  filter_string isASCII
    (if (dropForbidden c <? 0)%Z then "" else EncodeRune (dropForbidden c)) = "".
Proof.
  intros H. unfold dropForbidden, ContainsRune, inRange.
  replace (c <=? 127)%Z with false by (symmetry; apply Z.leb_gt; lia).
  rewrite andb_false_r. cbn [andb].
  replace (c <? 0)%Z with false by (symmetry; apply Z.ltb_ge; lia).
  apply EncodeRune_not_ASCII. assumption.
Qed.

(** The ASCII bytes of the result of the rune loop are the ASCII bytes of
    its input that are not forbidden, in the same order. *)
Lemma mapRunes_ASCII (s : string) :
  forall skip,
    continuation skip s = true ->
    filter_string isASCII (mapRunes dropForbidden skip s)
    = filter_string (fun b => isASCII b && negb (ContainsByte forbidden b)) s.
Proof.
  induction s as [|b s IH]; intros skip Hskip; [reflexivity|].
  cbn [mapRunes filter_string].
  destruct skip as [|skip].
  - destruct (DecodeRuneInString (String b s)) as [c w] eqn:E.
    rewrite filter_string_append.
    destruct (DecodeRuneInString_cases b s c w E) as [[Hb [-> ->]]|[Hb [Hc Hw]]].
    + rewrite Hb, dropForbidden_ASCII by assumption. cbn [andb Nat.sub].
      destruct (ContainsByte forbidden b); cbn [negb filter_string append].
      * apply IH. reflexivity.
      * rewrite Hb. cbn [append]. f_equal. apply IH. reflexivity.
    + rewrite Hb, dropForbidden_beyond by assumption. cbn [andb append].
      apply IH. assumption.
  - cbn [continuation] in Hskip. apply andb_prop in Hskip.
    destruct Hskip as [Hb Hs]. apply negb_true_iff in Hb.
    rewrite Hb. cbn [andb]. apply IH. assumption.
Qed.

Lemma ContainsByte_filter (p : ascii -> bool) (s : string) (c : ascii) :
  ContainsByte (filter_string p s) c = p c && ContainsByte s c.
Proof.
  induction s as [|b s IH]; simpl; [rewrite andb_false_r; reflexivity|].
  destruct (Ascii.eqb_spec b c) as [->|Hne].
  - destruct (p c) eqn:Hp; simpl.
    + rewrite Ascii.eqb_refl. reflexivity.
    + exact IH.
  - destruct (p b); simpl; rewrite ?IH.
    + destruct (Ascii.eqb_spec b c); [contradiction|reflexivity].
    + reflexivity.
Qed.

(** No forbidden character is left in a sanitized name. *)
Lemma sanitizeFilename_clean (name : string) (c : ascii) :
  ContainsByte forbidden c = true ->
  ContainsByte (sanitizeFilename name) c = false.
Proof.
  intros Hc.
  assert (Hascii : isASCII c = true).
  { unfold forbidden in Hc. cbn [append ContainsByte] in Hc.
    repeat match type of Hc with
    | orb (Ascii.eqb ?x c) _ = true =>
        destruct (Ascii.eqb_spec x c) as [E|_];
        [rewrite <- E; reflexivity|cbn [orb] in Hc]
    end. discriminate. }
  assert (E : ContainsByte (sanitizeFilename name) c
              = ContainsByte (filter_string isASCII (sanitizeFilename name)) c).
  { rewrite ContainsByte_filter, Hascii. reflexivity. }
  rewrite E. unfold sanitizeFilename, Map.
  rewrite mapRunes_ASCII by reflexivity.
  rewrite ContainsByte_filter, Hc, Hascii. reflexivity.
Qed.

(** On an ASCII name sanitizing is deleting the forbidden characters. *)
Lemma sanitizeFilename_ASCII (name : string) :
  forallb_string isASCII name = true ->
  sanitizeFilename name
  = filter_string (fun b => negb (ContainsByte forbidden b)) name.
Proof.
  unfold sanitizeFilename, Map.
  induction name as [|b name IH]; intros H; [reflexivity|].
  cbn [forallb_string] in H. apply andb_prop in H. destruct H as [Hb Hname].
  cbn [mapRunes filter_string].
  destruct (DecodeRuneInString (String b name)) as [c w] eqn:E.
  destruct (DecodeRuneInString_cases b name c w E) as [[_ [-> ->]]|[Hb' _]];
    [|congruence].
  cbv zeta. rewrite dropForbidden_ASCII by assumption. cbn [Nat.sub].
  destruct (ContainsByte forbidden b); cbn [negb append]; rewrite IH by assumption;
    reflexivity.
Qed.

(** C7: [createFilenames] gives the track at index [i] (position [i + 1])
    the name made of the output directory, the position in decimal padded
    with zeros to two digits, " - ", the sanitized main artist, " - ", the
    sanitized main title and the extension; a sanitized name holds no
    forbidden character, keeps the other ASCII characters in order, and on
    an ASCII name sanitizing just deletes the forbidden characters; the
    names of two different positions differ; and whatever the interleaving
    of the workers, every command launched writes to the name computed for
    the position of its track. *)
Theorem createFilenames_numbered (tracks : list Track) (ext : string) :
  exists res,
    createFilenames tracks ext = Ret res
    /\ List.length res = List.length tracks
    /\ (forall i t,
          nth_error tracks i = Some t ->
          nth_error res i
          = Some (setOutputFilename t
                    (outputDir ++ "/" ++ format_02d (i + 1) ++ " - "
                       ++ sanitizeFilename (MainArtist t) ++ " - "
                       ++ sanitizeFilename (MainTitle t) ++ ext)))
    /\ (forall p,
          (p < 10 -> format_02d p = String "0" (String (ascii_of_nat (48 + p)) ""))
          /\ (10 <= p -> format_02d p = NilEmpty.string_of_uint (Nat.to_uint p)))
    /\ (forall a t e, filename 3 a t e = "output/03 - " ++ a ++ " - " ++ t ++ e)
    /\ (forall name c,
          ContainsByte forbidden c = true ->
          ContainsByte (sanitizeFilename name) c = false)
    /\ (forall name,
          filter_string isASCII (sanitizeFilename name)
          = filter_string
              (fun b => isASCII b && negb (ContainsByte forbidden b)) name)
    /\ (forall name,
          forallb_string isASCII name = true ->
          sanitizeFilename name
          = filter_string (fun b => negb (ContainsByte forbidden b)) name)
    /\ (forall i j ti tj,
          nth_error res i = Some ti -> nth_error res j = Some tj ->
          OutputFilename ti = OutputFilename tj -> i = j)
    /\ (forall format_f videoFlag inputPath album p,
          reachable format_f videoFlag inputPath res album p ->
          Forall (fun cmd =>
                    exists i t,
                      nth_error tracks i = Some t
                      /\ last cmd "" = fileNameOf ext i t)
            (launched p)).
Proof.
  destruct (createFilenames_spec tracks ext) as [res [E [Hlen Hnth]]].
  assert (Hget : forall i t, nth_error res i = Some t ->
            exists t0, nth_error tracks i = Some t0
                       /\ t = setOutputFilename t0 (fileNameOf ext i t0)).
  { intros i t Ei.
    destruct (nth_error tracks i) as [t0|] eqn:E0.
    - exists t0; split; [reflexivity|]. rewrite (Hnth i t0 E0) in Ei. congruence.
    - apply nth_error_None in E0.
      assert (Hs : nth_error res i <> None) by congruence.
      apply nth_error_Some in Hs. lia. }
  exists res. split; [exact E|]. split; [exact Hlen|].
  split; [exact Hnth|].
  split; [intros p; split; [apply format_02d_small|apply format_02d_large]|].
  split; [reflexivity|].
  split; [exact sanitizeFilename_clean|].
  split; [intros name; apply (mapRunes_ASCII name 0); reflexivity|].
  split; [exact sanitizeFilename_ASCII|].
  split.
  - intros i j ti tj Ei Ej Hname.
    destruct (Hget i ti Ei) as [t0 [_ ->]].
    destruct (Hget j tj Ej) as [t1 [_ ->]].
    cbn [OutputFilename setOutputFilename] in Hname. unfold fileNameOf in Hname.
    apply filename_position in Hname. lia.
  - intros format_f videoFlag inputPath album p Hreach.
    destruct (reachable_inv format_f videoFlag inputPath res album p Hreach)
      as [_ [_ [_ Hcmd]]].
    eapply Forall_impl; [|exact Hcmd].
    intros cmd [t [Hin Hlast]].
    apply In_nth_error in Hin. destruct Hin as [i Ei].
    destruct (Hget i t Ei) as [t0 [E0 ->]].
    exists i, t0. split; [assumption|]. rewrite Hlast. reflexivity.
Qed.

Lemma createFilenames_numbered_witness :
  (do res <- createFilenames
               [mkTrack zero zero "AC/DC" "What?" "" [] "";
                mkTrack zero zero "B" "C" "" [] ""] ".mp3";
   Ret (map OutputFilename res))
  = Ret ["output/01 - ACDC - What.mp3"; "output/02 - B - C.mp3"]
  /\ ContainsByte (sanitizeFilename "AC/DC") "/" = false.
Proof.
  destruct (createFilenames_numbered
              [mkTrack zero zero "AC/DC" "What?" "" [] "";
               mkTrack zero zero "B" "C" "" [] ""] ".mp3")
    as [res [E [_ [_ [_ [_ [Hclean _]]]]]]].
  split; [vm_compute; reflexivity|].
  apply Hclean. reflexivity.
Defined.

(** * Further properties of the program *)

(** ** Flags *)



(** ** The output directory *)

Lemma ToLower_y (toLower : rune -> rune) (r : string) :
  forallb_string isASCII r = true ->
  (ToLower toLower r = "y" <-> r = "y" \/ r = "Y").
Proof.
  intros Hascii. unfold ToLower. rewrite Hascii.
  destruct r as [|c [|d r]].
  - cbn. split; [discriminate|intros [H|H]; discriminate].
  - clear Hascii.
    destruct c as [[] [] [] [] [] [] [] []]; vm_compute;
      (split; [intros H; try discriminate; auto
              |intros [H|H]; try discriminate; auto]).
  - split.
    + destruct (negb (existsb_string isUpper (String c (String d r))));
        cbn [mapBytes]; discriminate.
    + intros [H|H]; discriminate.
Qed.

(** X2: [prepareOutputDir] removes the directory only after [os.Stat]
    found it and the answer lowers to "y"; on an ASCII answer other than
    "y" and "Y" it returns the cancellation error having neither removed
    nor created anything; without a directory it only creates one; and it
    returns no error only if its last call is a successful [os.Mkdir]. *)
Theorem prepareOutputDir_removes_on_yes (toLower : rune -> rune) (w : dir_world) :
  (In (RemoveAll outputDir) (snd (prepareOutputDir toLower w)) ->
   statOk w = true /\ ToLower toLower (response w) = "y")
  /\ (statOk w = true ->
      forallb_string isASCII (response w) = true ->
      response w <> "y" -> response w <> "Y" ->
      prepareOutputDir toLower w
      = (Some (ErrorsNew "user cancelled operation"),
         [Stat outputDir; Prompt "Output directory exists. Delete it? (y/n): ";
          Scanln]))
  /\ (statOk w = false ->
      prepareOutputDir toLower w
      = (option_map ErrMkdir (mkdirErr w), [Stat outputDir; Mkdir outputDir 493]))
  /\ (fst (prepareOutputDir toLower w) = None ->
      mkdirErr w = None
      /\ last (snd (prepareOutputDir toLower w)) Scanln = Mkdir outputDir 493).
Proof.
  unfold prepareOutputDir.
  split; [|split; [|split]].
  - destruct (statOk w).
    + destruct (String.eqb_spec (ToLower toLower (response w)) "y") as [E|E];
        cbn [negb].
      * intros _. auto.
      * cbn. intros [H|[H|[H|[]]]]; discriminate.
    + cbn. intros [H|[H|[]]]; discriminate.
  - intros Hs Hascii Hy HY. rewrite Hs.
    destruct (String.eqb_spec (ToLower toLower (response w)) "y") as [E|E];
      [|reflexivity].
    apply (ToLower_y toLower _ Hascii) in E. tauto.
  - intros Hs. rewrite Hs. reflexivity.
  - destruct (statOk w).
    + destruct (negb (String.eqb (ToLower toLower (response w)) "y"));
        [discriminate|].
      destruct (removeAllErr w); [discriminate|].
      destruct (mkdirErr w); [discriminate|]. cbn. auto.
    + destruct (mkdirErr w); [discriminate|]. cbn. auto.
Qed.

Lemma prepareOutputDir_removes_on_yes_witness :
  prepareOutputDir (fun r => r) (mkDirWorld true "n" None None)
  = (Some (ErrorsNew "user cancelled operation"),
     [Stat outputDir; Prompt "Output directory exists. Delete it? (y/n): ";
      Scanln]).
Proof.
  apply (proj1 (proj2 (prepareOutputDir_removes_on_yes
                         (fun r => r) (mkDirWorld true "n" None None))));
    [reflexivity|reflexivity|discriminate|discriminate].
Defined.

(** ** [main] *)

Lemma validateFlags_accepts_ext (f : flags) :
  (validateFlags f = None -> audioFlag f = negb (videoFlag f))
  /\ (validateFlags f = None ->
      getOutputExtension (audioFlag f) = if videoFlag f then ".mp4" else ".mp3").
Proof.
  unfold validateFlags, getOutputExtension.
  destruct (String.eqb (tracklistPath f) "" || String.eqb (inputPath f) "");
    [split; discriminate|].
  destruct (audioFlag f), (videoFlag f); cbn; split; try discriminate; auto.
Qed.

Section MainFacts.

Variable toLower : rune -> rune.
Variable parseFloat : string -> option float64.
Variable openFile : string -> error + scanner.
Variable ffprobe : list string -> string + string.

(** X3: [main] never panics during its setup, and it calls nothing on the
    output directory unless the flags are valid, the tracklist parsed and
    the duration was probed; when it exits on one of these failures the
    directory is as it was. *)
Theorem main_touches_directory_last (w : dir_world) (f : flags) :
  fst (main toLower parseFloat openFile ffprobe w f) <> Crashed
  /\ (snd (main toLower parseFloat openFile ffprobe w f) <> [] ->
      validateFlags f = None
      /\ (exists tracks album,
            parseTracklist (openFile (tracklistPath f)) = Ret (tracks, album))
      /\ (exists duration,
            getMediaDuration ffprobe parseFloat (inputPath f) = inr duration)
      /\ snd (main toLower parseFloat openFile ffprobe w f)
         = snd (prepareOutputDir toLower w)).
Proof.
  unfold main.
  destruct (validateFlags f) as [err|]; [split; [discriminate|intros H; now elim H]|].
  pose proof (parseTracklist_no_panic (openFile (tracklistPath f))) as Hnp.
  destruct (parseTracklist (openFile (tracklistPath f))) as [[tracks album]|err|];
    [|split; [discriminate|intros H; now elim H]|now elim Hnp].
  destruct (getMediaDuration ffprobe parseFloat (inputPath f)) as [err|duration];
    [split; [discriminate|intros H; now elim H]|].
  destruct (prepareOutputDir toLower w) as [[err|] actions] eqn:Ep.
  - split; [discriminate|]. intros _. cbn [snd]. eauto 10.
  - destruct (calculateEndTimes_spec tracks duration) as [resolved [-> _]].
    destruct (createFilenames_spec resolved (getOutputExtension (audioFlag f)))
      as [named [-> _]].
    split; [discriminate|]. intros _. cbn [snd]. eauto 10.
Qed.

(** X4: when [main] starts the pipeline, it passes the tracks of the
    tracklist in their order, each with the end time of the resolver (the
    start of the next track, the probed duration for the last) and the file
    name of its position, everything else as parsed; the album is the
    header line and the extension is the one of the selected mode. *)
Theorem main_starts_with_resolved_tracks (w : dir_world) (f : flags)
    (named : list Track) (ext album : string) :
  fst (main toLower parseFloat openFile ffprobe w f) = Started named ext album ->
  exists tracks duration,
    parseTracklist (openFile (tracklistPath f)) = Ret (tracks, album)
    /\ getMediaDuration ffprobe parseFloat (inputPath f) = inr duration
    /\ fst (prepareOutputDir toLower w) = None
    /\ ext = (if videoFlag f then ".mp4" else ".mp3")
    /\ List.length named = List.length tracks
    /\ forall i t,
         nth_error tracks i = Some t ->
         nth_error named i
         = Some (mkTrack (StartTime t) (endOf (map StartTime tracks) duration i)
                   (MainArtist t) (MainTitle t) (MainLabel t) (Additional t)
                   (fileNameOf ext i t)).
Proof.
  unfold main.
  pose proof (proj2 (validateFlags_accepts_ext f)) as Hext.
  destruct (validateFlags f) as [err|]; [discriminate|].
  destruct (parseTracklist (openFile (tracklistPath f))) as [[tracks album']|err|];
    try discriminate.
  destruct (getMediaDuration ffprobe parseFloat (inputPath f)) as [err|duration];
    [discriminate|].
  destruct (prepareOutputDir toLower w) as [[err|] actions]; [discriminate|].
  destruct (calculateEndTimes_spec tracks duration)
    as [resolved [-> [Hlen1 Hnth1]]].
  destruct (createFilenames_spec resolved (getOutputExtension (audioFlag f)))
    as [named' [-> [Hlen2 Hnth2]]].
  cbn [fst]. intros H. injection H as -> <- ->.
  exists tracks, duration. rewrite (Hext eq_refl).
  repeat (split; [reflexivity|]). split; [congruence|].
  intros i t Ei. rewrite (Hnth2 i _ (Hnth1 i t Ei)).
  rewrite <- (Hext eq_refl). reflexivity.
Qed.

End MainFacts.

Lemma main_touches_directory_last_witness :
  validateFlags (mkFlags "list.txt" true false "set.mp4") = None
  /\ exists tracks album,
       parseTracklist (inr (mkScanner ["Album"; "[0:00] A - B"] None))
       = Ret (tracks, album).
Proof.
  destruct (proj2 (main_touches_directory_last (fun r => r)
                     (fun _ => Some (of_int 60))
                     (fun _ => inr (mkScanner ["Album"; "[0:00] A - B"] None))
                     (fun _ => inl "60")
                     (mkDirWorld false "" None None)
                     (mkFlags "list.txt" true false "set.mp4")))
    as [H1 [H2 _]]; [vm_compute; discriminate|].
  split; assumption.
Defined.

Lemma main_starts_with_resolved_tracks_witness :
  exists tracks duration,
    parseTracklist (inr (mkScanner ["Album"; "[0:00] A - B"] None))
    = Ret (tracks, "Album")
    /\ getMediaDuration (fun _ => inl "60") (fun _ => Some (of_int 60)) "set.mp4"
       = inr duration.
Proof.
  destruct (main_starts_with_resolved_tracks (fun r => r)
              (fun _ => Some (of_int 60))
              (fun _ => inr (mkScanner ["Album"; "[0:00] A - B"] None))
              (fun _ => inl "60")
              (mkDirWorld false "" None None)
              (mkFlags "list.txt" true false "set.mp4")
              [mkTrack zero (of_int 60) "A" "B" "" [] "output/01 - A - B.mp3"]
              ".mp3" "Album")
    as [tracks [duration [H1 [H2 _]]]]; [vm_compute; reflexivity|].
  exists tracks, duration. split; assumption.
Defined.

(** ** The separator of artist and title *)

Lemma HasPrefix_self (sep s : string) : HasPrefix (sep ++ s) sep = true.
Proof.
  induction sep as [|p sep IH]; [reflexivity|].
  simpl. rewrite Ascii.eqb_refl, IH. reflexivity.
Qed.

Lemma HasPrefix_split (s sep : string) :
  HasPrefix s sep = true -> s = sep ++ drop (String.length sep) s.
Proof.
  revert s; induction sep as [|p sep IH]; intros s H; [reflexivity|].
  destruct s as [|a s]; [discriminate|].
  simpl in H. apply andb_prop in H. destruct H as [Ha Hs].
  apply Ascii.eqb_eq in Ha. subst a. simpl. f_equal. apply IH. assumption.
Qed.

Lemma Cut_Some (s sep before after : string) :
  Cut s sep = Some (before, after) -> s = before ++ sep ++ after.
Proof.
  revert before; induction s as [|a s IH]; intros before H.
  - cbn [Cut] in H. destruct (HasPrefix "" sep) eqn:Hp; [|discriminate].
    injection H as <- <-. apply (HasPrefix_split "" sep Hp).
  - cbn [Cut] in H. destruct (HasPrefix (String a s) sep) eqn:Hp.
    + injection H as <- <-. apply (HasPrefix_split _ sep Hp).
    + destruct (Cut s sep) as [[b0 a0]|] eqn:E; [|discriminate].
      injection H as <- <-. simpl. f_equal. apply IH. reflexivity.
Qed.

(** [Cut] finds the first occurrence: no occurrence starts earlier. *)
Lemma Cut_first (s sep before after : string) :
  Cut s sep = Some (before, after) ->
  forall before' after',
    s = before' ++ sep ++ after' -> String.length before <= String.length before'.
Proof.
  revert before; induction s as [|a s IH]; intros before H before' after' E.
  - cbn [Cut] in H. destruct (HasPrefix "" sep); [|discriminate].
    injection H as <- <-. simpl. lia.
  - cbn [Cut] in H. destruct (HasPrefix (String a s) sep) eqn:Hp.
    + injection H as <- <-. simpl. lia.
    + destruct (Cut s sep) as [[b0 a0]|] eqn:E0; [|discriminate].
      injection H as <- <-.
      destruct before' as [|c before'].
      * simpl in E. rewrite E, HasPrefix_self in Hp. discriminate.
      * simpl in E. injection E as _ E. simpl.
        apply le_n_S. apply (IH b0 eq_refl before' after' E).
Qed.

Lemma Cut_None (s sep : string) :
  Cut s sep = None -> forall before after, s <> before ++ sep ++ after.
Proof.
  induction s as [|a s IH]; intros H before after E.
  - cbn [Cut] in H. destruct (HasPrefix "" sep) eqn:Hp; [discriminate|].
    destruct before; [|discriminate]. simpl in E.
    rewrite E, HasPrefix_self in Hp. discriminate.
  - cbn [Cut] in H. destruct (HasPrefix (String a s) sep) eqn:Hp; [discriminate|].
    destruct (Cut s sep) as [[b0 a0]|] eqn:E0; [discriminate|].
    destruct before as [|c before].
    + simpl in E. rewrite E, HasPrefix_self in Hp. discriminate.
    + simpl in E. injection E as _ E. apply (IH eq_refl before after E).
Qed.

(** The part before the first occurrence holds no occurrence. *)
Lemma Cut_before_clean (s sep before after : string) :
  sep <> "" -> Cut s sep = Some (before, after) -> Cut before sep = None.
Proof.
  intros Hsep H.
  destruct (Cut before sep) as [[x y]|] eqn:E; [|reflexivity].
  apply Cut_Some in E.
  assert (Es : s = x ++ sep ++ (y ++ sep ++ after)).
  { rewrite (Cut_Some _ _ _ _ H), E, !append_assoc. reflexivity. }
  pose proof (Cut_first _ _ _ _ H x _ Es) as Hle.
  rewrite E, !length_append in Hle.
  destruct sep; [congruence|simpl in Hle; lia].
Qed.

(** X5: [parseArtistTitle] splits at the first " - ": the text is the
    artist, the separator and the title, and no occurrence of the separator
    starts before the one it used, so the artist holds none; it succeeds
    whenever the text holds the separator and fails with the artist/title
    error exactly when the text holds none. *)
Theorem parseArtistTitle_first_separator (s : string) :
  (forall artist title,
      parseArtistTitle s = Ret (artist, title) ->
      s = artist ++ " - " ++ title
      /\ Cut artist " - " = None
      /\ forall artist' title',
           s = artist' ++ " - " ++ title' ->
           String.length artist <= String.length artist')
  /\ ((exists artist' title', s = artist' ++ " - " ++ title') ->
      exists artist title, parseArtistTitle s = Ret (artist, title))
  /\ (parseArtistTitle s = Fail (ErrArtistTitle s)
      <-> forall artist' title', s <> artist' ++ " - " ++ title').
Proof.
  rewrite parseArtistTitle_Cut.
  destruct (Cut s " - ") as [[a t]|] eqn:E.
  - split; [|split].
    + intros artist title H. injection H as <- <-.
      split; [exact (Cut_Some _ _ _ _ E)|].
      split; [apply (Cut_before_clean s " - " a t); [discriminate|exact E]|].
      exact (Cut_first _ _ _ _ E).
    + intros _. eauto.
    + split; [discriminate|]. intros H. exfalso.
      apply (H a t). exact (Cut_Some _ _ _ _ E).
  - split; [|split].
    + discriminate.
    + intros [a' [t' H]]. exfalso. exact (Cut_None _ _ E a' t' H).
    + split; [intros _; exact (Cut_None _ _ E)|reflexivity].
Qed.

Lemma parseArtistTitle_first_separator_witness :
  "A - B - C" = "A" ++ " - " ++ "B - C" /\ Cut "A" " - " = None.
Proof.
  destruct (proj1 (parseArtistTitle_first_separator "A - B - C") "A" "B - C"
              eq_refl) as [H1 [H2 _]].
  split; assumption.
Defined.

(** ** Lines the parser passes over, and the number of tracks *)

Lemma parseLine_blank (st : parser) (text : string) :
  TrimSpace text = "" -> parseLine st text = Ret st.
Proof. intros H. unfold parseLine. rewrite H. reflexivity. Qed.

Lemma opens_track_is_track_line (text : string) :
  opens_track text = true -> is_track_line text = true.
Proof.
  unfold opens_track, is_track_line.
  destruct (FindStringSubmatch lineRe 3 (TrimSpace text)); [reflexivity|discriminate].
Qed.

Lemma is_open_None (st : parser) : is_open st = false -> currentTrack st = None.
Proof. unfold is_open. destruct (currentTrack st); [discriminate|reflexivity]. Qed.

(** X6: a line that is blank, or that neither [lineRe] matches nor starts
    with [w/], or that starts with [w/] before any track was opened, can be
    taken out of the file without changing what [parseTracklist] returns. *)
Theorem ignored_lines (header text : string) (before after : list string)
    (serr : option error) :
  TrimSpace text = ""
  \/ (is_track_line text = false /\ HasPrefix (TrimSpace text) "w/" = false)
  \/ (HasPrefix (TrimSpace text) "w/" = true
      /\ existsb opens_track before = false) ->
  parseTracklist (inr (mkScanner (header :: before ++ text :: after)%list serr))
  = parseTracklist (inr (mkScanner (header :: before ++ after)%list serr)).
Proof.
  intros H. unfold parseTracklist. cbn [tokens hd tl scanErr].
  rewrite !parseLines_app.
  destruct (parseLines (mkParser [] None) before) as [st| |] eqn:Eb;
    [|reflexivity|reflexivity].
  cbn [bind parseLines].
  assert (Hl : parseLine st text = Ret st).
  { destruct H as [H|[[H1 H2]|[H1 H2]]].
    - apply parseLine_blank; assumption.
    - apply parseLine_other; [|assumption].
      unfold is_track_line in H1.
      destruct (FindStringSubmatch lineRe 3 (TrimSpace text));
        [discriminate|reflexivity].
    - destruct (parseLines_open before _ _ Eb) as [_ Hopen].
      { intros Hne. exfalso. apply Hne. reflexivity. }
      rewrite H2 in Hopen. cbn in Hopen.
      rewrite (parseLine_with st text H1). unfold withLine.
      rewrite (is_open_None st Hopen). reflexivity. }
  rewrite Hl. reflexivity.
Qed.

Lemma ignored_lines_witness :
  parseTracklist
    (inr (mkScanner ("Album" :: ["w/ C - D"] ++ "# note" :: ["[0:00] A - B"])%list None))
  = parseTracklist
      (inr (mkScanner ("Album" :: ["w/ C - D"] ++ ["[0:00] A - B"])%list None)).
Proof.
  apply ignored_lines. right. left. split; reflexivity.
Defined.

(** One iteration of the loop stores one track exactly when the line is a
    track-start line and a track is open or the line opens one. *)
Lemma parseLine_count (st st' : parser) (text : string) :
  parseLine st text = Ret st' ->
  List.length (flush st')
  = List.length (flush st)
    + Nat.b2n (is_track_line text && (is_open st || opens_track text)).
Proof.
  intros H. unfold is_track_line, opens_track.
  destruct (FindStringSubmatch lineRe 3 (TrimSpace text)) as [matches|] eqn:E.
  - rewrite (parseLine_track st text matches E) in H.
    destruct (lineRe_timestamp _ _ E) as [m0 [ts [rest [label [-> _]]]]].
    rewrite trackLine_eq in H. cbn [nth andb].
    destruct (parseTimestamp ts) as [start| |]; cbn [bind] in H;
      try discriminate.
    destruct (HasSuffix rest "On Stage").
    + injection H as <-. cbn [negb]. rewrite orb_false_r.
      unfold flush at 1, is_open. cbn [currentTrack tracks].
      destruct (currentTrack st) as [t|] eqn:Ht; cbn [Nat.b2n].
      * rewrite length_app. reflexivity.
      * lia.
    + destruct (parseArtistTitle rest) as [[artist title]| |]; cbn [bind] in H;
        try discriminate.
      injection H as <-. cbn [negb]. rewrite orb_true_r.
      unfold flush at 1. cbn [currentTrack tracks Nat.b2n].
      rewrite length_app. reflexivity.
  - cbn [andb Nat.b2n]. rewrite Nat.add_0_r.
    unfold parseLine in H. rewrite E in H.
    destruct (String.eqb (TrimSpace text) ""); [injection H as <-; reflexivity|].
    destruct (HasPrefix (TrimSpace text) "w/"); [|injection H as <-; reflexivity].
    destruct (currentTrack st) as [t|] eqn:Ht.
    + rewrite (withLine_eq st t _ Ht) in H.
      destruct (FindStringSubmatch wRe 2 (TrimSpace text)) as [ms|];
        [|injection H as <-; reflexivity].
      destruct (parseArtistTitle (nth 1 ms "")) as [[artist title]| |];
        cbn [bind] in H; try discriminate.
      injection H as <-. unfold flush. rewrite Ht. cbn [currentTrack tracks].
      rewrite !length_app. reflexivity.
    + unfold withLine in H. rewrite Ht in H. injection H as <-. reflexivity.
Qed.

Lemma parseLines_count_open (lines : list string) :
  forall st st',
    parseLines st lines = Ret st' ->
    stored_after_open st -> is_open st = true ->
    List.length (flush st')
    = List.length (flush st) + List.length (filter is_track_line lines).
Proof.
  induction lines as [|text lines IH]; intros st st' H Hinv Hopen.
  - injection H as <-. simpl. lia.
  - cbn [parseLines] in H.
    destruct (parseLine st text) as [st1| |] eqn:E1; cbn [bind] in H;
      try discriminate.
    destruct (parseLine_open st st1 text E1 Hinv) as [Hinv1 Hopen1].
    rewrite Hopen in Hopen1. cbn [orb] in Hopen1.
    rewrite (IH st1 st' H Hinv1 Hopen1), (parseLine_count st st1 text E1), Hopen.
    cbn [orb filter]. rewrite andb_true_r.
    destruct (is_track_line text); simpl; lia.
Qed.

Lemma parseLines_count (lines : list string) :
  forall st st',
    parseLines st lines = Ret st' ->
    stored_after_open st -> is_open st = false ->
    List.length (flush st')
    = List.length (flush st)
      + List.length (filter is_track_line (from_first_open lines)).
Proof.
  induction lines as [|text lines IH]; intros st st' H Hinv Hopen.
  - injection H as <-. simpl. lia.
  - cbn [parseLines] in H.
    destruct (parseLine st text) as [st1| |] eqn:E1; cbn [bind] in H;
      try discriminate.
    destruct (parseLine_open st st1 text E1 Hinv) as [Hinv1 Hopen1].
    rewrite Hopen in Hopen1. cbn [orb] in Hopen1.
    pose proof (parseLine_count st st1 text E1) as Hc.
    rewrite Hopen in Hc. cbn [orb from_first_open] in Hc |- *.
    destruct (opens_track text) eqn:Eo.
    + rewrite (parseLines_count_open lines st1 st' H Hinv1 Hopen1), Hc.
      cbn [filter]. rewrite (opens_track_is_track_line text Eo). simpl. lia.
    + rewrite (IH st1 st' H Hinv1 Hopen1), Hc.
      rewrite andb_false_r. simpl. lia.
Qed.

(** X7: when parsing succeeds, the number of tracks returned is the number
    of track-start lines, stage announcements included, counted from the
    first line that opens a track; track-start lines before it, which can
    only be stage announcements, add nothing. *)
Theorem parseTracklist_track_count (sc : scanner) (result : list Track)
    (header : string) :
  parseTracklist (inr sc) = Ret (result, header) ->
  List.length result
  = List.length (filter is_track_line (from_first_open (tl (tokens sc)))).
Proof.
  unfold parseTracklist. intros H.
  destruct (parseLines (mkParser [] None) (tl (tokens sc))) as [st| |] eqn:E;
    cbn [bind] in H; try discriminate.
  destruct (scanErr sc); [discriminate|]. injection H as <- _.
  rewrite (parseLines_count _ _ _ E); [reflexivity| |reflexivity].
  intros Hne. exfalso. apply Hne. reflexivity.
Qed.

Lemma parseTracklist_track_count_witness :
  List.length
    [mkTrack zero zero "A" "B" "" [] ""; mkTrack zero zero "A" "B" "" [] ""]
  = List.length
      (filter is_track_line
         (from_first_open
            ["[0:00:10] X On Stage"; "[0:00:00] A - B"; "[0:00:30] DJ On Stage"])).
Proof.
  apply (parseTracklist_track_count
           (mkScanner ["Album"; "[0:00:10] X On Stage"; "[0:00:00] A - B";
                       "[0:00:30] DJ On Stage"] None) _ "Album").
  vm_compute. reflexivity.
Defined.

(** ** What a parsed track holds *)

Lemma all_as_parsed_flush (st : parser) :
  all_as_parsed st -> Forall as_parsed (flush st).
Proof.
  intros [Hs Hc]. unfold flush. destruct (currentTrack st) as [t|]; [|assumption].
  apply Forall_app. split; [assumption|]. constructor; [|constructor].
  apply Hc. reflexivity.
Qed.

Lemma parseLine_as_parsed (st st' : parser) (text : string) :
  parseLine st text = Ret st' -> all_as_parsed st -> all_as_parsed st'.
Proof.
  intros H Hinv.
  destruct (FindStringSubmatch lineRe 3 (TrimSpace text)) as [matches|] eqn:E.
  - rewrite (parseLine_track st text matches E) in H.
    destruct (lineRe_timestamp _ _ E) as [m0 [ts [rest [label [-> _]]]]].
    rewrite trackLine_eq in H.
    destruct (parseTimestamp ts) as [start| |]; cbn [bind] in H;
      try discriminate.
    destruct (HasSuffix rest "On Stage") eqn:Hstage.
    + injection H as <-. split; cbn [tracks currentTrack].
      * apply all_as_parsed_flush. assumption.
      * apply Hinv.
    + rewrite parseArtistTitle_Cut in H.
      destruct (Cut rest " - ") as [[artist title]|] eqn:Ec; cbn [bind] in H;
        try discriminate.
      injection H as <-. split; cbn [tracks currentTrack].
      * apply all_as_parsed_flush. assumption.
      * intros t Ht. injection Ht as <-.
        unfold as_parsed.
        cbn [EndTime OutputFilename MainArtist MainTitle Additional].
        repeat split.
        -- apply (Cut_before_clean rest " - " artist title); [discriminate|exact Ec].
        -- rewrite <- (Cut_Some _ _ _ _ Ec). exact Hstage.
        -- constructor.
  - unfold parseLine in H. rewrite E in H.
    destruct (String.eqb (TrimSpace text) ""); [injection H as <-; assumption|].
    destruct (HasPrefix (TrimSpace text) "w/"); [|injection H as <-; assumption].
    destruct (currentTrack st) as [t|] eqn:Ht.
    + rewrite (withLine_eq st t _ Ht) in H.
      destruct (FindStringSubmatch wRe 2 (TrimSpace text)) as [ms|];
        [|injection H as <-; assumption].
      rewrite parseArtistTitle_Cut in H.
      destruct (Cut (nth 1 ms "") " - ") as [[artist title]|] eqn:Ec;
        cbn [bind] in H; try discriminate.
      injection H as <-. destruct Hinv as [Hs Hc].
      split; cbn [tracks currentTrack]; [assumption|].
      intros t' Ht'. injection Ht' as <-.
      destruct (Hc t Ht) as [H1 [H2 [H3 [H4 H5]]]].
      unfold as_parsed.
      cbn [EndTime OutputFilename MainArtist MainTitle Additional].
      repeat (split; [assumption|]).
      apply Forall_app. split; [assumption|]. constructor; [|constructor].
      cbn [Artist].
      apply (Cut_before_clean (nth 1 ms "") " - " artist title);
        [discriminate|exact Ec].
    + unfold withLine in H. rewrite Ht in H. injection H as <-. assumption.
Qed.

Lemma parseLines_as_parsed (lines : list string) :
  forall st st',
    parseLines st lines = Ret st' -> all_as_parsed st -> all_as_parsed st'.
Proof.
  induction lines as [|text lines IH]; intros st st' H Hinv.
  - injection H as <-. assumption.
  - cbn [parseLines] in H.
    destruct (parseLine st text) as [st1| |] eqn:E1; cbn [bind] in H;
      try discriminate.
    apply (IH st1 st' H). apply (parseLine_as_parsed st st1 text E1 Hinv).
Qed.

(** X8: every track [parseTracklist] returns has its end time and its file
    name still unset, an artist that holds no " - ", artist and title that
    together do not end with "On Stage" (no stage announcement is ever
    returned as a track), and additional tracks whose artists hold no
    " - ". *)
Theorem parseTracklist_tracks_as_parsed (file : error + scanner)
    (result : list Track) (header : string) :
  parseTracklist file = Ret (result, header) ->
  Forall (fun t =>
            EndTime t = zero
            /\ OutputFilename t = ""
            /\ Cut (MainArtist t) " - " = None
            /\ HasSuffix (MainArtist t ++ " - " ++ MainTitle t) "On Stage" = false
            /\ Forall (fun add => Cut (Artist add) " - " = None) (Additional t))
    result.
Proof.
  destruct file as [err|sc]; [discriminate|]. unfold parseTracklist. intros H.
  destruct (parseLines (mkParser [] None) (tl (tokens sc))) as [st| |] eqn:E;
    cbn [bind] in H; try discriminate.
  destruct (scanErr sc); [discriminate|]. injection H as <- _.
  apply (all_as_parsed_flush st).
  apply (parseLines_as_parsed _ _ _ E).
  split; [constructor|discriminate].
Qed.

Lemma parseTracklist_tracks_as_parsed_witness :
  Forall (fun t =>
            EndTime t = zero
            /\ OutputFilename t = ""
            /\ Cut (MainArtist t) " - " = None
            /\ HasSuffix (MainArtist t ++ " - " ++ MainTitle t) "On Stage" = false
            /\ Forall (fun add => Cut (Artist add) " - " = None) (Additional t))
    [mkTrack zero zero "A" "B - C" "L" [mkAdditionalTrack "D" "E" ""] ""].
Proof.
  apply (parseTracklist_tracks_as_parsed
           (inr (mkScanner ["Album"; "[0:00] A - B - C [L]"; "w/ D - E"] None))
           _ "Album").
  vm_compute. reflexivity.
Defined.

(** ** Timestamps of digits *)

Lemma isDigit_digitVal (c : ascii) :
  isDigit c = true -> (0 <= digitVal c <= 9)%Z.
Proof.
  unfold isDigit, digitVal. intros H. apply andb_prop in H. destruct H as [H1 H2].
  apply Nat.leb_le in H1, H2. lia.
Qed.

Lemma parseUintLoop_digits (s0 : string) (s : string) :
  forall (n : Z) (k : nat),
    forallb_string isDigit s = true ->
    (0 <= n < 10 ^ Z.of_nat k)%Z ->
    k + String.length s <= 18 ->
    exists v, parseUintLoop s0 s n = inl v
              /\ (0 <= v < 10 ^ Z.of_nat (k + String.length s))%Z.
Proof.
  induction s as [|c s IH]; intros n k Hd Hn Hk.
  - exists n. simpl. rewrite Nat.add_0_r. auto.
  - cbn [forallb_string] in Hd. apply andb_prop in Hd. destruct Hd as [Hc Hs].
    pose proof (isDigit_digitVal c Hc) as Hv.
    cbn [String.length] in Hk.
    assert (Hpow : (10 ^ Z.of_nat (S k) = 10 * 10 ^ Z.of_nat k)%Z).
    { rewrite Nat2Z.inj_succ. apply Z.pow_succ_r. lia. }
    assert (H17 : (10 ^ Z.of_nat k <= 10 ^ 17)%Z)
      by (apply Z.pow_le_mono_r; lia).
    assert (H1e17 : (10 ^ 17 = 100000000000000000)%Z) by reflexivity.
    cbn [parseUintLoop]. rewrite Hc. cbn [negb].
    assert (E1 : (maxUint64 / 10 + 1 <=? n)%Z = false).
    { apply Z.leb_gt. change (maxUint64 / 10 + 1)%Z with 1844674407370955162%Z. lia. }
    rewrite E1.
    assert (E2 : (maxUint64 <? n * 10 + digitVal c)%Z = false).
    { apply Z.ltb_ge. change maxUint64 with 18446744073709551615%Z. lia. }
    rewrite E2.
    destruct (IH (n * 10 + digitVal c)%Z (S k) Hs) as [v [Ev Hb]]; [lia|lia|].
    exists v. split; [exact Ev|]. cbn [String.length].
    replace (k + S (String.length s)) with (S k + String.length s) by lia.
    exact Hb.
Qed.

(** [Atoi] reads a run of at most 18 digits as a number that is not
    negative. *)
Lemma Atoi_digits (s : string) :
  s <> "" -> forallb_string isDigit s = true -> String.length s <= 18 ->
  exists v, Atoi s = inl v /\ (0 <= v < 10 ^ 18)%Z.
Proof.
  intros Hne Hd Hlen. destruct s as [|c s]; [congruence|].
  assert (Hc : isDigit c = true).
  { cbn [forallb_string] in Hd. apply andb_prop in Hd. tauto. }
  assert (Hsign : isSign c = false).
  { unfold isSign.
    destruct (Ascii.eqb_spec c "+") as [->|_]; [discriminate|].
    destruct (Ascii.eqb_spec c "-") as [->|_]; [discriminate|]. reflexivity. }
  assert (Hneg : Ascii.eqb c "-" = false).
  { destruct (Ascii.eqb_spec c "-") as [->|_]; [discriminate|reflexivity]. }
  destruct (parseUintLoop_digits (String c s) (String c s) 0%Z 0 Hd) as [v [Ev Hb]];
    [simpl; lia|simpl; simpl in Hlen; lia|].
  exists v. unfold Atoi. rewrite Hsign, Hneg, Ev. cbn [negb andb].
  assert (Hle : (10 ^ Z.of_nat (0 + String.length (String c s)) <= 10 ^ 18)%Z)
    by (apply Z.pow_le_mono_r; lia).
  assert (E : (2 ^ 63 <=? v)%Z = false).
  { apply Z.leb_gt. change (2 ^ 63)%Z with 9223372036854775808%Z.
    change (10 ^ 18)%Z with 1000000000000000000%Z in Hle. lia. }
  rewrite E. split; [reflexivity|lia].
Qed.

Lemma lang_Star_Chr_intro (g : bool) (p : ascii -> bool) (s : string) :
  forallb_string p s = true -> lang (Star g (Chr p)) s.
Proof.
  induction s as [|b s IH]; intros H; [apply lang_Star_nil|].
  simpl in H. apply andb_prop in H. destruct H as [Hb Hs].
  change (String b s) with (String b "" ++ s).
  apply lang_Star_cons; [discriminate|apply lang_Chr; assumption|auto].
Qed.

Lemma lang_timeRe_two (m s : string) :
  m <> "" -> forallb_string digit m = true ->
  s <> "" -> forallb_string digit s = true ->
  lang timeRe (m ++ ":" ++ s).
Proof.
  intros Hm Dm Hs Ds. unfold timeRe, Plus, Opt, Lit.
  apply lang_Cat; [apply lang_Plus_Chr_intro; assumption|].
  change (":" ++ s) with ("" ++ "" ++ ":" ++ s).
  apply lang_Cat; [apply lang_Alt_r, lang_Eps|].
  apply lang_Cat; [apply lang_Star_nil|].
  apply lang_Cat; [apply lang_Chr, Ascii.eqb_refl|].
  apply lang_Plus_Chr_intro; assumption.
Qed.

Lemma lang_timeRe_three (h m s : string) :
  h <> "" -> forallb_string digit h = true ->
  forallb_string digit m = true ->
  s <> "" -> forallb_string digit s = true ->
  lang timeRe (h ++ ":" ++ m ++ ":" ++ s).
Proof.
  intros Hh Dh Dm Hs Ds. unfold timeRe, Plus, Opt, Lit.
  apply lang_Cat; [apply lang_Plus_Chr_intro; assumption|].
  apply lang_Cat; [apply lang_Alt_l, lang_Chr, Ascii.eqb_refl|].
  apply lang_Cat; [apply lang_Star_Chr_intro; assumption|].
  apply lang_Cat; [apply lang_Chr, Ascii.eqb_refl|].
  apply lang_Plus_Chr_intro; assumption.
Qed.

(** A field of a timestamp as it is written: some digits, at most 18. *)
Lemma field_value (field : string) :
  field <> "" -> forallb_string digit field = true ->
  String.length field <= 18 ->
  exists v, Atoi field = inl v /\ (0 <= v < 10 ^ 18)%Z.
Proof. intros Hne Hd Hlen. apply Atoi_digits; assumption. Qed.

(** X9: a timestamp of two or three fields of one to 18 digits each never
    fails: [parseTimestamp] returns the seconds plus 60 times the minutes
    (plus 3600 times the hours), in [float64] arithmetic, of the numbers
    [Atoi] reads, none of them negative; a timestamp with an empty middle
    field, which [lineRe] lets through, fails with the syntax error of the
    empty text. *)
Theorem parseTimestamp_digit_fields :
  (forall m s,
      m <> "" -> forallb_string digit m = true -> String.length m <= 18 ->
      s <> "" -> forallb_string digit s = true -> String.length s <= 18 ->
      exists mv sv,
        Atoi m = inl mv /\ Atoi s = inl sv
        /\ (0 <= mv)%Z /\ (0 <= sv)%Z
        /\ parseTimestamp (m ++ ":" ++ s)
           = Ret (add (add zero (mul (of_int sv) (of_int 1)))
                      (mul (of_int mv) (of_int 60))))
  /\ (forall h m s,
        h <> "" -> forallb_string digit h = true -> String.length h <= 18 ->
        m <> "" -> forallb_string digit m = true -> String.length m <= 18 ->
        s <> "" -> forallb_string digit s = true -> String.length s <= 18 ->
        exists hv mv sv,
          Atoi h = inl hv /\ Atoi m = inl mv /\ Atoi s = inl sv
          /\ (0 <= hv)%Z /\ (0 <= mv)%Z /\ (0 <= sv)%Z
          /\ parseTimestamp (h ++ ":" ++ m ++ ":" ++ s)
             = Ret (add (add (add zero (mul (of_int sv) (of_int 1)))
                             (mul (of_int mv) (of_int 60)))
                        (mul (of_int hv) (of_int 3600))))
  /\ (forall h s,
        h <> "" -> forallb_string digit h = true ->
        s <> "" -> forallb_string digit s = true -> String.length s <= 18 ->
        lang timeRe (h ++ "::" ++ s)
        /\ parseTimestamp (h ++ "::" ++ s) = Fail (ErrSyntax "")).
Proof.
  split; [|split].
  - intros m s Hm Dm Lm Hs Ds Ls.
    destruct (field_value m Hm Dm Lm) as [mv [Em Bm]].
    destruct (field_value s Hs Ds Ls) as [sv [Es Bs]].
    exists mv, sv. repeat (split; [assumption || lia|]).
    rewrite (parseTimestamp_fields_sum (m ++ ":" ++ s) [mv; sv]); [reflexivity|simpl; lia|].
    rewrite (Split_two m s Dm Ds). repeat constructor; assumption.
  - intros h m s Hh Dh Lh Hm Dm Lm Hs Ds Ls.
    destruct (field_value h Hh Dh Lh) as [hv [Eh Bh]].
    destruct (field_value m Hm Dm Lm) as [mv [Em Bm]].
    destruct (field_value s Hs Ds Ls) as [sv [Es Bs]].
    exists hv, mv, sv. repeat (split; [assumption || lia|]).
    rewrite (parseTimestamp_fields_sum (h ++ ":" ++ m ++ ":" ++ s) [hv; mv; sv]);
      [reflexivity|simpl; lia|].
    rewrite (Split_three h m s Dh Dm Ds). repeat constructor; assumption.
  - intros h s Hh Dh Hs Ds Ls.
    split; [apply (lang_timeRe_three h "" s); auto|].
    destruct (field_value s Hs Ds Ls) as [sv [Es Bs]].
    unfold parseTimestamp.
    change (h ++ "::" ++ s) with (h ++ ":" ++ "" ++ ":" ++ s).
    rewrite (Split_three h "" s Dh eq_refl Ds).
    cbn [List.length seq parseTimestamp_loop Nat.sub index nth_error bind].
    rewrite Es. reflexivity.
Qed.

Lemma parseTimestamp_digit_fields_witness :
  exists mv sv,
    Atoi "02" = inl mv /\ Atoi "03" = inl sv
    /\ parseTimestamp ("02" ++ ":" ++ "03")
       = Ret (add (add zero (mul (of_int sv) (of_int 1)))
                  (mul (of_int mv) (of_int 60))).
Proof.
  destruct (proj1 parseTimestamp_digit_fields "02" "03")
    as [mv [sv [H1 [H2 [_ [_ H3]]]]]];
    try discriminate; try reflexivity; try (simpl; lia).
  exists mv, sv. auto.
Defined.

(** ** Lines of the documented shape *)

Lemma take_length (s : string) : take (String.length s - 0) s = s.
Proof.
  rewrite Nat.sub_0_r. induction s as [|a s IH]; simpl; congruence.
Qed.

Lemma append_cancel_r (s1 s2 t : string) : s1 ++ t = s2 ++ t -> s1 = s2.
Proof.
  revert s2; induction s1 as [|a s1 IH]; intros s2 H.
  - destruct s2 as [|b s2]; [reflexivity|].
    apply (f_equal String.length) in H. simpl in H.
    rewrite length_append in H. lia.
  - destruct s2 as [|b s2].
    + apply (f_equal String.length) in H. simpl in H.
      rewrite length_append in H. lia.
    + simpl in H. injection H as -> H. f_equal. apply IH. assumption.
Qed.

(** The lazy loop stops at the first place where the rest of the pattern
    succeeds. *)
Lemma star_lazy_skip (total : nat) (p : ascii -> bool) (k : cont) (y : string)
    (c res : captures) :
  k y c = Some res ->
  forall x,
    forallb_string p x = true ->
    (forall x1 x2, x = x1 ++ x2 -> x2 <> "" -> k (x2 ++ y) c = None) ->
    star_loop (rmatch total (Chr p)) false k (String.length (x ++ y)) (x ++ y) c
    = Some res.
Proof.
  intros Hk. induction x as [|b x IH]; intros Hp Hfail.
  - cbn [append]. destruct (String.length y); cbn [star_loop]; rewrite Hk;
      reflexivity.
  - cbn [forallb_string] in Hp. apply andb_prop in Hp. destruct Hp as [Hb Hx].
    change (String b x ++ y) with (String b (x ++ y)).
    cbn [String.length star_loop].
    assert (F : k (String b (x ++ y)) c = None)
      by (apply (Hfail "" (String b x) eq_refl); discriminate).
    rewrite F. cbn [rmatch]. rewrite Hb.
    assert (Hlt : (String.length (x ++ y) <? S (String.length (x ++ y)))%nat = true)
      by (apply Nat.ltb_lt; lia).
    cbn [String.length]. rewrite Hlt. apply IH; [assumption|].
    intros x1 x2 E Hne. apply (Hfail (String b x1) x2); [|assumption].
    rewrite E. reflexivity.
Qed.

Lemma rmatch_Group_lazy (total i : nat) (p : ascii -> bool) (K : cont)
    (x y : string) (c res : captures) :
  x <> "" -> forallb_string p x = true ->
  (forall x1 x2 c', x = x1 ++ x2 -> x1 <> "" -> x2 <> "" -> K (x2 ++ y) c' = None) ->
  K y (set_capture i x c) = Some res ->
  rmatch total (Group i (LazyPlus (Chr p))) (x ++ y) c K = Some res.
Proof.
  intros Hne Hp Hfail HK. destruct x as [|a x]; [congruence|].
  cbn [forallb_string] in Hp. apply andb_prop in Hp. destruct Hp as [Ha Hx].
  unfold LazyPlus.
  change (rmatch total (Group i (Cat (Chr p) (Star false (Chr p))))
            (String a x ++ y) c K)
    with (rmatch total (Chr p) (String a (x ++ y)) c
            (fun s1 c1 =>
               star_loop (rmatch total (Chr p)) false
                 (fun s' c' =>
                    K s' (set_capture i
                            (take (String.length (String a x ++ y) - String.length s')
                               (String a x ++ y)) c'))
                 (String.length s1) s1 c1)).
  rewrite rmatch_Chr_hit by assumption.
  apply star_lazy_skip; [|assumption|].
  - rewrite take_append. exact HK.
  - intros x1 x2 E Hx2. apply (Hfail (String a x1) x2); [|discriminate|assumption].
    rewrite E. reflexivity.
Qed.

Lemma no_space_bracket_suffix (x1 x2 : string) :
  no_space_bracket (x1 ++ x2) = true -> no_space_bracket x2 = true.
Proof.
  induction x1 as [|a x1 IH]; intros H; [assumption|].
  apply IH. change (String a x1 ++ x2) with (String a (x1 ++ x2)) in H.
  cbn [no_space_bracket] in H.
  destruct (x1 ++ x2); [reflexivity|].
  apply andb_prop in H. tauto.
Qed.

(** The optional label and the end of the text fail on a text that is not
    empty and does not start with a white space and a bracket. *)
Lemma label_tail_none (total j : nat) (x2 y : string) (c : captures) (k : cont) :
  x2 <> "" -> no_space_bracket x2 = true -> HasPrefix y "[" = false ->
  rmatch total (Cat (labelRe j) Eol) (x2 ++ y) c k = None.
Proof.
  intros Hne Hnsb Hy. destruct x2 as [|a x2]; [congruence|].
  change (String a x2 ++ y) with (String a (x2 ++ y)).
  unfold labelRe, Opt, Lit. cbn [rmatch].
  destruct (space a) eqn:Ha; [|reflexivity].
  destruct x2 as [|b x2].
  - cbn [append]. destruct y as [|d y]; [reflexivity|].
    cbn [HasPrefix] in Hy. rewrite andb_true_r in Hy.
    rewrite Ascii.eqb_sym, Hy. reflexivity.
  - change (String b x2 ++ y) with (String b (x2 ++ y)).
    cbn [no_space_bracket] in Hnsb. rewrite Ha in Hnsb. cbn [andb] in Hnsb.
    apply andb_prop in Hnsb. destruct Hnsb as [Hb _].
    apply negb_true_iff in Hb. rewrite Ascii.eqb_sym, Hb. reflexivity.
Qed.

Lemma rmatch_Alt (total : nat) (r1 r2 : regex) (s : string) (c : captures)
    (k : cont) :
  rmatch total (Alt r1 r2) s c k
  = match rmatch total r1 s c k with
    | Some res => Some res
    | None => rmatch total r2 s c k
    end.
Proof. reflexivity. Qed.

Ltac captures_cases :=
  unfold set_capture;
  repeat match goal with
         | |- context [Nat.eqb ?a ?b] =>
             destruct (Nat.eqb_spec a b); try congruence; try lia
         end.

(** The optional label at the end of a line: with a label in brackets the
    group takes the label, without one the group takes no part. *)
Lemma label_match (total j : nat) (whole label : string) (c : captures) :
  j <> 0 -> forallb_string dot label = true ->
  exists res,
    rmatch total (Cat (labelRe j) Eol) (label_suffix label) c (finish whole)
    = Some res
    /\ res 0 = Some whole
    /\ res j = match label with "" => c j | _ => Some label end
    /\ forall n, n <> 0 -> n <> j -> res n = c n.
Proof.
  intros Hj Hdot. destruct label as [|a l].
  - exists (set_capture 0 (take (String.length whole - 0) whole) c).
    split; [reflexivity|]. rewrite take_length.
    repeat split; intros; captures_cases; reflexivity.
  - set (label := String a l) in *.
    change (label_suffix label) with (String " " (String "[" (label ++ "]"))).
    unfold labelRe, Opt. rewrite rmatch_Cat, rmatch_Alt.
    match goal with |- context [match ?m with Some _ => _ | None => _ end] =>
      destruct m as [res|] eqn:E
    end.
    + exists res. split; [reflexivity|].
      rewrite rmatch_Cat in E. apply rmatch_Chr in E.
      destruct E as [b [s1 [E1 [_ E]]]]. injection E1 as _ <-.
      rewrite rmatch_Cat in E. apply rmatch_Lit in E.
      destruct E as [s2 [E2 E]]. injection E2 as <-.
      rewrite rmatch_Cat in E. apply rmatch_Group in E.
      destruct E as [pre [s3 [c4 [E3 [_ [F E]]]]]].
      apply rmatch_Lit in E. destruct E as [s4 [-> E]].
      cbn [rmatch] in E. destruct s4 as [|d s4]; [|discriminate].
      change (String a (l ++ "]")) with (String a l ++ "]") in E3.
      apply append_cancel_r in E3. subst pre.
      unfold finish in E. injection E as <-. rewrite take_length.
      assert (F' : forall n, c4 n = c n) by (intros n; apply F; simpl; tauto).
      repeat split; intros; captures_cases; try reflexivity; apply F'.
    + exfalso. revert E.
      rewrite <- (append_nil_r (String " " (String "[" (label ++ "]")))).
      apply rmatch_complete; [reflexivity| |intros c'; discriminate].
      change (String " " (String "[" (label ++ "]")))
        with (" " ++ "[" ++ label ++ "]").
      apply lang_Cat; [apply lang_Chr; reflexivity|].
      apply lang_Cat; [apply lang_Chr; reflexivity|].
      apply lang_Cat; [|apply lang_Chr; reflexivity].
      apply lang_Group. apply lang_Plus_Chr_intro; [assumption|discriminate].
Qed.

(** Artist and title, then the optional label, up to the end of the line:
    the lazy group stops right before the label. *)
Lemma rest_label_match (total i j : nat) (whole rest label : string)
    (c : captures) :
  i <> j -> i <> 0 -> j <> 0 ->
  rest <> "" -> forallb_string dot rest = true ->
  no_space_bracket rest = true ->
  forallb_string dot label = true ->
  exists res,
    rmatch total (Cat (Group i restRe) (Cat (labelRe j) Eol))
      (rest ++ label_suffix label) c (finish whole)
    = Some res
    /\ res 0 = Some whole
    /\ res i = Some rest
    /\ res j = match label with "" => c j | _ => Some label end
    /\ forall n, n <> 0 -> n <> i -> n <> j -> res n = c n.
Proof.
  intros Hij Hi Hj Hne Hdot Hnsb Hlab.
  destruct (label_match total j whole label (set_capture i rest c) Hj Hlab)
    as [res [E [R0 [Rj Rn]]]].
  exists res. split; [|split; [assumption|split; [|split]]].
  - rewrite rmatch_Cat. unfold restRe.
    apply rmatch_Group_lazy; [assumption|assumption| |exact E].
    intros x1 x2 c' Ex _ Hx2. apply label_tail_none; [assumption| |].
    + apply (no_space_bracket_suffix x1). rewrite <- Ex. assumption.
    + destruct label; reflexivity.
  - rewrite (Rn i Hi Hij). captures_cases.
  - rewrite Rj. destruct label; [|reflexivity]. captures_cases.
  - intros n H0 Hni Hnj. rewrite (Rn n H0 Hnj). captures_cases.
Qed.

Lemma split_at_first (d : ascii) (u v x y : string) :
  forallb_string (fun a => negb (Ascii.eqb a d)) u = true ->
  forallb_string (fun a => negb (Ascii.eqb a d)) v = true ->
  u ++ String d x = v ++ String d y -> u = v /\ x = y.
Proof.
  revert v; induction u as [|a u IH]; intros v Hu Hv E;
    destruct v as [|b v]; simpl in *.
  - injection E as <-. auto.
  - injection E as <- _. rewrite Ascii.eqb_refl in Hv. discriminate.
  - injection E as -> _. rewrite Ascii.eqb_refl in Hu. discriminate.
  - injection E as <- E.
    apply andb_prop in Hu. apply andb_prop in Hv.
    destruct (IH v (proj2 Hu) (proj2 Hv) E) as [-> ->]. auto.
Qed.

Lemma digits_no_bracket (s : string) :
  forallb_string digit s = true ->
  forallb_string (fun a => negb (Ascii.eqb a "]")) s = true.
Proof.
  induction s as [|a s IH]; intros H; [reflexivity|].
  simpl in H. apply andb_prop in H. destruct H as [Ha Hs].
  cbn [forallb_string]. rewrite (IH Hs), andb_true_r.
  destruct (Ascii.eqb_spec a "]") as [->|_]; [discriminate|reflexivity].
Qed.

Lemma timeRe_no_bracket (ts : string) :
  lang timeRe ts -> forallb_string (fun a => negb (Ascii.eqb a "]")) ts = true.
Proof.
  intros H. apply lang_timeRe in H.
  destruct H as [d1 [d2 [d3 [colon [-> [D1 [_ [D2 [D3 _]]]]]]]]].
  rewrite !forallb_string_append.
  rewrite (digits_no_bracket d1 D1), (digits_no_bracket d2 D2),
    (digits_no_bracket d3 D3).
  destruct colon; reflexivity.
Qed.

(** A line of the documented shape matches [lineRe], with the timestamp,
    the artist and title, and the label as its submatches. *)
Lemma lineRe_matches (ts rest label : string) :
  lang timeRe ts ->
  rest <> "" -> forallb_string dot rest = true ->
  no_space_bracket rest = true ->
  forallb_string dot label = true ->
  FindStringSubmatch lineRe 3 ("[" ++ ts ++ "] " ++ rest ++ label_suffix label)
  = Some ["[" ++ ts ++ "] " ++ rest ++ label_suffix label; ts; rest; label].
Proof.
  intros Lts Hne Hdot Hnsb Hlab.
  unfold lineRe. rewrite FindStringSubmatch_Bol.
  set (line := "[" ++ ts ++ "] " ++ rest ++ label_suffix label).
  set (total := String.length line).
  change (option_map (submatches 3)
            (rmatch total
               (Cat (Group 1 timeRe)
                  (Cat (Lit "]")
                     (Cat (Chr space)
                        (Cat (Group 2 restRe) (Cat (labelRe 3) Eol)))))
               (ts ++ "] " ++ rest ++ label_suffix label)
               no_captures (finish line))
          = Some [line; ts; rest; label]).
  match goal with |- option_map _ ?m = _ => destruct m as [res|] eqn:H end.
  - cbn [option_map]. f_equal.
    rewrite rmatch_Cat in H. apply rmatch_Group in H.
    destruct H as [pre [s2 [c1 [E2 [Lpre [F1 H]]]]]].
    rewrite rmatch_Cat in H. apply rmatch_Lit in H. destruct H as [s3 [-> H]].
    change ("] " ++ rest ++ label_suffix label)
      with (String "]" (String " " (rest ++ label_suffix label))) in E2.
    apply split_at_first in E2; try (apply timeRe_no_bracket; assumption).
    destruct E2 as [<- <-].
    rewrite rmatch_Cat, rmatch_Chr_hit in H by reflexivity.
    destruct (rest_label_match total 2 3 line rest label (set_capture 1 ts c1))
      as [res' [E' [R0 [R2 [R3 R1]]]]]; try lia; try assumption.
    rewrite E' in H. injection H as <-.
    unfold submatches. cbn [seq map]. rewrite R0, R2, R3, (R1 1) by lia.
    assert (F3 : c1 3 = None) by (apply (F1 3); simpl; tauto).
    destruct label; captures_cases; rewrite ?F3; reflexivity.
  - exfalso. revert H. rewrite rmatch_Cat.
    apply rmatch_complete; [reflexivity|apply lang_Group; assumption|].
    intros c'. rewrite rmatch_Cat. unfold Lit at 1.
    change ("] " ++ rest ++ label_suffix label)
      with (String "]" (String " " (rest ++ label_suffix label))).
    rewrite rmatch_Chr_hit by reflexivity.
    rewrite rmatch_Cat, rmatch_Chr_hit by reflexivity.
    destruct (rest_label_match total 2 3 line rest label c')
      as [res' [E' _]]; try lia; try assumption.
    rewrite E'. discriminate.
Qed.

(** A continuation line of the documented shape matches [wRe]. *)
Lemma wRe_line_matches (rest label : string) :
  rest <> "" -> forallb_string dot rest = true ->
  no_space_bracket rest = true ->
  forallb_string dot label = true ->
  FindStringSubmatch wRe 2 ("w/ " ++ rest ++ label_suffix label)
  = Some ["w/ " ++ rest ++ label_suffix label; rest; label].
Proof.
  intros Hne Hdot Hnsb Hlab.
  unfold wRe. rewrite FindStringSubmatch_Bol.
  set (line := "w/ " ++ rest ++ label_suffix label).
  set (total := String.length line).
  destruct (rest_label_match total 1 2 line rest label no_captures)
    as [res [E [R0 [R1 [R2 _]]]]]; try lia; try assumption.
  change (option_map (submatches 2)
            (rmatch total (Cat (Group 1 restRe) (Cat (labelRe 2) Eol))
               (rest ++ label_suffix label) no_captures (finish line))
          = Some [line; rest; label]).
  rewrite E. cbn [option_map]. f_equal.
  unfold submatches. cbn [seq map]. rewrite R0, R1, R2.
  destruct label; reflexivity.
Qed.

Lemma HasPrefix_long (sep u v : string) :
  String.length sep <= String.length u ->
  HasPrefix (u ++ v) sep = HasPrefix u sep.
Proof.
  revert u; induction sep as [|p sep IH]; intros u H; [reflexivity|].
  destruct u as [|a u]; [simpl in H; lia|].
  simpl in *. rewrite IH by lia. reflexivity.
Qed.

(** The separator right after an artist that holds none, not even with the
    first two characters of the separator added, is the first one. *)
Lemma Cut_at (artist title : string) :
  Cut (artist ++ " -") " - " = None ->
  Cut (artist ++ " - " ++ title) " - " = Some (artist, title).
Proof.
  induction artist as [|a artist IH]; intros H; [reflexivity|].
  change (String a artist ++ " -") with (String a (artist ++ " -")) in H.
  change (String a artist ++ " - " ++ title)
    with (String a (artist ++ " - " ++ title)).
  cbn [Cut] in *.
  destruct (HasPrefix (String a (artist ++ " -")) " - ") eqn:Hp; [discriminate|].
  destruct (Cut (artist ++ " -") " - ") as [[b0 a0]|] eqn:E; [discriminate|].
  assert (Hp' : HasPrefix (String a (artist ++ " - " ++ title)) " - "
                = HasPrefix (String a (artist ++ " -")) " - ").
  { change (String a (artist ++ " - " ++ title))
      with (String a artist ++ " -" ++ " " ++ title).
    rewrite <- append_assoc.
    change (String a (artist ++ " -")) with (String a artist ++ " -").
    apply HasPrefix_long. rewrite length_append. simpl. lia. }
  rewrite Hp', Hp, (IH eq_refl). reflexivity.
Qed.

Lemma timestamp_text_parses (ts : string) :
  timestamp_text ts ->
  lang timeRe ts /\ exists start, parseTimestamp ts = Ret start.
Proof.
  intros [[m [s [-> [[Hm [Dm Lm]] [Hs [Ds Ls]]]]]]
         |[h [m [s [-> [[Hh [Dh Lh]] [[Hm [Dm Lm]] [Hs [Ds Ls]]]]]]]]].
  - split; [apply lang_timeRe_two; assumption|].
    destruct (field_value m Hm Dm Lm) as [mv [Em Bm]].
    destruct (field_value s Hs Ds Ls) as [sv [Es Bs]].
    eexists.
    apply (parseTimestamp_fields_sum (m ++ ":" ++ s) [mv; sv]); [simpl; lia|].
    rewrite (Split_two m s Dm Ds). repeat constructor; assumption.
  - split; [apply lang_timeRe_three; assumption|].
    destruct (field_value h Hh Dh Lh) as [hv [Eh Bh]].
    destruct (field_value m Hm Dm Lm) as [mv [Em Bm]].
    destruct (field_value s Hs Ds Ls) as [sv [Es Bs]].
    eexists.
    apply (parseTimestamp_fields_sum (h ++ ":" ++ m ++ ":" ++ s) [hv; mv; sv]);
      [simpl; lia|].
    rewrite (Split_three h m s Dh Dm Ds). repeat constructor; assumption.
Qed.

(** X10: a track-start line of the documented shape, [[h:mm:ss] Artist -
    Title] with or without a label in brackets at its end, whatever the
    white space around it, stores the open track and opens a new one with
    the start time of the timestamp, the artist up to the first separator,
    the title after it and the label (empty without one), no end time, no
    additional track and no file name.  The artist and title hold no line
    feed and no white space right before an opening bracket, the artist
    followed by a space and a dash holds no separator, and the line is no
    stage announcement. *)
Theorem track_line_parses (st : parser) (text ts artist title label : string) :
  timestamp_text ts ->
  forallb_string dot (artist ++ " - " ++ title) = true ->
  no_space_bracket (artist ++ " - " ++ title) = true ->
  Cut (artist ++ " -") " - " = None ->
  HasSuffix (artist ++ " - " ++ title) "On Stage" = false ->
  forallb_string dot label = true ->
  TrimSpace text
  = "[" ++ ts ++ "] " ++ artist ++ " - " ++ title ++ label_suffix label ->
  exists start,
    parseTimestamp ts = Ret start
    /\ parseLine st text
       = Ret (mkParser (flush st)
                (Some (mkTrack start zero artist title label [] ""))).
Proof.
  intros Hts Hdot Hnsb Hcut Hstage Hlab Etext.
  destruct (timestamp_text_parses ts Hts) as [Lts [start Estart]].
  exists start. split; [assumption|].
  assert (Hne : artist ++ " - " ++ title <> "") by (destruct artist; discriminate).
  pose proof (lineRe_matches ts (artist ++ " - " ++ title) label
                Lts Hne Hdot Hnsb Hlab) as M.
  rewrite !append_assoc in M. rewrite <- Etext in M.
  rewrite (parseLine_track st text _ M), trackLine_eq, Estart. cbn [bind].
  rewrite Hstage, parseArtistTitle_Cut, (Cut_at artist title Hcut).
  reflexivity.
Qed.

Lemma track_line_parses_witness :
  exists start,
    parseTimestamp "1:02:03" = Ret start
    /\ parseLine (mkParser [] None)
         "  [1:02:03] Daft Punk - Around the World [Virgin] "
       = Ret (mkParser []
                (Some (mkTrack start zero "Daft Punk" "Around the World"
                         "Virgin" [] ""))).
Proof.
  apply (track_line_parses (mkParser [] None)
           "  [1:02:03] Daft Punk - Around the World [Virgin] "
           "1:02:03" "Daft Punk" "Around the World" "Virgin");
    try reflexivity.
  right. exists "1", "02", "03".
  repeat split; try discriminate; try reflexivity; simpl; lia.
Defined.

(** X11: a continuation line of the documented shape, [w/ Artist - Title]
    with or without a label in brackets at its end, read while a track is
    open, adds one additional track after those the open track has, with
    that artist, title and label, and changes nothing else. *)
Theorem continuation_line_parses (st : parser) (t : Track)
    (text artist title label : string) :
  currentTrack st = Some t ->
  forallb_string dot (artist ++ " - " ++ title) = true ->
  no_space_bracket (artist ++ " - " ++ title) = true ->
  Cut (artist ++ " -") " - " = None ->
  forallb_string dot label = true ->
  TrimSpace text = "w/ " ++ artist ++ " - " ++ title ++ label_suffix label ->
  parseLine st text
  = Ret (mkParser (tracks st)
           (Some (mkTrack (StartTime t) (EndTime t) (MainArtist t)
                    (MainTitle t) (MainLabel t)
                    (Additional t ++ [mkAdditionalTrack artist title label])%list
                    (OutputFilename t)))).
Proof.
  intros Hcur Hdot Hnsb Hcut Hlab Etext.
  assert (Hne : artist ++ " - " ++ title <> "") by (destruct artist; discriminate).
  pose proof (wRe_line_matches (artist ++ " - " ++ title) label
                Hne Hdot Hnsb Hlab) as M.
  rewrite !append_assoc in M. rewrite <- Etext in M.
  rewrite parseLine_with by (rewrite Etext; reflexivity).
  rewrite (withLine_eq st t _ Hcur), M. cbn [nth].
  rewrite parseArtistTitle_Cut, (Cut_at artist title Hcut). reflexivity.
Qed.

Lemma continuation_line_parses_witness :
  parseLine
    (mkParser [] (Some (mkTrack zero zero "A" "B" "" [] "")))
    "w/ Stardust - Music Sounds Better [Roule]"
  = Ret (mkParser []
           (Some (mkTrack zero zero "A" "B" ""
                    [mkAdditionalTrack "Stardust" "Music Sounds Better" "Roule"]
                    ""))).
Proof.
  apply (continuation_line_parses
           (mkParser [] (Some (mkTrack zero zero "A" "B" "" [] "")))
           (mkTrack zero zero "A" "B" "" [] "")
           "w/ Stardust - Music Sounds Better [Roule]"
           "Stardust" "Music Sounds Better" "Roule");
    reflexivity.
Defined.

(** ** The scheduler of the extraction jobs *)

Lemma setJob_cancelled (p : pipeline) (i : nat) (j : job) :
  cancelled (setJob p i j) = cancelled p.
Proof. unfold setJob. destruct (store (jobs p) i j); reflexivity. Qed.

Lemma setJob_count (f : job -> bool) (p : pipeline) (i : nat) (old new : job) :
  nth_error (jobs p) i = Some old ->
  List.length (filter f (jobs (setJob p i new))) + Nat.b2n (f old)
  = List.length (filter f (jobs p)) + Nat.b2n (f new).
Proof.
  intros Hi. destruct (setJob_jobs p i new old Hi) as [js [E [-> _]]].
  apply (filter_store f _ _ _ _ _ E Hi).
Qed.

Lemma combine_store {A B : Type} (xs xs' : list A) (ys : list B) (i : nat)
    (x : A) (y : B) :
  store xs i x = Ret xs' -> nth_error ys i = Some y ->
  store (combine xs ys) i (x, y) = Ret (combine xs' ys).
Proof.
  revert i xs' ys; induction xs as [|z xs IH]; intros i xs' ys E Hy;
    simpl in *; [discriminate|].
  destruct ys as [|w ys]; [destruct i; discriminate|].
  destruct i as [|i]; simpl in *.
  - inversion E; inversion Hy; subst. reflexivity.
  - destruct (store xs i x) as [r| |] eqn:Er; simpl in E; try discriminate.
    inversion E; subst. rewrite (IH i r ys Er Hy). reflexivity.
Qed.

Lemma nth_error_combine {A B : Type} (xs : list A) (ys : list B) (i : nat)
    (x : A) (y : B) :
  nth_error xs i = Some x -> nth_error ys i = Some y ->
  nth_error (combine xs ys) i = Some (x, y).
Proof.
  revert i ys; induction xs as [|z xs IH]; intros i ys Hx Hy;
    [destruct i; discriminate|].
  destruct ys as [|w ys]; [destruct i; discriminate|].
  destruct i as [|i]; simpl in *; [congruence|]. apply IH; assumption.
Qed.

Lemma setJob_launch_count (tracks : list Track) (p : pipeline) (i : nat)
    (old new : job) (t : Track) :
  nth_error (jobs p) i = Some old -> nth_error tracks i = Some t ->
  List.length (filter has_launched (combine (jobs (setJob p i new)) tracks))
  + Nat.b2n (has_launched (old, t))
  = List.length (filter has_launched (combine (jobs p) tracks))
    + Nat.b2n (has_launched (new, t)).
Proof.
  intros Hi Ht. destruct (setJob_jobs p i new old Hi) as [js [E [-> _]]].
  apply (filter_store has_launched _ _ i (new, t) (old, t)).
  - apply combine_store; assumption.
  - apply nth_error_combine; assumption.
Qed.

Lemma job_partition (js : list job) :
  List.length js
  = List.length (filter isPending js) + List.length (filter isRunning js)
    + List.length (filter isDone js) + List.length (filter isSkipped js).
Proof.
  induction js as [|j js IH]; [reflexivity|].
  destruct j; simpl; lia.
Qed.

Lemma finished_weight (p : pipeline) : finished p = true <-> weight p = 0.
Proof.
  unfold finished, weight, slotsHeld.
  induction (jobs p) as [|j js IH]; [simpl; tauto|].
  destruct j; simpl; try (rewrite IH; tauto); split; try discriminate; lia.
Qed.

Lemma running_or_none (js : list job) :
  (exists i, nth_error js i = Some Running) \/ filter isRunning js = [].
Proof.
  induction js as [|j js [[i Hi]|IH]].
  - right; reflexivity.
  - left; exists (S i); assumption.
  - destruct j; try (right; exact IH). left; exists 0; reflexivity.
Qed.

Lemma pending_exists (js : list job) :
  forallb isTerminal js = false -> filter isRunning js = [] ->
  exists i, nth_error js i = Some Pending.
Proof.
  induction js as [|j js IH]; intros Hf Hr; [discriminate|].
  destruct j; simpl in *; try discriminate;
    try (destruct (IH Hf Hr) as [i Hi]; exists (S i); assumption).
  exists 0; reflexivity.
Qed.


Lemma setJob_length (p : pipeline) (i : nat) (old new : job) :
  nth_error (jobs p) i = Some old ->
  List.length (jobs (setJob p i new)) = List.length (jobs p).
Proof.
  intros Hi. destruct (setJob_jobs p i new old Hi) as [js [E [-> _]]].
  apply (store_length _ _ _ _ E).
Qed.

Lemma track_of_job (tracks : list Track) (p : pipeline) (i : nat) (j : job) :
  List.length (jobs p) = List.length tracks ->
  nth_error (jobs p) i = Some j ->
  exists t, nth_error tracks i = Some t.
Proof.
  intros Hlen Hi.
  assert (Hlt : i < List.length tracks).
  { rewrite <- Hlen. apply nth_error_Some. congruence. }
  destruct (nth_error tracks i) as [t|] eqn:E; [eauto|].
  apply nth_error_None in E. lia.
Qed.

Section SchedulerFacts.

Variable format_f : float64 -> string.
Variable videoFlag : bool.
Variable inputPath : string.
Variable tracks : list Track.
Variable album : string.

Lemma processTrack_command_count (run : tool) (t : Track) :
  List.length (snd (processTrack format_f videoFlag inputPath run t album))
  = Nat.b2n (valid_range t).
Proof.
  unfold processTrack, valid_range.
  destruct (geb (StartTime t) (EndTime t)); [reflexivity|].
  match goal with
  | |- context [run "ffmpeg" ?a] => destruct (run "ffmpeg" a) as [[e o]|]
  end; reflexivity.
Qed.

Lemma scheduler_inv_start : scheduler_inv tracks (start tracks).
Proof.
  unfold scheduler_inv, start, slotsHeld; simpl.
  assert (F : forall (f : job -> bool), f Pending = false ->
            filter f (map (fun _ : Track => Pending) tracks) = []).
  { intros f Hf. induction tracks as [|t ts IH]; simpl; [reflexivity|].
    rewrite Hf. exact IH. }
  rewrite !F by reflexivity. simpl.
  split; [apply length_map|]. split; [unfold maxWorkers; lia|].
  split; [reflexivity|]. split; [reflexivity|].
  clear F. induction tracks as [|t ts IH]; simpl; [reflexivity|exact IH].
Qed.

Lemma scheduler_inv_step (p q : pipeline) :
  scheduler_inv tracks p ->
  step format_f videoFlag inputPath tracks album p q ->
  scheduler_inv tracks q.
Proof.
  intros [Hlen [Hslots [Hskip [Hbar Hl]]]] Hstep.
  destruct Hstep as [p i Hi Hs|p i Hi Hc|p i t run Hi Ht|p].
  - destruct (track_of_job tracks p i Pending Hlen Hi) as [t Ht].
    pose proof (setJob_length p i Pending Running Hi) as L.
    pose proof (setJob_count isRunning p i Pending Running Hi) as C1.
    pose proof (setJob_count isSkipped p i Pending Running Hi) as C2.
    pose proof (setJob_count isDone p i Pending Running Hi) as C3.
    pose proof (setJob_launch_count tracks p i Pending Running t Hi Ht) as C4.
    destruct (setJob_jobs p i Running Pending Hi) as [js [_ [_ [_ [Eb El]]]]].
    unfold scheduler_inv, slotsHeld in *.
    rewrite setJob_cancelled, Eb, El. simpl in C1, C2, C3, C4.
    repeat split; try lia. intros Hc. specialize (Hskip Hc). lia.
  - destruct (track_of_job tracks p i Pending Hlen Hi) as [t Ht].
    pose proof (setJob_length p i Pending Skipped Hi) as L.
    pose proof (setJob_count isRunning p i Pending Skipped Hi) as C1.
    pose proof (setJob_count isDone p i Pending Skipped Hi) as C3.
    pose proof (setJob_launch_count tracks p i Pending Skipped t Hi Ht) as C4.
    destruct (setJob_jobs p i Skipped Pending Hi) as [js [_ [_ [_ [Eb El]]]]].
    unfold scheduler_inv, slotsHeld in *.
    rewrite setJob_cancelled, Eb, El. simpl in C1, C3, C4.
    repeat split; try lia. congruence.
  - destruct (complete_counts format_f videoFlag inputPath run album t i p)
      as [_ [Eb [El [Ec Ej]]]].
    pose proof (processTrack_command_count run t) as Hn.
    unfold scheduler_inv, slotsHeld in *.
    rewrite Ec, Eb, El, Ej, length_app, Hn.
    set (new := match fst (processTrack format_f videoFlag inputPath run t album) with
                | Some err => Failed err
                | None => Succeeded
                end).
    assert (Hnew : isRunning new = false /\ isSkipped new = false
                   /\ isDone new = true).
    { unfold new.
      destruct (fst (processTrack format_f videoFlag inputPath run t album));
        auto. }
    destruct Hnew as [N1 [N2 N3]].
    pose proof (setJob_length p i Running new Hi) as L.
    pose proof (setJob_count isRunning p i Running new Hi) as C1.
    pose proof (setJob_count isSkipped p i Running new Hi) as C2.
    pose proof (setJob_count isDone p i Running new Hi) as C3.
    pose proof (setJob_launch_count tracks p i Running new t Hi Ht) as C4.
    unfold has_launched in C4 at 2 4. cbn [fst snd] in C4.
    rewrite N1 in C1. rewrite N2 in C2. rewrite N3 in C3, C4.
    simpl in C1, C2, C3, C4.
    repeat split; try lia. intros Hc. specialize (Hskip Hc). lia.
  - unfold scheduler_inv, slotsHeld in *. simpl.
    repeat split; try assumption. discriminate.
Qed.

Lemma reachable_scheduler_inv (p : pipeline) :
  reachable format_f videoFlag inputPath tracks album p ->
  scheduler_inv tracks p.
Proof.
  induction 1 as [|p q _ IH Hstep].
  - apply scheduler_inv_start.
  - apply (scheduler_inv_step p q IH Hstep).
Qed.

End SchedulerFacts.





(** X13: the jobs always end.  Every step of a goroutine takes one from
    the number of steps left ([weight]: two for a pending job, one for a
    running job), which starts at no more than twice the number of tracks
    and is zero exactly when [wg.Wait()] returns; the only other step, the
    cancellation, leaves the jobs as they are; and while some job has not
    ended some goroutine can take a step, so the pipeline is never stuck. *)
Theorem pipeline_terminates (format_f : float64 -> string) (videoFlag : bool)
    (inputPath : string) (tracks : list Track) (album : string) (p : pipeline) :
  reachable format_f videoFlag inputPath tracks album p ->
  weight p <= 2 * List.length tracks
  /\ (finished p = true <-> weight p = 0)
  /\ (forall q,
        step format_f videoFlag inputPath tracks album p q ->
        weight q < weight p
        \/ q = mkPipeline (jobs p) (errCount p) (bar p) (launched p) true)
  /\ (finished p = false ->
      exists q,
        step format_f videoFlag inputPath tracks album p q
        /\ weight q < weight p).
Proof.
  intros H. apply reachable_scheduler_inv in H.
  destruct H as [Hlen [Hslots _]].
  assert (Hacq : forall i, nth_error (jobs p) i = Some Pending ->
                 weight (setJob p i Running) < weight p).
  { intros i Hi.
    pose proof (setJob_count isPending p i Pending Running Hi) as C1.
    pose proof (setJob_count isRunning p i Pending Running Hi) as C2.
    unfold weight, slotsHeld. simpl in C1, C2. lia. }
  assert (Hcomp : forall i t run, nth_error (jobs p) i = Some Running ->
                  weight (complete format_f videoFlag inputPath run album t i p)
                  < weight p).
  { intros i t run Hi.
    destruct (complete_counts format_f videoFlag inputPath run album t i p)
      as [_ [_ [_ [_ Ej]]]].
    unfold weight, slotsHeld. rewrite Ej.
    set (new := match fst (processTrack format_f videoFlag inputPath run t album) with
                | Some err => Failed err
                | None => Succeeded
                end).
    assert (Hnew : isRunning new = false /\ isPending new = false).
    { unfold new.
      destruct (fst (processTrack format_f videoFlag inputPath run t album));
        auto. }
    destruct Hnew as [N1 N2].
    pose proof (setJob_count isPending p i Running new Hi) as C1.
    pose proof (setJob_count isRunning p i Running new Hi) as C2.
    rewrite N2 in C1. rewrite N1 in C2. simpl in C1, C2. lia. }
  split; [|split; [apply finished_weight|split]].
  - pose proof (job_partition (jobs p)) as P.
    unfold weight, slotsHeld. lia.
  - intros q Hstep.
    destruct Hstep as [p i Hi Hs|p i Hi Hc|p i t run Hi Ht|p].
    + left. apply Hacq. assumption.
    + left.
      pose proof (setJob_count isPending p i Pending Skipped Hi) as C1.
      pose proof (setJob_count isRunning p i Pending Skipped Hi) as C2.
      unfold weight, slotsHeld. simpl in C1, C2. lia.
    + left. apply Hcomp. assumption.
    + right. reflexivity.
  - intros Hf. destruct (running_or_none (jobs p)) as [[i Hi]|Hnone].
    + destruct (track_of_job tracks p i Running Hlen Hi) as [t Ht].
      exists (complete format_f videoFlag inputPath (fun _ _ => None) album t i p).
      split; [apply step_complete; assumption|apply Hcomp; assumption].
    + destruct (pending_exists (jobs p) Hf Hnone) as [i Hi].
      exists (setJob p i Running).
      split; [|apply Hacq; assumption].
      apply step_acquire; [assumption|].
      unfold slotsHeld. rewrite Hnone. unfold maxWorkers. simpl. lia.
Qed.

Lemma pipeline_terminates_witness :
  weight (start [mkTrack zero (of_int 30) "A" "B" "" [] "output/01 - A - B.mp3"])
  <= 2 * 1.
Proof.
  apply (pipeline_terminates (fun _ => "0") false "in.mp4"
           [mkTrack zero (of_int 30) "A" "B" "" [] "output/01 - A - B.mp3"]
           "Album").
  apply reach_start.
Defined.



(** ** Tracklists of the documented format *)

Lemma track_text_parses (st : parser) (text : string) (e : entry) :
  well_formed e -> TrimSpace text = track_text e ->
  exists start,
    parseTimestamp (stamp e) = Ret start
    /\ parseLine st text
       = Ret (mkParser (flush st)
                (Some (mkTrack start zero (Artist (entryMain e))
                         (Title (entryMain e)) (Label (entryMain e)) [] ""))).
Proof.
  intros [Hts [[Hdot [Hnsb [Hcut Hlab]]] [Hstage _]]] Etext.
  destruct (timestamp_text_parses (stamp e) Hts) as [Lts [start Estart]].
  exists start. split; [assumption|].
  destruct (entryMain e) as [artist title label] eqn:Em.
  unfold track_text, line_body in Etext. rewrite Em in Etext.
  cbn [Artist Title Label] in *.
  assert (Hne : artist ++ " - " ++ title <> "") by (destruct artist; discriminate).
  pose proof (lineRe_matches (stamp e) (artist ++ " - " ++ title) label
                Lts Hne Hdot Hnsb Hlab) as M.
  rewrite !append_assoc in M. rewrite <- Etext in M.
  rewrite (parseLine_track st text _ M), trackLine_eq, Estart. cbn [bind].
  rewrite Hstage, parseArtistTitle_Cut, (Cut_at artist title Hcut).
  reflexivity.
Qed.

Lemma with_text_parses (st : parser) (t : Track) (text : string)
    (a : AdditionalTrack) :
  currentTrack st = Some t -> printable a -> TrimSpace text = with_text a ->
  parseLine st text
  = Ret (mkParser (tracks st)
           (Some (mkTrack (StartTime t) (EndTime t) (MainArtist t)
                    (MainTitle t) (MainLabel t)
                    (Additional t ++ [a])%list
                    (OutputFilename t)))).
Proof.
  intros Hcur [Hdot [Hnsb [Hcut Hlab]]] Etext.
  destruct a as [artist title label].
  unfold with_text, line_body in Etext. cbn [Artist Title Label] in *.
  assert (Hne : artist ++ " - " ++ title <> "") by (destruct artist; discriminate).
  pose proof (wRe_line_matches (artist ++ " - " ++ title) label
                Hne Hdot Hnsb Hlab) as M.
  rewrite !append_assoc in M. rewrite <- Etext in M.
  rewrite parseLine_with by (rewrite Etext; reflexivity).
  rewrite (withLine_eq st t _ Hcur), M. cbn [nth].
  rewrite parseArtistTitle_Cut, (Cut_at artist title Hcut). reflexivity.
Qed.

Lemma with_lines_parse (adds : list AdditionalTrack) :
  forall (texts : list string) (st : parser) (t : Track),
    currentTrack st = Some t -> Forall printable adds ->
    map TrimSpace texts = map with_text adds ->
    parseLines st texts
    = Ret (mkParser (tracks st)
             (Some (mkTrack (StartTime t) (EndTime t) (MainArtist t)
                      (MainTitle t) (MainLabel t)
                      (Additional t ++ adds)%list
                      (OutputFilename t)))).
Proof.
  induction adds as [|a adds IH]; intros texts st t Hcur Hall Etexts.
  - destruct texts; [|discriminate]. destruct st as [ts cur], t.
    simpl in *. rewrite app_nil_r. subst cur. reflexivity.
  - destruct texts as [|text texts]; [discriminate|].
    simpl in Etexts. injection Etexts as Etext Etexts.
    inversion Hall as [|a' adds' Ha Hadds]; subst.
    cbn [parseLines]. rewrite (with_text_parses st t text a Hcur Ha Etext).
    cbn [bind].
    match goal with
    | |- parseLines (mkParser ?ts (Some ?t1)) _ = _ =>
        rewrite (IH texts (mkParser ts (Some t1)) t1 eq_refl Hadds Etexts)
    end.
    cbn [tracks StartTime EndTime MainArtist MainTitle MainLabel Additional
         OutputFilename].
    rewrite <- app_assoc. reflexivity.
Qed.

Lemma entry_parses (st : parser) (texts : list string) (e : entry) :
  well_formed e -> map TrimSpace texts = entry_lines e ->
  exists start,
    parseTimestamp (stamp e) = Ret start
    /\ parseLines st texts
       = Ret (mkParser (flush st) (Some (track_of (e, start)))).
Proof.
  intros Hwf Etexts. destruct texts as [|text texts]; [discriminate|].
  unfold entry_lines in Etexts. simpl in Etexts.
  injection Etexts as Etext Etexts.
  destruct (track_text_parses st text e Hwf Etext) as [start [Estart E]].
  exists start. split; [assumption|].
  cbn [parseLines]. rewrite E. cbn [bind].
  destruct Hwf as [_ [_ [_ Hadds]]].
  match goal with
  | |- parseLines (mkParser ?ts (Some ?t1)) _ = _ =>
      rewrite (with_lines_parse (entryWith e) texts (mkParser ts (Some t1)) t1
                 eq_refl Hadds Etexts)
  end.
  reflexivity.
Qed.

Lemma entries_parse (entries : list entry) :
  forall (texts : list string) (st : parser),
    Forall well_formed entries ->
    map TrimSpace texts = concat (map entry_lines entries) ->
    exists starts st',
      Forall2 (fun e start => parseTimestamp (stamp e) = Ret start) entries starts
      /\ parseLines st texts = Ret st'
      /\ flush st' = (flush st ++ map track_of (combine entries starts))%list.
Proof.
  induction entries as [|e entries IH]; intros texts st Hall Etexts.
  - destruct texts; [|discriminate]. exists [], st.
    split; [constructor|]. split; [reflexivity|].
    simpl. rewrite app_nil_r. reflexivity.
  - inversion Hall as [|e' es' He Hes]; subst.
    cbn [map concat] in Etexts.
    apply map_eq_app in Etexts.
    destruct Etexts as [texts1 [texts2 [-> [E1 E2]]]].
    destruct (entry_parses st texts1 e He E1) as [start [Estart P1]].
    destruct (IH texts2 (mkParser (flush st) (Some (track_of (e, start)))) Hes E2)
      as [starts [st' [F [P2 Fl]]]].
    exists (start :: starts), st'.
    split; [constructor; assumption|].
    split; [rewrite parseLines_app, P1; exact P2|].
    rewrite Fl. unfold flush at 1. cbn [currentTrack tracks combine map].
    rewrite <- app_assoc. reflexivity.
Qed.

(** X15: a tracklist of the documented format gives back what it says.
    For a header line followed by the lines of well-formed entries, each a
    track-start line and the [w/] lines of the tracks mixed with it,
    whatever the white space around the lines, [parseTracklist] returns the
    header and one track per entry, in order: the start time of the
    timestamp, artist, title and label as written, the additional tracks
    as written and in order, and neither end time nor file name. *)
Theorem tracklist_round_trip (header : string) (entries : list entry)
    (texts : list string) :
  Forall well_formed entries ->
  map TrimSpace texts = concat (map entry_lines entries) ->
  exists starts,
    Forall2 (fun e start => parseTimestamp (stamp e) = Ret start) entries starts
    /\ parseTracklist (inr (mkScanner (header :: texts) None))
       = Ret (map track_of (combine entries starts), header).
Proof.
  intros Hall Etexts.
  destruct (entries_parse entries texts (mkParser [] None) Hall Etexts)
    as [starts [st' [F [P Fl]]]].
  exists starts. split; [assumption|].
  unfold parseTracklist. cbn [tokens tl hd scanErr]. rewrite P. cbn [bind].
  rewrite Fl. reflexivity.
Qed.

Lemma tracklist_round_trip_witness :
  exists starts,
    Forall2 (fun e start => parseTimestamp (stamp e) = Ret start)
      [mkEntry "0:00:00" (mkAdditionalTrack "Artist 1" "Title 1" "Label 1") [];
       mkEntry "0:03:30" (mkAdditionalTrack "Artist 2" "Title 2" "")
         [mkAdditionalTrack "Artist 2.1" "Title 2.1" "Label 2.1"];
       mkEntry "0:07:15" (mkAdditionalTrack "Artist 3" "Title 3" "Label 3") []]
      starts
    /\ parseTracklist
         (inr (mkScanner
                 ["My Awesome DJ Set";
                  "[0:00:00] Artist 1 - Title 1 [Label 1]";
                  "[0:03:30] Artist 2 - Title 2";
                  "w/ Artist 2.1 - Title 2.1 [Label 2.1]";
                  "[0:07:15] Artist 3 - Title 3 [Label 3]"]
                 None))
       = Ret (map track_of
                (combine
                   [mkEntry "0:00:00"
                      (mkAdditionalTrack "Artist 1" "Title 1" "Label 1") [];
                    mkEntry "0:03:30" (mkAdditionalTrack "Artist 2" "Title 2" "")
                      [mkAdditionalTrack "Artist 2.1" "Title 2.1" "Label 2.1"];
                    mkEntry "0:07:15"
                      (mkAdditionalTrack "Artist 3" "Title 3" "Label 3") []]
                   starts),
              "My Awesome DJ Set").
Proof.
  apply (tracklist_round_trip "My Awesome DJ Set"
           [mkEntry "0:00:00" (mkAdditionalTrack "Artist 1" "Title 1" "Label 1") [];
            mkEntry "0:03:30" (mkAdditionalTrack "Artist 2" "Title 2" "")
              [mkAdditionalTrack "Artist 2.1" "Title 2.1" "Label 2.1"];
            mkEntry "0:07:15" (mkAdditionalTrack "Artist 3" "Title 3" "Label 3") []]
           ["[0:00:00] Artist 1 - Title 1 [Label 1]";
            "[0:03:30] Artist 2 - Title 2";
            "w/ Artist 2.1 - Title 2.1 [Label 2.1]";
            "[0:07:15] Artist 3 - Title 3 [Label 3]"]);
    [|reflexivity].
  assert (P : forall a t l,
             forallb_string dot (a ++ " - " ++ t) = true ->
             no_space_bracket (a ++ " - " ++ t) = true ->
             Cut (a ++ " -") " - " = None ->
             forallb_string dot l = true ->
             printable (mkAdditionalTrack a t l))
    by (intros a t l H1 H2 H3 H4; repeat split; assumption).
  assert (T : forall h m s,
             h <> "" -> forallb_string digit h = true -> String.length h <= 18 ->
             m <> "" -> forallb_string digit m = true -> String.length m <= 18 ->
             s <> "" -> forallb_string digit s = true -> String.length s <= 18 ->
             timestamp_text (h ++ ":" ++ m ++ ":" ++ s))
    by (intros h m s; intros; right; exists h, m, s; repeat split; assumption).
  assert (W : forall ts a t l adds,
             timestamp_text ts -> printable (mkAdditionalTrack a t l) ->
             HasSuffix (a ++ " - " ++ t) "On Stage" = false ->
             Forall printable adds ->
             well_formed (mkEntry ts (mkAdditionalTrack a t l) adds))
    by (intros ts a t l adds H1 H2 H3 H4; repeat split; assumption || apply H2).
  apply Forall_cons; [|apply Forall_cons; [|apply Forall_cons; [|apply Forall_nil]]];
    apply W; try (apply P; reflexivity); try reflexivity;
    try (apply Forall_cons; [apply P; reflexivity|]); try apply Forall_nil.
  - apply (T "0" "00" "00"); try discriminate; try reflexivity; simpl; lia.
  - apply (T "0" "03" "30"); try discriminate; try reflexivity; simpl; lia.
  - apply (T "0" "07" "15"); try discriminate; try reflexivity; simpl; lia.
Defined.
